(** * Skylark CLI helpers and [do_parallel]: a shallow embedding

    Sources embedded here:
    - [src/skylark/cli/cli_helper.py]: [is_plausible_local_path], [parse_path],
      [ls_local], [copy_local_local], [copy_local_s3], [copy_s3_local],
      [deprovision_skylark_instances];
    - [src/skylark/utils/utils.py]: [wait_for], [do_parallel],
      [ConcurrentCounter].

    Python values that the code manipulates are kept as the code has them:
    [str] as [string], tuples of mixed shape as [pyval], [pathlib.Path] as a
    root with a list of components, the file system as a tree of directories
    and files, exceptions as an inductive type, and the thread pool of
    [concurrent.futures] as a small machine driven by a scheduler. *)

From Stdlib Require Import ZArith Lia Ascii String List Bool Permutation DecimalString.
From Stdlib Require Import QArith Lqa.
From stdpp Require Import base option list.
Import ListNotations.
Local Open Scope string_scope.
Local Open Scope list_scope.
Local Open Scope Z_scope.

(** ** Python [str] operations used by the sources *)

Module PyStr.

(** [s.startswith(p)] *)
Fixpoint startswith (p s : string) : bool :=
  match p, s with
  | EmptyString, _ => true
  | String a p', String b s' => if Ascii.eqb a b then startswith p' s' else false
  | String _ _, EmptyString => false
  end.

(** [s[n:]] for [n >= 0] *)
Fixpoint slice_from (n : nat) (s : string) : string :=
  match n, s with
  | O, _ => s
  | S n', String _ s' => slice_from n' s'
  | S _, EmptyString => EmptyString
  end.

(** [sub in s] *)
Fixpoint contains (sub s : string) : bool :=
  if startswith sub s then true
  else match s with
       | EmptyString => false
       | String _ s' => contains sub s'
       end.

(** [s.split(sep, 1)] for a one-character separator: one or two pieces. *)
Fixpoint split_once (sep : ascii) (s : string) : list string :=
  match s with
  | EmptyString => [EmptyString]
  | String c s' =>
      if Ascii.eqb c sep then [EmptyString; s']
      else match split_once sep s' with
           | [a] => [String c a]
           | a :: rest => String c a :: rest
           | [] => []
           end
  end.

(** [s.split(sep)] for a one-character separator. *)
Fixpoint split (sep : ascii) (s : string) : list string :=
  match s with
  | EmptyString => [EmptyString]
  | String c s' =>
      if Ascii.eqb c sep then EmptyString :: split sep s'
      else match split sep s' with
           | a :: rest => String c a :: rest
           | [] => [String c EmptyString]
           end
  end.

(** [s.lstrip(c)] for a one-character set. *)
Fixpoint lstrip (c : ascii) (s : string) : string :=
  match s with
  | String a s' => if Ascii.eqb a c then lstrip c s' else s
  | EmptyString => EmptyString
  end.

(** first [n] characters: [s[:n]] *)
Fixpoint take (n : nat) (s : string) : string :=
  match n, s with
  | O, _ => EmptyString
  | S n', String c s' => String c (take n' s')
  | S _, EmptyString => EmptyString
  end.

End PyStr.

(** ** The fragment of Python's [re] that [parse_path] uses

    A backtracking matcher with greedy quantifiers, written in
    continuation-passing style. Quantifiers range over single-character
    classes, which is all the pattern of [parse_path] needs. As in Python,
    [.] matches any character but a newline, [[^c]] matches any character
    but [c], and [match] anchors the pattern at the start of the string
    only. *)

Module Re.

Inductive cls : Type :=
| CLit (c : ascii)
| CDot
| CNot (c : ascii).

Inductive regex : Type :=
| Eps
| Cls (c : cls)
| Opt (r : regex)
| Star (c : cls)
| Plus (c : cls)
| Cat (r1 r2 : regex)
| Group (r : regex).

Definition newline : ascii := Ascii.ascii_of_nat 10.

Definition cls_matches (c : cls) (a : ascii) : bool :=
  match c with
  | CLit b => Ascii.eqb a b
  | CDot => negb (Ascii.eqb a newline)
  | CNot b => negb (Ascii.eqb a b)
  end.

Definition cont : Type := string -> list string -> option (list string).

(** greedy [c*]: take as many characters as possible, give back one at a
    time when the rest of the pattern fails *)
Fixpoint star (c : cls) (s : string) (caps : list string) (k : cont)
  : option (list string) :=
  match s with
  | String a s' =>
      if cls_matches c a then
        match star c s' caps k with
        | Some r => Some r
        | None => k s caps
        end
      else k s caps
  | EmptyString => k s caps
  end.

Definition consumed (s s' : string) : string :=
  PyStr.take (String.length s - String.length s') s.

Fixpoint run (r : regex) (s : string) (caps : list string) (k : cont)
  : option (list string) :=
  match r with
  | Eps => k s caps
  | Cls c =>
      match s with
      | String a s' => if cls_matches c a then k s' caps else None
      | EmptyString => None
      end
  | Opt r' =>
      match run r' s caps k with
      | Some res => Some res
      | None => k s caps
      end
  | Star c => star c s caps k
  | Plus c =>
      match s with
      | String a s' => if cls_matches c a then star c s' caps k else None
      | EmptyString => None
      end
  | Cat r1 r2 => run r1 s caps (fun s' caps' => run r2 s' caps' k)
  | Group r' =>
      run r' s caps (fun s' caps' => k s' (caps' ++ [consumed s s']))
  end.

(** [regex.match(s)] followed by [.groups()]; [None] when there is no match *)
Definition match_groups (r : regex) (s : string) : option (list string) :=
  run r s [] (fun _ caps => Some caps).

(** a literal run of characters *)
Fixpoint lit (s : string) : regex :=
  match s with
  | EmptyString => Eps
  | String c s' => Cat (Cls (CLit c)) (lit s')
  end.

Fixpoint seq (l : list regex) : regex :=
  match l with
  | [] => Eps
  | r :: rest => Cat r (seq rest)
  end.

(** the number of groups of a pattern, which is the length of what
    [.groups()] returns; the matcher above agrees with it as long as no
    group sits under a [?] *)
Fixpoint ngroups (r : regex) : nat :=
  match r with
  | Cat r1 r2 => ngroups r1 + ngroups r2
  | Group r' => S (ngroups r')
  | Opt r' => ngroups r'
  | _ => O
  end.

Fixpoint no_optional_group (r : regex) : bool :=
  match r with
  | Opt r' => Nat.eqb (ngroups r') 0 && no_optional_group r'
  | Cat r1 r2 => no_optional_group r1 && no_optional_group r2
  | Group r' => no_optional_group r'
  | _ => true
  end.

End Re.

(** ** [pathlib]: pure paths (POSIX flavour)

    A path is its root (empty, one slash or two) and its components; empty
    components and ["."] are dropped when a string is parsed, [".."] is
    kept. *)

Module Pathlib.

Record Path : Type := mkPath { root : string; parts : list string }.

Definition is_component (c : string) : bool :=
  negb (String.eqb c EmptyString) && negb (String.eqb c ".").

Definition splitroot (s : string) : string :=
  if PyStr.startswith "/" s then
    let stripped := PyStr.lstrip "/" s in
    if Nat.eqb (String.length s - String.length stripped) 2 then "//" else "/"
  else EmptyString.

(** [Path(s)] *)
Definition of_string (s : string) : Path :=
  mkPath (splitroot s) (List.filter is_component (PyStr.split "/" s)).

(** [p.parent]: the path without its last component; a path without
    components is its own parent *)
Definition parent (p : Path) : Path :=
  match parts p with
  | [] => p
  | _ => mkPath (root p) (removelast (parts p))
  end.

(** [p.name] *)
Definition name (p : Path) : string := List.last (parts p) EmptyString.

(** [p / s]: an absolute right operand replaces the left one *)
Definition joinpath (p : Path) (s : string) : Path :=
  let q := of_string s in
  if String.eqb (root q) EmptyString then mkPath (root p) (parts p ++ parts q) else q.

Fixpoint parts_eqb (k1 k2 : list string) : bool :=
  match k1, k2 with
  | [], [] => true
  | a :: k1', b :: k2' => String.eqb a b && parts_eqb k1' k2'
  | _, _ => false
  end.

(** [os.path.join(a, b)] *)
Definition os_path_join (a b : string) : string :=
  if PyStr.startswith "/" b then b
  else if String.eqb a EmptyString then b
  else if String.eqb (PyStr.slice_from (String.length a - 1) a) "/"
       then String.append a b
       else String.append a (String.append "/" b).

End Pathlib.

Abbreviation Path := Pathlib.Path.
Notation "p // s" := (Pathlib.joinpath p s) (at level 40, left associativity).

(** ** Exceptions raised by the sources and by the library calls they make *)

Inductive exn : Type :=
| ValueError (msg : string)
| FileNotFoundError (p : Path)
| FileExistsError (p : Path)
| NotADirectoryError (p : Path)
| IsADirectoryError (p : Path)
| SameFileError (src dst : Path)
| RemoteError (msg : string).

(** The outcome of a call: a value, an exception, or (for the models that
    recurse on fuel) fuel exhausted before the call finished. *)
Inductive res (A : Type) : Type :=
| Val (a : A)
| Raise (e : exn)
| OutOfFuel.
Arguments Val {A} a.
Arguments Raise {A} e.
Arguments OutOfFuel {A}.

(** ** The local file system: a tree, and the [os]/[pathlib] calls on it *)

Module FS.

#[warnings="-register-all"] Inductive node : Type :=
| File (content : string)
| Dir (entries : list (string * node)).

Record t : Type := mk { tree : node; cwd : list string }.

Fixpoint find_entry (x : string) (es : list (string * node)) : option node :=
  match es with
  | [] => None
  | (y, n) :: rest => if String.eqb x y then Some n else find_entry x rest
  end.

Fixpoint set_entry (x : string) (new : node) (es : list (string * node))
  : list (string * node) :=
  match es with
  | [] => [(x, new)]
  | (y, n) :: rest =>
      if String.eqb x y then (y, new) :: rest else (y, n) :: set_entry x new rest
  end.

(** the node at an absolute, canonical key *)
Fixpoint lookup (n : node) (k : list string) : option node :=
  match k with
  | [] => Some n
  | x :: rest =>
      match n with
      | Dir es =>
          match find_entry x es with
          | Some c => lookup c rest
          | None => None
          end
      | File _ => None
      end
  end.

(** replace or create the node at key [k]; the parent has to be a directory *)
Fixpoint put (n : node) (k : list string) (new : node) : option node :=
  match k with
  | [] => Some new
  | x :: rest =>
      match n with
      | Dir es =>
          match rest with
          | [] => Some (Dir (set_entry x new es))
          | _ =>
              match find_entry x es with
              | Some c =>
                  match put c rest new with
                  | Some c' => Some (Dir (set_entry x c' es))
                  | None => None
                  end
              | None => None
              end
          end
      | File _ => None
      end
  end.

Inductive errno : Type := ENOENT | ENOTDIR.

(** Path resolution as the kernel does it: every component but the last
    has to be an existing directory; [".."] steps to the parent. The
    result is the canonical key the path names (which need not exist). *)
Fixpoint locate (tr : node) (cur : list string) (ps : list string)
  : list string + errno :=
  match ps with
  | [] => inl cur
  | x :: rest =>
      match lookup tr cur with
      | Some (Dir _) =>
          locate tr (if String.eqb x ".." then removelast cur else cur ++ [x]) rest
      | Some (File _) => inr ENOTDIR
      | None => inr ENOENT
      end
  end.

Definition resolve (fs : t) (p : Path) : list string + errno :=
  locate (tree fs)
         (if String.eqb (Pathlib.root p) EmptyString then cwd fs else [])
         (Pathlib.parts p).

(** [os.stat(p)] *)
Definition stat (fs : t) (p : Path) : node + errno :=
  match resolve fs p with
  | inl k =>
      match lookup (tree fs) k with
      | Some n => inl n
      | None => inr ENOENT
      end
  | inr e => inr e
  end.

(** [p.exists()] and [p.is_dir()]: false on any error *)
Definition exists_ (fs : t) (p : Path) : bool :=
  match stat fs p with inl _ => true | inr _ => false end.

Definition is_dir (fs : t) (p : Path) : bool :=
  match stat fs p with inl (Dir _) => true | _ => false end.

Definition errno_exn (e : errno) (p : Path) : exn :=
  match e with
  | ENOENT => FileNotFoundError p
  | ENOTDIR => NotADirectoryError p
  end.

(** [os.listdir(p)], the snapshot [p.iterdir()] walks over *)
Definition iterdir (fs : t) (p : Path) : res (list Path) :=
  match stat fs p with
  | inl (Dir es) =>
      Val (List.map (fun e => Pathlib.mkPath (Pathlib.root p) (Pathlib.parts p ++ [fst e])) es)
  | inl (File _) => Raise (NotADirectoryError p)
  | inr e => Raise (errno_exn e p)
  end.

(** [os.mkdir(p)] *)
Definition os_mkdir (fs : t) (p : Path) : t * res unit :=
  match resolve fs p with
  | inl k =>
      match lookup (tree fs) k with
      | Some _ => (fs, Raise (FileExistsError p))
      | None =>
          match put (tree fs) k (Dir []) with
          | Some tr' => (mk tr' (cwd fs), Val tt)
          | None => (fs, Raise (FileNotFoundError p))
          end
      end
  | inr e => (fs, Raise (errno_exn e p))
  end.

(** [p.mkdir(parents=..., exist_ok=...)], after [pathlib]: a missing
    parent is created first when [parents] is set, and an existing
    directory is accepted when [exist_ok] is set. The recursion goes
    through [p.parent], that is, through the components of [p] without
    the last one; [rps] holds the components in reverse. A path without
    components is its own parent, and the error is passed on. *)
Fixpoint mkdir_rec (root : string) (rps : list string) (parents exist_ok : bool)
         (fs : t) : t * res unit :=
  let p := Pathlib.mkPath root (rev rps) in
  match os_mkdir fs p with
  | (fs', Val tt) => (fs', Val tt)
  | (_, Raise (FileNotFoundError q)) =>
      match rps with
      | [] => (fs, Raise (FileNotFoundError q))
      | _ :: rps' =>
          if negb parents then (fs, Raise (FileNotFoundError q))
          else
            match mkdir_rec root rps' true true fs with
            | (fs1, Val tt) =>
                match os_mkdir fs1 p with
                | (fs2, Val tt) => (fs2, Val tt)
                | (_, Raise (FileNotFoundError q')) => (fs1, Raise (FileNotFoundError q'))
                | (_, r) =>
                    if negb exist_ok || negb (is_dir fs1 p) then (fs1, r)
                    else (fs1, Val tt)
                end
            | (fs1, r) => (fs1, r)
            end
      end
  | (_, r) =>
      if negb exist_ok || negb (is_dir fs p) then (fs, r) else (fs, Val tt)
  end.

Definition mkdir (parents exist_ok : bool) (fs : t) (p : Path) : t * res unit :=
  mkdir_rec (Pathlib.root p) (rev (Pathlib.parts p)) parents exist_ok fs.

(** [shutil.copyfile(src, dst)] *)
Definition copyfile (fs : t) (src dst : Path) : t * res unit :=
  let same :=
    match resolve fs src, resolve fs dst with
    | inl ks, inl kd =>
        match lookup (tree fs) ks, lookup (tree fs) kd with
        | Some _, Some _ => Pathlib.parts_eqb ks kd
        | _, _ => false
        end
    | _, _ => false
    end in
  if same then (fs, Raise (SameFileError src dst))
  else
    match stat fs src with
    | inr e => (fs, Raise (errno_exn e src))
    | inl (Dir _) => (fs, Raise (IsADirectoryError src))
    | inl (File c) =>
        match resolve fs dst with
        | inr e => (fs, Raise (errno_exn e dst))
        | inl kd =>
            match lookup (tree fs) kd with
            | Some (Dir _) => (fs, Raise (IsADirectoryError dst))
            | _ =>
                match put (tree fs) kd (File c) with
                | Some tr' => (mk tr' (cwd fs), Val tt)
                | None => (fs, Raise (FileNotFoundError dst))
                end
            end
        end
    end.

End FS.

(** ** Python values and numbers *)

(** What [parse_path] returns: tuples of three or four fields, or a bare
    string. *)
#[warnings="-register-all"] Inductive pyval : Type :=
| PStr (s : string)
| PNone
| PTuple (items : list pyval).

(** The byte totals are Python numbers: an [int] is exact, and a [float]
    is a binary64 double. Every float that the sources compute is a sum of
    integers, so it is kept as the integer it denotes; [round53] is
    round-to-nearest-even onto the doubles (53 significant bits), which is
    what [int -> float] conversion and float addition do on such values
    (below the overflow threshold of 2^1024). *)
Module PyNum.

Inductive t : Type :=
| PyInt (z : Z)
| PyFloat (z : Z).

Definition round53 (z : Z) : Z :=
  let a := Z.abs z in
  if a <? 2 ^ 53 then z
  else
    let e := Z.log2 a - 52 in
    let q := a / 2 ^ e in
    let r := a mod 2 ^ e in
    let half := 2 ^ (e - 1) in
    let q' := if r <? half then q
              else if half <? r then q + 1
              else if Z.even q then q else q + 1 in
    Z.sgn z * (q' * 2 ^ e).

(** [x + y] *)
Definition add (x y : t) : t :=
  match x, y with
  | PyInt a, PyInt b => PyInt (a + b)
  | PyFloat a, PyInt b => PyFloat (round53 (a + round53 b))
  | PyInt a, PyFloat b => PyFloat (round53 (round53 a + b))
  | PyFloat a, PyFloat b => PyFloat (round53 (a + b))
  end.

(** the integer a number denotes *)
Definition value (x : t) : Z :=
  match x with PyInt z => z | PyFloat z => z end.

End PyNum.

(** ** Traces

    The order of effectful calls is read off a trace. [occurs_after p q tr]
    tells whether some event satisfying [p] comes later in [tr] than some
    event satisfying [q]. *)
Module Trace.

Fixpoint occurs_after {E} (p q : E -> bool) (tr : list E) : bool :=
  match tr with
  | [] => false
  | e :: rest => (q e && existsb p rest) || occurs_after p q rest
  end.

End Trace.

(** ** [src/skylark/cli/cli_helper.py] *)

Module CliHelper.

Import Pathlib.

(** *** Path classification *)

Definition is_plausible_local_path (fs : FS.t) (path : string) : bool :=
  let path := of_string path in
  if FS.exists_ fs path then true
  else if FS.is_dir fs path then true
  else if FS.exists_ fs (parent path) then true
  else false.

(** The compiled pattern of [parse_path], piece by piece:
    [https?://], the group [([^/]+)], [.blob.core.windows.net/], the
    group [([^/]+)], [/], and a last group that takes any run of
    characters up to a newline. The dots of the pattern are not escaped,
    so each matches any character. *)
Definition azure_regex : Re.regex :=
  Re.seq [ Re.lit "http"; Re.Opt (Re.lit "s"); Re.lit "://";
           Re.Group (Re.Plus (Re.CNot "/"));
           Re.Cls Re.CDot; Re.lit "blob";
           Re.Cls Re.CDot; Re.lit "core";
           Re.Cls Re.CDot; Re.lit "windows";
           Re.Cls Re.CDot; Re.lit "net/";
           Re.Group (Re.Plus (Re.CNot "/")); Re.lit "/";
           Re.Group (Re.Star Re.CDot) ].

(** [bucket_name, key_name = s.split("/", 1)]: unpacking anything but
    two pieces raises [ValueError] *)
Definition unpack2 (l : list string) : res (string * string) :=
  match l with
  | [a; b] => Val (a, b)
  | _ => Raise (ValueError "not enough values to unpack (expected 2, got 1)")
  end.

Definition parse_path (fs : FS.t) (path : string) : res pyval :=
  if PyStr.startswith "s3://" path then
    match unpack2 (PyStr.split_once "/" (PyStr.slice_from 5 path)) with
    | Val (bucket_name, key_name) =>
        Val (PTuple [PStr "s3"; PStr bucket_name; PStr key_name])
    | Raise e => Raise e
    | OutOfFuel => OutOfFuel
    end
  else if PyStr.startswith "gs://" path then
    match unpack2 (PyStr.split_once "/" (PyStr.slice_from 5 path)) with
    | Val (bucket_name, key_name) =>
        Val (PTuple [PStr "gs"; PStr bucket_name; PStr key_name])
    | Raise e => Raise e
    | OutOfFuel => OutOfFuel
    end
  else if (PyStr.startswith "https://" path || PyStr.startswith "http://" path)
          && PyStr.contains "blob.core.windows.net" path then
    match Re.match_groups azure_regex path with
    | None => Raise (ValueError (String.append "Invalid Azure path: " path))
    | Some [account; container; blob_path] =>
        Val (PTuple [PStr "azure"; PStr account; PStr container; PStr blob_path])
    | Some _ =>
        (* not reached: the pattern has three groups, see [azure_groups] *)
        Raise (ValueError "unpack")
    end
  else if is_plausible_local_path fs path then
    Val (PTuple [PStr "local"; PNone; PStr path])
  else Val (PStr path).

(** *** [ls_local]: the names the generator yields when it is consumed;
    the existence check runs when the first name is asked for *)
Definition ls_local (fs : FS.t) (path : Path) : res (list string) :=
  if negb (FS.exists_ fs path) then Raise (FileNotFoundError path)
  else if FS.is_dir fs path then
    match FS.iterdir fs path with
    | Val children => Val (List.map name children)
    | Raise e => Raise e
    | OutOfFuel => OutOfFuel
    end
  else Val [name path].

(** *** Effects

    The copy functions write the local file system and call out to the
    object store. A call is run on a [world]: the file system and the
    trace of the effectful calls made so far, in program order. *)

Inductive event : Type :=
| EvMkdir (p : Path) (parents : bool)       (* [p.mkdir(exist_ok=True, parents=...)] *)
| EvCopyfile (src dst : Path)               (* [copyfile(src, dst)] *)
| EvUpload (p : Path) (key : string)        (* [s3.upload_object(p, key)] *)
| EvDownload (key : string) (dst : Path)    (* [s3.download_object(key, dst)] *)
| EvTotal (total : PyNum.t)                 (* [total_bytes] is bound and handed to [tqdm] *)
| EvResult (i : nat)                        (* [op.result()] on the [i]-th future *)
| EvProgress (n : Z).                       (* [pbar.update(n)] *)

Record world : Type := mkWorld { w_fs : FS.t; w_trace : list event }.

Definition M (A : Type) : Type := world -> world * res A.

Definition ret {A} (a : A) : M A := fun w => (w, Val a).
Definition raise {A} (e : exn) : M A := fun w => (w, Raise e).
Definition bind {A B} (c : M A) (k : A -> M B) : M B :=
  fun w =>
    match c w with
    | (w', Val a) => k a w'
    | (w', Raise e) => (w', Raise e)
    | (w', OutOfFuel) => (w', OutOfFuel)
    end.

Notation "'do' x <- c ; k" := (bind c (fun x => k))
  (at level 10, x name, c at level 100, k at level 200).
Notation "c ;; k" := (bind c (fun _ => k))
  (at level 100, k at level 200, right associativity).

Definition emit (e : event) : M unit :=
  fun w => (mkWorld (w_fs w) (w_trace w ++ [e]), Val tt).

Definition lift_fs (op : FS.t -> FS.t * res unit) : M unit :=
  fun w => let '(fs', r) := op (w_fs w) in (mkWorld fs' (w_trace w), r).

Definition mkdir (parents exist_ok : bool) (p : Path) : M unit :=
  emit (EvMkdir p parents) ;; lift_fs (fun fs => FS.mkdir parents exist_ok fs p).

Definition copyfile (src dst : Path) : M unit :=
  emit (EvCopyfile src dst) ;; lift_fs (fun fs => FS.copyfile fs src dst).

Definition iterdir (p : Path) : M (list Path) :=
  fun w => (w, FS.iterdir (w_fs w) p).

(** [for x in l: body(x)] *)
Fixpoint for_each {A} (l : list A) (body : A -> M unit) : M unit :=
  match l with
  | [] => ret tt
  | x :: rest => body x ;; for_each rest body
  end.

(** *** [copy_local_local]

    The recursion follows the directory tree as it is found while the
    copy writes to it, so it is bounded by fuel: copying a directory into
    itself does not terminate in the source either. *)
Fixpoint copy_local_local (fuel : nat) (src dst : Path) : M unit :=
  match fuel with
  | O => fun w => (w, OutOfFuel)
  | S fuel' =>
      fun w =>
        if negb (FS.exists_ (w_fs w) src) then (w, Raise (FileNotFoundError src))
        else if negb (FS.exists_ (w_fs w) (parent dst))
        then (w, Raise (FileNotFoundError (parent dst)))
        else if FS.is_dir (w_fs w) src then
          (mkdir false true dst ;;
           do children <- iterdir src ;
           for_each children
             (fun child => copy_local_local fuel' child (dst // name child))) w
        else
          (mkdir true true (parent dst) ;;
           copyfile src dst) w
  end.

(** *** The object store

    [S3Interface] is not part of the sources at hand; what the copy
    functions need of it is taken as a parameter: the listing of a
    prefix, and for each upload or download whether its future ends in an
    error. *)
Record ObjectStoreObject : Type := mkObj { key : string; size : Z }.

Record S3Interface : Type := mkS3 {
  list_objects : string -> list ObjectStoreObject;
  upload_error : Path -> string -> option exn;
  download_error : string -> Path -> option exn
}.

(** [concurrent.futures.as_completed(ops)]: the futures in the order in
    which they complete, which a schedule decides: each entry of the
    schedule picks one of the futures that are still pending. *)
Fixpoint extract {A} (i : nat) (l : list A) {struct l} : option (A * list A) :=
  match l, i with
  | [], _ => None
  | x :: rest, O => Some (x, rest)
  | x :: rest, S i' =>
      match extract i' rest with
      | Some (y, rest') => Some (y, x :: rest')
      | None => None
      end
  end.

Fixpoint as_completed_n {A} (n : nat) (sched : list nat) (ops : list A) : list A :=
  match n with
  | O => []
  | S n' =>
      match extract (Nat.modulo (hd O sched) (length ops)) ops with
      | Some (x, rest) => x :: as_completed_n n' (tl sched) rest
      | None => []
      end
  end.

Definition as_completed {A} (sched : list nat) (ops : list A) : list A :=
  as_completed_n (length ops) sched ops.

(** one pending transfer: its index in [ops], the error its future holds
    (if any) and what the progress bar adds once it is done *)
Record op : Type := mkOp { op_index : nat; op_error : option exn; op_bytes : Z }.

(** the loop that waits for the futures and feeds the progress bar *)
Definition wait_all (sched : list nat) (ops : list op) : M unit :=
  for_each (as_completed sched ops)
    (fun o =>
       emit (EvResult (op_index o)) ;;
       match op_error o with
       | Some e => raise e
       | None => emit (EvProgress (op_bytes o))
       end).

(** *** [copy_local_s3]

    The inner [_copy] only reads the local file system, so what
    [path.is_dir()], [path.iterdir()] and [path.stat()] answer is the
    subtree found at [path]; the walk is written on that subtree. It
    returns the size it computed and appends to [ops]. *)
Definition _copy_children
           (_copy : FS.node -> Path -> string -> list op -> M (PyNum.t * list op))
           (path : Path) (dst_key : string)
  : list (string * FS.node) -> PyNum.t -> list op -> M (PyNum.t * list op) :=
  fix loop es total_size ops :=
    match es with
    | [] => ret (total_size, ops)
    | (child_name, child) :: rest =>
        do r <- _copy child (mkPath (root path) (parts path ++ [child_name]))
                      (os_path_join dst_key child_name) ops ;
        loop rest (PyNum.add total_size (fst r)) (snd r)
    end.

Fixpoint _copy (s3 : S3Interface) (n : FS.node) (path : Path) (dst_key : string)
         (ops : list op) : M (PyNum.t * list op) :=
  match n with
  | FS.Dir es =>
      _copy_children (_copy s3) path dst_key es (PyNum.PyFloat 0) ops
  | FS.File c =>
      emit (EvUpload path dst_key) ;;
      ret (PyNum.PyInt (Z.of_nat (String.length c)),
           ops ++ [mkOp (length ops) (upload_error s3 path dst_key)
                        (Z.of_nat (String.length c))])
  end.

Definition copy_local_s3 (s3 : S3Interface) (sched : list nat)
           (src : Path) (dst_key : string) : M unit :=
  fun w =>
    match FS.stat (w_fs w) src with
    | inl n =>
        (do r <- _copy s3 n src dst_key [] ;
         emit (EvTotal (fst r)) ;;
         wait_all sched (snd r)) w
    | inr e =>
        (* [is_dir()] is false, the upload is handed over and [stat()] raises *)
        (emit (EvUpload src dst_key) ;; raise (FS.errno_exn e src)) w
    end.

(** *** [copy_s3_local] *)

(** lines 124 to 126: where the object is written *)
Definition dest_path (src_key : string) (dst : Path) (obj : ObjectStoreObject) : Path :=
  let sub_key := PyStr.slice_from (String.length src_key) (key obj) in
  let sub_key := PyStr.lstrip "/" sub_key in
  dst // sub_key.

Fixpoint copy_s3_local_loop (s3 : S3Interface) (src_key : string) (dst : Path)
         (objs : list ObjectStoreObject) (total_bytes : PyNum.t) (ops : list op)
  : M (PyNum.t * list op) :=
  match objs with
  | [] => ret (total_bytes, ops)
  | obj :: rest =>
      let dest := dest_path src_key dst obj in
      mkdir true true (parent dest) ;;
      emit (EvDownload (key obj) dest) ;;
      copy_s3_local_loop s3 src_key dst rest
        (PyNum.add total_bytes (PyNum.PyInt (size obj)))
        (ops ++ [mkOp (length ops) (download_error s3 (key obj) dest) (size obj)])
  end.

Definition copy_s3_local (s3 : S3Interface) (sched : list nat)
           (src_key : string) (dst : Path) : M unit :=
  do r <- copy_s3_local_loop s3 src_key dst (list_objects s3 src_key)
                             (PyNum.PyFloat 0) [] ;
  emit (EvTotal (fst r)) ;;
  wait_all sched (snd r).

(** *** Reading a trace *)

Definition is_upload (e : event) : bool :=
  match e with EvUpload _ _ => true | _ => false end.
Definition is_total (e : event) : bool :=
  match e with EvTotal _ => true | _ => false end.
Definition is_wait (e : event) : bool :=
  match e with EvResult _ | EvProgress _ => true | _ => false end.

(** the total that was handed to the progress bar, if the call got there *)
Fixpoint total_of (tr : list event) : option PyNum.t :=
  match tr with
  | [] => None
  | EvTotal t :: _ => Some t
  | _ :: rest => total_of rest
  end.

(** the sum of the sizes of the regular files under a node *)
Fixpoint tree_bytes (n : FS.node) : Z :=
  match n with
  | FS.File c => Z.of_nat (String.length c)
  | FS.Dir es =>
      (fix sum (es : list (string * FS.node)) : Z :=
         match es with
         | [] => 0
         | (_, child) :: rest => tree_bytes child + sum rest
         end) es
  end.

(** the sum of the [size] fields of a listing *)
Definition listing_bytes (objs : list ObjectStoreObject) : Z :=
  fold_right (fun o acc => size o + acc) 0 objs.

(** every [copyfile] call comes right after the [mkdir] of its
    destination's parent *)
Inductive guarded : list event -> Prop :=
| guarded_nil : guarded []
| guarded_copy src dst rest :
    guarded rest ->
    guarded (EvMkdir (parent dst) true :: EvCopyfile src dst :: rest)
| guarded_other e rest :
    (forall src dst, e <> EvCopyfile src dst) ->
    guarded rest ->
    guarded (e :: rest).

(** *** Vocabulary of the statements about the copy functions *)

(** [emits P c]: whatever the world, [c] only appends to the trace, and
    what it appends satisfies [P]. *)
Definition emits {A} (P : list event -> Prop) (c : M A) : Prop :=
  forall w, exists evs, w_trace (fst (c w)) = w_trace w ++ evs /\ P evs.

(** every event of [evs] satisfies [p] *)
Definition only (p : event -> bool) (evs : list event) : Prop :=
  List.Forall (fun e => p e = true) evs.

(** the calls made while a listing is enumerated *)
Definition is_enumeration (e : event) : bool :=
  match e with EvMkdir _ _ | EvDownload _ _ => true | _ => false end.

(** what one walk does: it only hands uploads over, it returns, it keeps
    the earlier [ops], and below [2^53] the size it reports is the sum of
    the file sizes *)
Definition walks (s3 : S3Interface) (n : FS.node) : Prop :=
  forall path dst_key ops w,
  exists ups t ops',
    _copy s3 n path dst_key ops w
      = (mkWorld (w_fs w) (w_trace w ++ ups), Val (t, ops ++ ops'))
    /\ only is_upload ups
    /\ (tree_bytes n <= 2 ^ 53 -> PyNum.value t = tree_bytes n).

(** the spec's wording of a remote prefix: one of the two bucket schemes,
    or an http(s) URL of the blob service *)
Definition remote_prefixed (path : string) : bool :=
  PyStr.startswith "s3://" path
  || PyStr.startswith "gs://" path
  || ((PyStr.startswith "https://" path || PyStr.startswith "http://" path)
      && PyStr.contains "blob.core.windows.net" path).

End CliHelper.

(** ** [src/skylark/utils/utils.py]: [do_parallel]

    [do_parallel] hands every item to a [ThreadPoolExecutor] and collects
    the futures with [as_completed]. The pool is modelled as the machine
    that [concurrent.futures] implements: [submit] appends a work item to
    the queue of the pool, a worker thread takes the head of the queue
    whenever fewer than [max_workers] invocations are running, a running
    invocation finishes at some point, and the main thread picks up
    finished futures. Leaving the [with] block calls [shutdown(wait=True)],
    which returns once the queue is empty and no invocation is running;
    queued work items are not cancelled. Which of the enabled moves
    happens next is up to the scheduler: a schedule is a list of choices,
    and every interleaving is the run of some schedule. *)

Module Utils.

Inductive pevent : Type :=
| PoolCreated (max_workers : nat)  (* [ThreadPoolExecutor(max_workers=n)] *)
| Submitted (i : nat)     (* [executor.submit(wrapped_fn, args)] for item [i] *)
| Started (i : nat)       (* a worker begins [wrapped_fn] on item [i] *)
| Finished (i : nat)      (* [wrapped_fn] on item [i] has returned or raised *)
| Yielded (i : nat)       (* [future.result()] returned in the main thread *)
| Observed (i : nat).     (* [future.result()] raised in the main thread *)

Inductive action : Type :=
| ASubmit
| AStart
| AFinish (k : nat)
| ACollect (k : nat)
| AExit.

Definition is_submitted (e : pevent) : bool :=
  match e with Submitted _ => true | _ => false end.
Definition is_started (e : pevent) : bool :=
  match e with Started _ => true | _ => false end.
Definition is_observed (e : pevent) : bool :=
  match e with Observed _ => true | _ => false end.

Section Pool.

Context {A R : Type}.
(** the job: it returns a result or raises *)
Variable func : A -> R + exn.
(** [max_workers] *)
Variable n : nat.

Record pool : Type := mkPool {
  to_submit : list (nat * A);              (* items the list comprehension has not reached *)
  queue : list (nat * A);                  (* work items waiting in the pool *)
  running : list (nat * A);                (* invocations on a worker thread *)
  done_ : list (nat * A * (R + exn));      (* finished futures not yet picked up *)
  results : list (A * R);                  (* the [results] list *)
  failure : option exn;                    (* the exception that left the [for] loop *)
  ptrace : list pevent
}.

Definition is_nil {X} (l : list X) : bool :=
  match l with [] => true | _ => false end.

Definition no_failure (s : pool) : bool :=
  match failure s with None => true | Some _ => false end.

(** when a move is possible *)
Definition can (a : action) (s : pool) : bool :=
  match a with
  | ASubmit => no_failure s && negb (is_nil (to_submit s))
  | AStart => negb (is_nil (queue s)) && Nat.ltb (length (running s)) n
  | AFinish k => Nat.ltb k (length (running s))
  | ACollect k =>
      no_failure s && is_nil (to_submit s) && Nat.ltb k (length (done_ s))
  | AExit =>
      if no_failure s
      then is_nil (to_submit s) && is_nil (queue s) && is_nil (running s)
           && is_nil (done_ s)
      else is_nil (queue s) && is_nil (running s)
  end.

Definition candidates (s : pool) : list action :=
  [ASubmit; AStart]
    ++ List.map AFinish (List.seq 0 (length (running s)))
    ++ List.map ACollect (List.seq 0 (length (done_ s)))
    ++ [AExit].

Definition enabled (s : pool) : list action :=
  List.filter (fun a => can a s) (candidates s).

(** what a move does *)
Definition step (a : action) (s : pool) : pool :=
  match a with
  | ASubmit =>
      match to_submit s with
      | x :: rest =>
          mkPool rest (queue s ++ [x]) (running s) (done_ s) (results s)
                 (failure s) (ptrace s ++ [Submitted (fst x)])
      | [] => s
      end
  | AStart =>
      match queue s with
      | x :: rest =>
          mkPool (to_submit s) rest (running s ++ [x]) (done_ s) (results s)
                 (failure s) (ptrace s ++ [Started (fst x)])
      | [] => s
      end
  | AFinish k =>
      match CliHelper.extract k (running s) with
      | Some (x, rest) =>
          mkPool (to_submit s) (queue s) rest
                 (done_ s ++ [(x, func (snd x))]) (results s)
                 (failure s) (ptrace s ++ [Finished (fst x)])
      | None => s
      end
  | ACollect k =>
      match CliHelper.extract k (done_ s) with
      | Some ((i, args, inl result), rest) =>
          mkPool (to_submit s) (queue s) (running s) rest
                 (results s ++ [(args, result)])
                 (failure s) (ptrace s ++ [Yielded i])
      | Some ((i, args, inr e), rest) =>
          mkPool (to_submit s) (queue s) (running s) rest (results s)
                 (Some e) (ptrace s ++ [Observed i])
      | None => s
      end
  | AExit => s
  end.

(** what the call hands to its caller once the [with] block is left *)
Definition outcome (s : pool) : res (list (A * R)) :=
  match failure s with
  | None => Val (results s)
  | Some e => Raise e
  end.

Fixpoint run (fuel : nat) (sched : list nat) (s : pool)
  : pool * res (list (A * R)) :=
  match fuel with
  | O => (s, OutOfFuel)
  | S fuel' =>
      let acts := enabled s in
      match nth_error acts (Nat.modulo (hd O sched) (length acts)) with
      | None => (s, OutOfFuel)
      | Some AExit => (s, outcome s)
      | Some a => run fuel' (tl sched) (step a s)
      end
  end.

(** [enumerate(args_list)] *)
Definition indexed (l : list A) : list (nat * A) :=
  combine (List.seq 0 (length l)) l.

Definition init (args_list : list A) : pool :=
  mkPool (indexed args_list) [] [] [] [] None [PoolCreated n].

(** *** Vocabulary of the statements about the pool *)

(** Every move but the last uses up work: the machine terminates. *)
Definition work (s : pool) : nat :=
  4 * length (to_submit s) + 3 * length (queue s) + 2 * length (running s)
  + length (done_ s) + 1.

Variable args_list : list A.

(** the items, wherever they are *)
Definition items_of (s : pool) : list A :=
  List.map snd (to_submit s) ++ List.map snd (queue s) ++ List.map snd (running s)
    ++ List.map (fun d => snd (fst d)) (done_ s) ++ List.map fst (results s).

(** While no failure has been seen, every item is in exactly one place. *)
Definition accounted (s : pool) : Prop :=
  failure s = None -> Permutation (items_of s) args_list.

(** Finished futures hold what [func] gave, collected results are
    results of [func], and a failure is a failure of [func] on an item. *)
Definition sound (s : pool) : Prop :=
  Forall (fun d => snd d = func (snd (fst d))) (done_ s)
  /\ Forall (fun p => func (fst p) = inl (snd p)) (results s)
  /\ (forall e, failure s = Some e -> exists x, In x args_list /\ func x = inr e).

(** An item that has left the queue has been started, and one that is no
    longer running has finished. *)
Definition tracked (s : pool) : Prop :=
  forall x, In x (indexed args_list) ->
    (In x (to_submit s ++ queue s) \/ In (Started (fst x)) (ptrace s))
    /\ (In x (to_submit s ++ queue s ++ running s) \/ In (Finished (fst x)) (ptrace s)).

(** Submission is over before anything is collected, and a failure is on
    record exactly when the main thread has observed one. *)
Definition submit_first (s : pool) : Prop :=
  Trace.occurs_after is_submitted is_observed (ptrace s) = false
  /\ (failure s = None -> existsb is_observed (ptrace s) = false)
  /\ (failure s <> None -> to_submit s = [])
  /\ (failure s <> None -> existsb is_observed (ptrace s) = true).

(** all of the above *)
Definition pool_inv (s : pool) : Prop :=
  accounted s /\ sound s /\ tracked s /\ submit_first s.

End Pool.

(** [do_parallel(func, args_list, n)]: the trace of the pool and what the
    caller gets. The progress bar is presentation and is left out. *)
Definition do_parallel {A R} (func : A -> R + exn) (args_list : list A) (n : Z)
           (sched : list nat) : list pevent * res (list (A * R)) :=
  if Nat.eqb (length args_list) 0 then ([], Val [])
  else
    let n := if n =? -1 then Z.of_nat (length args_list) else n in
    if n <=? 0 then ([], Raise (ValueError "max_workers must be greater than 0"))
    else
      let '(s, r) := run func (Z.to_nat n) (4 * length args_list + 1) sched
                         (init (Z.to_nat n) args_list) in
      (ptrace s, r).

End Utils.

(** ** Concrete inputs used by the examples below *)

Module Examples.

Import CliHelper.

(** a home directory with [data/a] (10 bytes) and [data/b/c] (20 bytes);
    the working directory is [/home/u] *)
Definition home_fs : FS.t :=
  FS.mk
    (FS.Dir
       [("home",
         FS.Dir
           [("u",
             FS.Dir
               [("data",
                 FS.Dir
                   [("a", FS.File "0123456789");
                    ("b", FS.Dir [("c", FS.File "01234567890123456789")])])])])])
    ["home"; "u"].

Definition home : world := mkWorld home_fs [].

(** an object store in which every transfer succeeds *)
Definition store (listing : list ObjectStoreObject) : S3Interface :=
  mkS3 (fun _ => listing) (fun _ _ => None) (fun _ _ => None).

Definition small_listing : list ObjectStoreObject :=
  [mkObj "pre/a" 10; mkObj "pre/b/c" 20].

(** 1639 objects of 5 TiB each, followed by one object of a single byte *)
Definition part_key (i : nat) : string :=
  String.append "lake/part-" (NilEmpty.string_of_uint (Nat.to_uint i)).

Definition big_listing : list ObjectStoreObject :=
  List.map (fun i => mkObj (part_key i) (5 * 2 ^ 40)) (List.seq 0 1639)
    ++ [mkObj "lake/tail" 1].

(** a job that fails on item 7 *)
Definition flaky (x : nat) : nat + exn :=
  if Nat.eqb x 7 then inr (RemoteError "boom") else inl (x * x)%nat.

Definition square (x : nat) : nat + exn := inl (x * x)%nat.

End Examples.

(** ** [src/skylark/utils/utils.py]: [ConcurrentCounter]

    The counter lives in a [multiprocessing.Value("i", 0)], a C [int]: what
    is stored is the new value reduced to 32 bits, two's complement (ctypes
    does no overflow checking). The minimum is applied before the maximum.
    Every [increment] runs under the lock of the value, so concurrent
    increments take effect one after the other, in some order. *)

Module Counter.

Definition wrap32 (z : Z) : Z := (z + 2 ^ 31) mod 2 ^ 32 - 2 ^ 31.

Definition int32 (z : Z) : Prop := - 2 ^ 31 <= z < 2 ^ 31.

Record t : Type := mk {
  val : Z;
  min_value : option Z;
  max_value : option Z
}.

(** [ConcurrentCounter(min_value, max_value)] *)
Definition init (min_value max_value : option Z) : t := mk 0 min_value max_value.

(** [self.increment(n)]; it returns [self] *)
Definition increment (c : t) (n : Z) : t :=
  let new_val := val c + n in
  let new_val := match min_value c with
                 | Some m => Z.max new_val m
                 | None => new_val
                 end in
  let new_val := match max_value c with
                 | Some M => Z.min new_val M
                 | None => new_val
                 end in
  mk (wrap32 new_val) (min_value c) (max_value c).

(** [self.value] *)
Definition value (c : t) : Z := val c.

(** a run of increments, in the order in which they take the lock *)
Definition increments (c : t) (ns : list Z) : t := fold_left increment ns c.

End Counter.

(** ** [src/skylark/utils/utils.py]: [wait_for]

    The loop reads the clock once before it starts and once at every test
    of the loop condition. [clock k] is the [k]-th reading of [time.time()]
    (readings are kept as the rationals they denote), and [fn k] is what
    the [k]-th call of [fn] answers. How much time [fn] and [time.sleep]
    take shows in the readings only; [fn] is taken to answer, and
    [interval] not to be negative ([time.sleep] raises on a negative
    length). The call returns [True] or raises [Exception("Timeout")]; the
    model counts the calls of [fn] it made and stops for lack of fuel when
    the loop goes on for longer than that. *)

Module WaitFor.

Inductive outcome : Type :=
| ReturnedTrue
| RaisedTimeout
| StillWaiting.

Fixpoint loop (fn : nat -> bool) (timeout : Q) (clock : nat -> Q)
         (fuel : nat) (k : nat) : nat * outcome :=
  match fuel with
  | O => (k, StillWaiting)
  | S fuel' =>
      if Qlt_le_dec (clock (S k) - clock O) timeout then
        if fn k then (S k, ReturnedTrue)
        else loop fn timeout clock fuel' (S k)
      else (k, RaisedTimeout)
  end.



End WaitFor.

(** ** Reading the trace of a pool *)

Module PoolTrace.

(** the items of a pool trace that went through a given stage, in order *)
Definition started (tr : list Utils.pevent) : list nat :=
  flat_map (fun e => match e with Utils.Started i => [i] | _ => [] end) tr.
Definition submitted (tr : list Utils.pevent) : list nat :=
  flat_map (fun e => match e with Utils.Submitted i => [i] | _ => [] end) tr.
Definition finished (tr : list Utils.pevent) : list nat :=
  flat_map (fun e => match e with Utils.Finished i => [i] | _ => [] end) tr.
Definition observed (tr : list Utils.pevent) : list nat :=
  flat_map (fun e => match e with Utils.Observed i => [i] | _ => [] end) tr.
Definition yielded (tr : list Utils.pevent) : list nat :=
  flat_map (fun e => match e with Utils.Yielded i => [i] | _ => [] end) tr.

(** the pairs of the items on which [func] returns, in input order *)
Definition returned {A R} (func : A -> R + exn) (args_list : list A) : list (A * R) :=
  flat_map (fun x => match func x with inl r => [(x, r)] | inr _ => [] end) args_list.

(** [max_workers] as [do_parallel] resolves it *)
Definition width (n : Z) (items : nat) : nat :=
  Z.to_nat (if n =? -1 then Z.of_nat items else n).

Section Invariants.

Import Utils.
Context {A R : Type}.
Variable func : A -> R + exn.
Variable m : nat.
Variable args_list : list A.

(** Work items are started in the order of the queue, which is the order
    of submission, which is the order of the input. *)
Definition in_order (s : pool (A:=A) (R:=R)) : Prop :=
  started (ptrace s) ++ List.map fst (queue s) ++ List.map fst (to_submit s)
    = List.seq 0 (length args_list)
  /\ submitted (ptrace s) ++ List.map fst (to_submit s)
    = List.seq 0 (length args_list).

(** At most [m] invocations run at any moment of the trace. *)
Definition in_flight (s : pool (A:=A) (R:=R)) : Prop :=
  (length (running s) <= m)%nat
  /\ length (started (ptrace s))
     = (length (finished (ptrace s)) + length (running s))%nat
  /\ forall k, (length (started (firstn k (ptrace s)))
                <= length (finished (firstn k (ptrace s))) + m)%nat.

(** the pair a list of results is made of, for the item at an index *)
Definition result_at (i : nat) : list (A * R) :=
  match nth_error args_list i with
  | Some x => match func x with inl r => [(x, r)] | inr _ => [] end
  | None => []
  end.

(** Every work item is an item of the input at its index; a failure on
    record is the failure of the one future whose [result()] raised; and
    [results] follows the order in which futures were picked up. *)
Definition blamed (s : pool (A:=A) (R:=R)) : Prop :=
  (forall x, In x (to_submit s ++ queue s ++ running s) ->
             nth_error args_list (fst x) = Some (snd x))
  /\ (forall d, In d (done_ s) ->
                nth_error args_list (fst (fst d)) = Some (snd (fst d))
                /\ snd d = func (snd (fst d)))
  /\ results s = flat_map result_at (yielded (ptrace s))
  /\ match failure s with
     | None => observed (ptrace s) = []
     | Some e =>
         exists i x, observed (ptrace s) = [i]
                     /\ nth_error args_list i = Some x /\ func x = inr e
     end.

(** what a move adds to the trace *)
Definition added (a : action) (s : pool (A:=A) (R:=R)) : list pevent :=
  match a with
  | ASubmit => match to_submit s with x :: _ => [Submitted (fst x)] | [] => [] end
  | AStart => match queue s with x :: _ => [Started (fst x)] | [] => [] end
  | AFinish k =>
      match CliHelper.extract k (running s) with
      | Some (x, _) => [Finished (fst x)]
      | None => []
      end
  | ACollect k =>
      match CliHelper.extract k (done_ s) with
      | Some ((i, _, inl _), _) => [Yielded i]
      | Some ((i, _, inr _), _) => [Observed i]
      | None => []
      end
  | AExit => []
  end.

(** Every index is in exactly one place: with a work item, with a finished
    future, or among the futures the main thread has picked up. *)
Definition each_once (s : pool (A:=A) (R:=R)) : Prop :=
  Permutation
    (List.map fst (to_submit s) ++ List.map fst (queue s) ++ List.map fst (running s)
       ++ List.map (fun d => fst (fst d)) (done_ s)
       ++ yielded (ptrace s) ++ observed (ptrace s))
    (List.seq 0 (length args_list)).

Definition scheduled (s : pool (A:=A) (R:=R)) : Prop :=
  in_order s /\ in_flight s /\ blamed s /\ each_once s.

End Invariants.

End PoolTrace.

(** ** [src/skylark/cli/cli_helper.py]: [deprovision_skylark_instances]

    The cloud providers are not part of the sources at hand; what the
    function needs of them is taken as a parameter: the regions of AWS,
    what the listing of each provider returns or raises, and what
    [terminate_instance] does on an instance. The two calls of
    [do_parallel] run on the pool of [Utils], each under its own schedule,
    with the default width. *)

Module Deprovision.

Record providers (I : Type) : Type := mkProviders {
  region_list : list string;
  aws_matching : string -> list I + exn;
  azure_matching : string -> list I + exn;
  gcp_matching : string -> list I + exn;
  terminate_instance : I -> unit + exn
}.
Arguments mkProviders {I}.
Arguments region_list {I}.
Arguments aws_matching {I}.
Arguments azure_matching {I}.
Arguments gcp_matching {I}.
Arguments terminate_instance {I}.

Inductive message : Type :=
| NoAzureSubscription
| NoGcpProject
| DeprovisioningInstances (count : nat)
| NoInstances.

Inductive event (I : Type) : Type :=
| Listing (pool : list Utils.pevent)                    (* the first [do_parallel] *)
| Secho (msg : message)                                 (* [typer.secho] *)
| Terminating (instances : list I) (pool : list Utils.pevent).  (* the second one *)
Arguments Listing {I}.
Arguments Secho {I}.
Arguments Terminating {I}.

(** [not x] for an optional string is false for a non-empty string only *)
Definition given (x : option string) : option string :=
  match x with
  | Some (String c s) => Some (String c s)
  | _ => None
  end.

(** one of the two optional providers: asked only when its id is given *)
Definition optional_provider {I} (id : option string)
           (matching : string -> list I + exn) (warning : message)
  : list (event I) * (list I + exn) :=
  match given id with
  | Some x => ([], matching x)
  | None => ([Secho warning], inl [])
  end.

Definition deprovision_skylark_instances {I} (p : providers I)
           (azure_subscription gcp_project_id : option string)
           (sched_list sched_terminate : list nat) : list (event I) * res unit :=
  let listed := Utils.do_parallel (aws_matching p) (region_list p) (-1) sched_list in
  match snd listed with
  | Raise e => ([Listing (fst listed)], Raise e)
  | OutOfFuel => ([Listing (fst listed)], OutOfFuel)
  | Val rs =>
      let instances := flat_map snd rs in
      let log := [Listing (fst listed)] in
      let azure := optional_provider azure_subscription (azure_matching p)
                                     NoAzureSubscription in
      match snd azure with
      | inr e => (log ++ fst azure, Raise e)
      | inl found =>
          let instances := instances ++ found in
          let log := log ++ fst azure in
          let gcp := optional_provider gcp_project_id (gcp_matching p) NoGcpProject in
          match snd gcp with
          | inr e => (log ++ fst gcp, Raise e)
          | inl found =>
              let instances := instances ++ found in
              let log := log ++ fst gcp in
              match instances with
              | [] => (log ++ [Secho NoInstances], Val tt)
              | _ =>
                  let done := Utils.do_parallel (terminate_instance p) instances (-1)
                                                sched_terminate in
                  (log ++ [Secho (DeprovisioningInstances (length instances));
                           Terminating instances (fst done)],
                   match snd done with
                   | Val _ => Val tt
                   | Raise e => Raise e
                   | OutOfFuel => OutOfFuel
                   end)
              end
          end
      end
  end.

(** the instances on which a worker of the pool started
    [terminate_instance], in the order of the starts *)
Definition attempted {I} (instances : list I) (pool : list Utils.pevent) : list I :=
  flat_map (fun i => match nth_error instances i with Some x => [x] | None => [] end)
           (PoolTrace.started pool).

Fixpoint terminated {I} (log : list (event I)) : list I :=
  match log with
  | [] => []
  | Terminating instances pool :: rest => attempted instances pool ++ terminated rest
  | _ :: rest => terminated rest
  end.

(** what a provider found, nothing when it raised *)
Definition found {I} (r : list I + exn) : list I :=
  match r with inl l => l | inr _ => [] end.

(** everything there is to terminate: the instances of every region, then
    those of the optional providers that are asked *)
Definition all_instances {I} (p : providers I)
           (azure_subscription gcp_project_id : option string) : list I :=
  flat_map (fun region => found (aws_matching p region)) (region_list p)
    ++ match given azure_subscription with
       | Some x => found (azure_matching p x)
       | None => []
       end
    ++ match given gcp_project_id with
       | Some x => found (gcp_matching p x)
       | None => []
       end.

End Deprovision.

(** Two regions with two gateways each, one gateway on Azure, no access to
    GCP; one of the gateways cannot be terminated. *)
Module Clouds.

Definition clouds : Deprovision.providers string :=
  Deprovision.mkProviders
    ["us-east-1"; "eu-west-1"]
    (fun region => inl [String.append region "/gw0"; String.append region "/gw1"])
    (fun subscription => inl [String.append subscription "/gw"])
    (fun project => inr (RemoteError "no credentials"))
    (fun instance => if String.eqb instance "eu-west-1/gw0"
                     then inr (RemoteError "busy") else inl tt).

End Clouds.


Module CopyTrace.

Import CliHelper.

(** is there a directory at the key that was looked up *)
Definition is_dir_node (o : option FS.node) : bool :=
  match o with Some (FS.Dir _) => true | _ => false end.

(** the number of regular files under a node *)
Fixpoint file_count (n : FS.node) : nat :=
  match n with
  | FS.File _ => 1%nat
  | FS.Dir es =>
      (fix count (es : list (string * FS.node)) : nat :=
         match es with
         | [] => O
         | (_, child) :: rest => (file_count child + count rest)%nat
         end) es
  end.

Definition uploads (tr : list event) : list (Path * string) :=
  flat_map (fun e => match e with EvUpload p k => [(p, k)] | _ => [] end) tr.
Definition downloads (tr : list event) : list (string * Path) :=
  flat_map (fun e => match e with EvDownload k p => [(k, p)] | _ => [] end) tr.
Definition progress (tr : list event) : list Z :=
  flat_map (fun e => match e with EvProgress n => [n] | _ => [] end) tr.
Definition awaited (tr : list event) : list nat :=
  flat_map (fun e => match e with EvResult i => [i] | _ => [] end) tr.

Definition sum (l : list Z) : Z := fold_right Z.add 0 l.

(** what the waiting loop does on the futures in the order in which they
    complete: the events it adds, and how it ends (the first future that
    holds an error ends it) *)
Fixpoint waited (completed : list op) : list event * res unit :=
  match completed with
  | [] => ([], Val tt)
  | o :: rest =>
      match op_error o with
      | Some e => ([EvResult (op_index o)], Raise e)
      | None =>
          (EvResult (op_index o) :: EvProgress (op_bytes o) :: fst (waited rest),
           snd (waited rest))
      end
  end.

(** what one walk of [_copy] hands over: one upload per regular file, and
    for each of them, in the same order, a future with the next index, the
    size of the file and the error of that upload *)
Definition hands_over (s3 : S3Interface) (n : FS.node) : Prop :=
  forall path dst_key ops w,
  exists ups t ops',
    _copy s3 n path dst_key ops w
      = (mkWorld (w_fs w) (w_trace w ++ ups), Val (t, ops ++ ops'))
    /\ only is_upload ups
    /\ length ups = file_count n
    /\ List.map op_index ops' = List.seq (length ops) (file_count n)
    /\ sum (List.map op_bytes ops') = tree_bytes n
    /\ List.map op_error ops'
       = List.map (fun u => upload_error s3 (fst u) (snd u)) (uploads ups).

(** the download that [copy_s3_local] asks for an object *)
Definition download_of (src_key : string) (dst : Path) (o : ObjectStoreObject)
  : string * Path :=
  (key o, dest_path src_key dst o).

(** every [download_object] comes right after the [mkdir] of the parent of
    its destination *)
Inductive prepared : list event -> Prop :=
| prepared_nil : prepared []
| prepared_download k dst rest :
    prepared rest ->
    prepared (EvMkdir (Pathlib.parent dst) true :: EvDownload k dst :: rest)
| prepared_other e rest :
    (forall k dst, e <> EvDownload k dst) ->
    prepared rest ->
    prepared (e :: rest).

End CopyTrace.

(** * Proofs *)

(** ** [parse_path] *)

Section ParsePath.

Import CliHelper.

Lemma split_once_no_sep (s : string) :
  PyStr.contains "/" s = false -> PyStr.split_once "/" s = [s].
Proof.
  induction s as [|c s IH]; [reflexivity|].
  cbn [PyStr.contains PyStr.startswith PyStr.split_once].
  rewrite (Ascii.eqb_sym c "/").
  destruct (Ascii.eqb "/" c) eqn:E.
  - discriminate.
  - intros H. now rewrite (IH H).
Qed.

Lemma http_not_bucket (path : string) :
  PyStr.startswith "https://" path || PyStr.startswith "http://" path = true ->
  PyStr.startswith "s3://" path = false /\ PyStr.startswith "gs://" path = false.
Proof.
  destruct path as [|c path]; [discriminate|].
  cbn [PyStr.startswith].
  destruct (Ascii.eqb "h" c) eqn:E; [|discriminate].
  apply Ascii.eqb_eq in E. subst c. auto.
Qed.

Lemma star_continues c s caps k res :
  Re.star c s caps k = Some res -> exists s', k s' caps = Some res.
Proof.
  induction s as [|a s IH]; simpl; [eauto|].
  destruct (Re.cls_matches c a); [|eauto].
  destruct (Re.star c s caps k) eqn:E; [|eauto].
  intros [= <-]. now apply IH.
Qed.

(** a successful run hands its continuation one capture per group *)
Lemma run_continues r :
  Re.no_optional_group r = true ->
  forall s caps k res,
    Re.run r s caps k = Some res ->
    exists s' caps',
      k s' caps' = Some res /\ length caps' = (length caps + Re.ngroups r)%nat.
Proof.
  induction r as [|c|r IH|c|c|r1 IH1 r2 IH2|r IH]; intros Hwf s caps k res; simpl in *.
  - intros H. exists s, caps. split; [exact H | lia].
  - destruct s as [|a s]; [discriminate|].
    destruct (Re.cls_matches c a); [|discriminate].
    intros H. exists s, caps. split; [exact H | lia].
  - apply andb_prop in Hwf as [Hz Hwf]. apply Nat.eqb_eq in Hz.
    destruct (Re.run r s caps k) eqn:E.
    + intros [= <-]. rewrite Hz in *. now apply (IH Hwf s caps k).
    + intros H. exists s, caps. split; [exact H | lia].
  - intros H. destruct (star_continues _ _ _ _ _ H) as (s' & Hs).
    exists s', caps. split; [exact Hs | lia].
  - destruct s as [|a s]; [discriminate|].
    destruct (Re.cls_matches c a); [|discriminate].
    intros H. destruct (star_continues _ _ _ _ _ H) as (s' & Hs).
    exists s', caps. split; [exact Hs | lia].
  - apply andb_prop in Hwf as [Hwf1 Hwf2]. intros H.
    destruct (IH1 Hwf1 _ _ _ _ H) as (s1 & caps1 & H1 & L1).
    destruct (IH2 Hwf2 _ _ _ _ H1) as (s2 & caps2 & H2 & L2).
    exists s2, caps2. split; [exact H2 | lia].
  - intros H. destruct (IH Hwf _ _ _ _ H) as (s1 & caps1 & H1 & L1).
    exists s1, (caps1 ++ [Re.consumed s s1]). split; [exact H1|].
    rewrite length_app. simpl. lia.
Qed.

(** the pattern of [parse_path] has three groups, so the unpacking of
    [match.groups()] into three names cannot fail *)
Lemma azure_groups (path : string) (l : list string) :
  Re.match_groups azure_regex path = Some l ->
  exists account container blob_path, l = [account; container; blob_path].
Proof.
  unfold Re.match_groups. intros H.
  destruct (run_continues azure_regex eq_refl _ _ _ _ H) as (s' & caps' & [= <-] & L).
  destruct caps' as [|a [|b [|c [|d caps']]]]; try discriminate. eauto.
Qed.

Lemma parse_path_azure (fs : FS.t) (path : string) :
  (PyStr.startswith "https://" path || PyStr.startswith "http://" path) = true ->
  PyStr.contains "blob.core.windows.net" path = true ->
  parse_path fs path = Raise (ValueError (String.append "Invalid Azure path: " path))
  \/ exists account container blob_path,
       Re.match_groups azure_regex path = Some [account; container; blob_path]
       /\ parse_path fs path
          = Val (PTuple [PStr "azure"; PStr account; PStr container; PStr blob_path]).
Proof.
  intros Hhttp Hblob. unfold parse_path.
  destruct (http_not_bucket path Hhttp) as [-> ->]. rewrite Hhttp, Hblob. cbn [andb].
  destruct (Re.match_groups azure_regex path) as [l|] eqn:E; [|now left].
  destruct (azure_groups path l E) as (a & c & b & ->). right. eauto.
Qed.

Lemma parse_path_local (fs : FS.t) (path : string) :
  remote_prefixed path = false ->
  parse_path fs path =
    if is_plausible_local_path fs path
    then Val (PTuple [PStr "local"; PNone; PStr path])
    else Val (PStr path).
Proof.
  unfold remote_prefixed, parse_path. intros H.
  apply orb_false_elim in H as [H Hazure].
  apply orb_false_elim in H as [Hs3 Hgs].
  now rewrite Hs3, Hgs, Hazure.
Qed.

End ParsePath.

(** C6: the three documented examples: a bucket path, a blob-service URL,
    and a relative path that is plausible on the file system at hand. *)
Theorem parse_path_examples (fs : FS.t)
        (Hdata : CliHelper.is_plausible_local_path fs "./data" = true) :
  CliHelper.parse_path fs "s3://bucket/prefix/key"
    = Val (PTuple [PStr "s3"; PStr "bucket"; PStr "prefix/key"])
  /\ CliHelper.parse_path fs "https://acct.blob.core.windows.net/container/blob"
    = Val (PTuple [PStr "azure"; PStr "acct"; PStr "container"; PStr "blob"])
  /\ CliHelper.parse_path fs "./data"
    = Val (PTuple [PStr "local"; PNone; PStr "./data"]).
Proof.
  split; [reflexivity|]. split; [reflexivity|].
  rewrite parse_path_local by reflexivity. now rewrite Hdata.
Qed.

Lemma parse_path_examples_witness :
  CliHelper.parse_path Examples.home_fs "s3://bucket/prefix/key"
    = Val (PTuple [PStr "s3"; PStr "bucket"; PStr "prefix/key"])
  /\ CliHelper.parse_path Examples.home_fs "https://acct.blob.core.windows.net/container/blob"
    = Val (PTuple [PStr "azure"; PStr "acct"; PStr "container"; PStr "blob"])
  /\ CliHelper.parse_path Examples.home_fs "./data"
    = Val (PTuple [PStr "local"; PNone; PStr "./data"]).
Proof. apply (parse_path_examples Examples.home_fs). reflexivity. Defined.

Example parse_path_gs :
  CliHelper.parse_path Examples.home_fs "gs://bucket/a/b"
  = Val (PTuple [PStr "gs"; PStr "bucket"; PStr "a/b"]).
Proof. reflexivity. Qed.

Example parse_path_http_blob :
  CliHelper.parse_path Examples.home_fs "http://acct.blob.core.windows.net/c/dir/blob.bin"
  = Val (PTuple [PStr "azure"; PStr "acct"; PStr "c"; PStr "dir/blob.bin"]).
Proof. reflexivity. Qed.

Example parse_path_other_url_is_not_remote :
  CliHelper.parse_path Examples.home_fs "https://example.com/x"
  = Val (PStr "https://example.com/x").
Proof. reflexivity. Qed.

(** C7, as stated, fails: a path without a remote prefix that is not a
    plausible local path comes back as the bare string, not as the local
    triple. *)
Lemma parse_path_implausible_not_local :
  CliHelper.remote_prefixed "missing/dir/file" = false
  /\ CliHelper.is_plausible_local_path Examples.home_fs "missing/dir/file" = false
  /\ CliHelper.parse_path Examples.home_fs "missing/dir/file" = Val (PStr "missing/dir/file")
  /\ CliHelper.parse_path Examples.home_fs "missing/dir/file"
     <> Val (PTuple [PStr "local"; PNone; PStr "missing/dir/file"]).
Proof. repeat split; try reflexivity. discriminate. Qed.

(** C7 (as the code has it): a path without a remote prefix yields the
    local triple when it is a plausible local path, and otherwise the path
    string itself, unwrapped. *)
Theorem parse_path_without_remote_prefix (fs : FS.t) (path : string)
        (Hlocal : CliHelper.remote_prefixed path = false) :
  CliHelper.parse_path fs path =
    if CliHelper.is_plausible_local_path fs path
    then Val (PTuple [PStr "local"; PNone; PStr path])
    else Val (PStr path).
Proof. now apply parse_path_local. Qed.

Lemma parse_path_without_remote_prefix_witness :
  CliHelper.parse_path Examples.home_fs "data/new" =
    Val (PTuple [PStr "local"; PNone; PStr "data/new"]).
Proof.
  exact (parse_path_without_remote_prefix Examples.home_fs "data/new" eq_refl).
Defined.

(** C8: a bucket path without a slash after the bucket, and a blob-service
    URL that the pattern does not match, make [parse_path] raise
    [ValueError] (the exception the source uses for an invalid path). *)
Theorem parse_path_malformed_raises (fs : FS.t) (path : string)
        (Hbad :
           ((PyStr.startswith "s3://" path = true \/ PyStr.startswith "gs://" path = true)
            /\ PyStr.contains "/" (PyStr.slice_from 5 path) = false)
           \/ ((PyStr.startswith "https://" path || PyStr.startswith "http://" path) = true
               /\ PyStr.contains "blob.core.windows.net" path = true
               /\ Re.match_groups CliHelper.azure_regex path = None)) :
  exists msg, CliHelper.parse_path fs path = Raise (ValueError msg).
Proof.
  unfold CliHelper.parse_path.
  destruct Hbad as [[Hscheme Hsep] | (Hhttp & Hblob & Hre)].
  - rewrite (split_once_no_sep _ Hsep). cbn [CliHelper.unpack2].
    destruct (PyStr.startswith "s3://" path) eqn:Es3; [eauto|].
    destruct Hscheme as [?| ->]; [discriminate | eauto].
  - destruct (http_not_bucket path Hhttp) as [-> ->].
    rewrite Hhttp, Hblob, Hre. cbn [andb]. eauto.
Qed.

Example parse_path_blob_without_container :
  CliHelper.parse_path Examples.home_fs "https://acct.blob.core.windows.net/container"
  = Raise (ValueError "Invalid Azure path: https://acct.blob.core.windows.net/container").
Proof. reflexivity. Qed.

Example parse_path_gs_without_key :
  exists msg, CliHelper.parse_path Examples.home_fs "gs://bucket" = Raise (ValueError msg).
Proof. eexists. reflexivity. Qed.

Lemma parse_path_malformed_raises_witness :
  exists msg, CliHelper.parse_path Examples.home_fs "s3://bucket" = Raise (ValueError msg).
Proof.
  apply (parse_path_malformed_raises Examples.home_fs "s3://bucket").
  left. split; [left|]; reflexivity.
Defined.

(** ** The copy functions *)

Section Effects.

Import CliHelper.

Variable P : list event -> Prop.
Hypothesis P_nil : P [].
Hypothesis P_app : forall a b, P a -> P b -> P (a ++ b).

Lemma emits_ret {A} (a : A) : emits P (ret a).
Proof using P_nil. intros w. exists []. simpl. now rewrite app_nil_r. Qed.

Lemma emits_raise {A} (e : exn) : emits P (raise (A:=A) e).
Proof using P_nil. intros w. exists []. simpl. now rewrite app_nil_r. Qed.

Lemma emits_emit (e : event) : P [e] -> emits P (emit e).
Proof. intros He w. exists [e]. simpl. auto. Qed.

Lemma emits_lift_fs op : emits P (lift_fs op).
Proof using P_nil.
  intros w. exists []. unfold lift_fs. destruct (op (w_fs w)). simpl.
  now rewrite app_nil_r.
Qed.

Lemma emits_bind {A B} (c : M A) (k : A -> M B) :
  emits P c -> (forall a, emits P (k a)) -> emits P (bind c k).
Proof using P_app.
  intros Hc Hk w. unfold bind. destruct (Hc w) as (e1 & E1 & H1).
  destruct (c w) as [w1 [a| |]]; simpl in *.
  - destruct (Hk a w1) as (e2 & E2 & H2). exists (e1 ++ e2).
    rewrite E2, E1, app_assoc. auto.
  - eauto.
  - eauto.
Qed.

Lemma emits_for_each {A} (l : list A) (body : A -> M unit) :
  (forall x, emits P (body x)) -> emits P (for_each l body).
Proof using P_nil P_app.
  intros Hb. induction l as [|x l IH]; simpl.
  - apply emits_ret.
  - apply emits_bind; auto.
Qed.

End Effects.

Section CopyLocalLocal.

Import CliHelper.

Lemma guarded_app a b : guarded a -> guarded b -> guarded (a ++ b).
Proof.
  induction 1; intros Hb; simpl; auto.
  - constructor; auto.
  - constructor; auto.
Qed.

Lemma guarded_predecessor evs :
  guarded evs ->
  forall i src dst, nth_error evs i = Some (EvCopyfile src dst) ->
    exists j, i = S j /\ nth_error evs j = Some (EvMkdir (Pathlib.parent dst) true).
Proof.
  induction 1 as [|s d rest Hg IH|e rest Hne Hg IH]; intros i src dst Hi.
  - destruct i; discriminate.
  - destruct i as [|[|i]]; simpl in Hi.
    + discriminate.
    + injection Hi as <- <-. exists 0%nat. auto.
    + destruct (IH _ _ _ Hi) as (j & -> & Hj). exists (S (S j)). auto.
  - destruct i as [|i]; simpl in Hi.
    + injection Hi as ->. now contradiction (Hne src dst).
    + destruct (IH _ _ _ Hi) as (j & -> & Hj). exists (S j). auto.
Qed.

Lemma emits_mkdir parents exist_ok p :
  emits guarded (mkdir parents exist_ok p).
Proof.
  apply emits_bind; [apply guarded_app | |].
  - apply emits_emit. constructor; [discriminate | constructor].
  - intros _. apply emits_lift_fs. constructor.
Qed.

Lemma mkdir_run parents exist_ok p w :
  mkdir parents exist_ok p w =
    (mkWorld (fst (FS.mkdir parents exist_ok (w_fs w) p)) (w_trace w ++ [EvMkdir p parents]),
     snd (FS.mkdir parents exist_ok (w_fs w) p)).
Proof.
  unfold mkdir, bind, emit, lift_fs. simpl. now destruct (FS.mkdir _ _ _ _).
Qed.

Lemma copyfile_run src dst w :
  copyfile src dst w =
    (mkWorld (fst (FS.copyfile (w_fs w) src dst)) (w_trace w ++ [EvCopyfile src dst]),
     snd (FS.copyfile (w_fs w) src dst)).
Proof.
  unfold copyfile, bind, emit, lift_fs. simpl. now destruct (FS.copyfile _ _ _).
Qed.

(** the file branch: [mkdir] of the parent, then [copyfile], nothing else *)
Lemma emits_copy_file src dst :
  emits guarded (bind (mkdir true true (Pathlib.parent dst)) (fun _ => copyfile src dst)).
Proof.
  intros w. unfold bind. rewrite mkdir_run.
  destruct (snd (FS.mkdir true true (w_fs w) (Pathlib.parent dst))) as [[]| |]; simpl.
  - rewrite copyfile_run. simpl. exists [EvMkdir (Pathlib.parent dst) true; EvCopyfile src dst].
    rewrite <- app_assoc. split; [reflexivity|]. repeat constructor.
  - exists [EvMkdir (Pathlib.parent dst) true]. split; [reflexivity|].
    constructor; [discriminate | constructor].
  - exists [EvMkdir (Pathlib.parent dst) true]. split; [reflexivity|].
    constructor; [discriminate | constructor].
Qed.

Lemma emits_copy_local_local fuel :
  forall src dst, emits guarded (copy_local_local fuel src dst).
Proof.
  induction fuel as [|fuel IH]; intros src dst w.
  - exists []. simpl. rewrite app_nil_r. split; [reflexivity | constructor].
  - simpl.
    destruct (negb (FS.exists_ (w_fs w) src));
      [exists []; simpl; rewrite app_nil_r; split; [reflexivity | constructor]|].
    destruct (negb (FS.exists_ (w_fs w) (Pathlib.parent dst)));
      [exists []; simpl; rewrite app_nil_r; split; [reflexivity | constructor]|].
    destruct (FS.is_dir (w_fs w) src).
    + apply emits_bind; [apply guarded_app | apply emits_mkdir |].
      intros _. apply emits_bind; [apply guarded_app | |].
      * intros w'. exists []. unfold iterdir. simpl. rewrite app_nil_r.
        split; [reflexivity | constructor].
      * intros children. apply emits_for_each;
          [constructor | apply guarded_app | intros child; apply IH].
    + apply emits_copy_file.
Qed.

(** an existing path: [mkdir(exist_ok=True)] changes nothing, and it
    succeeds exactly when the path is a directory *)
Lemma mkdir_existing parents fs p :
  FS.exists_ fs p = true ->
  FS.mkdir parents true fs p =
    (fs, if FS.is_dir fs p then Val tt else Raise (FileExistsError p)).
Proof.
  intros He. unfold FS.mkdir.
  assert (Hp : Pathlib.mkPath (Pathlib.root p) (rev (rev (Pathlib.parts p))) = p)
    by (rewrite rev_involutive; now destruct p).
  assert (Hos : FS.os_mkdir fs p = (fs, Raise (FileExistsError p))).
  { unfold FS.exists_, FS.stat in He. unfold FS.os_mkdir.
    destruct (FS.resolve fs p) as [k|e]; [|discriminate].
    destruct (FS.lookup (FS.tree fs) k); [reflexivity | discriminate]. }
  destruct (rev (Pathlib.parts p)) as [|x rps]; simpl in *; rewrite Hp, Hos; simpl;
    now destruct (FS.is_dir fs p).
Qed.

End CopyLocalLocal.

(** C10: when the parent of the destination does not exist the call raises
    a not-found error before it has made any other call: the world (file
    system and trace) is the one it started from. Whenever the call does
    copy a file, the [copyfile] comes right after the [mkdir] of the parent
    of its destination; and for a source file whose destination's parent
    exists, that [mkdir] leaves the file system as it is and [copyfile] runs
    only if the parent is a directory. *)
Theorem copy_local_local_checks_before_writing
        (fuel : nat) (src dst : Path) (w : CliHelper.world) :
  (FS.exists_ (CliHelper.w_fs w) (Pathlib.parent dst) = false ->
   CliHelper.copy_local_local (S fuel) src dst w =
     (w, Raise (FileNotFoundError
                  (if FS.exists_ (CliHelper.w_fs w) src then Pathlib.parent dst else src))))
  /\ (exists evs,
        CliHelper.w_trace (fst (CliHelper.copy_local_local fuel src dst w))
          = CliHelper.w_trace w ++ evs
        /\ forall i s d,
            nth_error evs i = Some (CliHelper.EvCopyfile s d) ->
            exists j, i = S j
                      /\ nth_error evs j = Some (CliHelper.EvMkdir (Pathlib.parent d) true))
  /\ (FS.exists_ (CliHelper.w_fs w) src = true ->
      FS.is_dir (CliHelper.w_fs w) src = false ->
      FS.exists_ (CliHelper.w_fs w) (Pathlib.parent dst) = true ->
      CliHelper.copy_local_local (S fuel) src dst w =
        if FS.is_dir (CliHelper.w_fs w) (Pathlib.parent dst)
        then (CliHelper.mkWorld
                (fst (FS.copyfile (CliHelper.w_fs w) src dst))
                (CliHelper.w_trace w
                   ++ [CliHelper.EvMkdir (Pathlib.parent dst) true;
                       CliHelper.EvCopyfile src dst]),
              snd (FS.copyfile (CliHelper.w_fs w) src dst))
        else (CliHelper.mkWorld
                (CliHelper.w_fs w)
                (CliHelper.w_trace w ++ [CliHelper.EvMkdir (Pathlib.parent dst) true]),
              Raise (FileExistsError (Pathlib.parent dst)))).
Proof.
  split; [|split].
  - intros Hd. simpl. rewrite Hd. now destruct (FS.exists_ (CliHelper.w_fs w) src).
  - destruct (emits_copy_local_local fuel src dst w) as (evs & E & Hg).
    exists evs. split; [exact E|]. now apply guarded_predecessor.
  - intros Hs Hf Hd. simpl. rewrite Hs, Hd, Hf. simpl.
    unfold CliHelper.bind. rewrite mkdir_run, (mkdir_existing _ _ _ Hd). simpl.
    destruct (FS.is_dir (CliHelper.w_fs w) (Pathlib.parent dst)); simpl.
    + rewrite copyfile_run. simpl. now rewrite <- app_assoc.
    + reflexivity.
Qed.

Lemma copy_local_local_checks_before_writing_witness :
  CliHelper.copy_local_local 3 (Pathlib.of_string "data") (Pathlib.of_string "nope/out")
                             Examples.home
  = (Examples.home, Raise (FileNotFoundError (Pathlib.of_string "nope")))
  /\ CliHelper.w_trace
       (fst (CliHelper.copy_local_local 1 (Pathlib.of_string "data/a")
                                        (Pathlib.of_string "copy-of-a") Examples.home))
     = [CliHelper.EvMkdir (Pathlib.of_string ".") true;
        CliHelper.EvCopyfile (Pathlib.of_string "data/a") (Pathlib.of_string "copy-of-a")].
Proof.
  split.
  - exact (proj1 (copy_local_local_checks_before_writing
                    2 (Pathlib.of_string "data") (Pathlib.of_string "nope/out") Examples.home)
                 eq_refl).
  - rewrite (proj2 (proj2 (copy_local_local_checks_before_writing
                             0 (Pathlib.of_string "data/a") (Pathlib.of_string "copy-of-a")
                             Examples.home))
                   eq_refl eq_refl eq_refl).
    reflexivity.
Defined.

Example copy_local_local_tree :
  CliHelper.w_trace
    (fst (CliHelper.copy_local_local 3 (Pathlib.of_string "data") (Pathlib.of_string "out")
                                     Examples.home))
  = [CliHelper.EvMkdir (Pathlib.of_string "out") false;
     CliHelper.EvMkdir (Pathlib.of_string "out") true;
     CliHelper.EvCopyfile (Pathlib.of_string "data/a") (Pathlib.of_string "out/a");
     CliHelper.EvMkdir (Pathlib.of_string "out/b") false;
     CliHelper.EvMkdir (Pathlib.of_string "out/b") true;
     CliHelper.EvCopyfile (Pathlib.of_string "data/b/c") (Pathlib.of_string "out/b/c")]
  /\ snd (CliHelper.copy_local_local 3 (Pathlib.of_string "data") (Pathlib.of_string "out")
                                     Examples.home) = Val tt
  /\ FS.stat (CliHelper.w_fs
                (fst (CliHelper.copy_local_local 3 (Pathlib.of_string "data")
                                                 (Pathlib.of_string "out") Examples.home)))
             (Pathlib.of_string "out/b/c")
     = inl (FS.File "01234567890123456789").
Proof. repeat split. Qed.

Example copy_local_local_into_itself :
  snd (CliHelper.copy_local_local 20 (Pathlib.of_string "data") (Pathlib.of_string "data/b/z")
                                  Examples.home) = OutOfFuel.
Proof. vm_compute. reflexivity. Qed.

Section Transfers.

Import CliHelper.

Lemma only_nil p : only p [].
Proof. constructor. Qed.

Lemma only_app p a b : only p a -> only p b -> only p (a ++ b).
Proof. intros Ha Hb. apply List.Forall_app. auto. Qed.

(** the waiting loop only waits *)
Lemma emits_wait_all sched ops : emits (only is_wait) (wait_all sched ops).
Proof.
  unfold wait_all. apply emits_for_each; [apply only_nil | apply only_app |].
  intros o. apply emits_bind; [apply only_app | |].
  - apply emits_emit. now repeat constructor.
  - intros _. destruct (op_error o).
    + apply emits_raise, only_nil.
    + apply emits_emit. now repeat constructor.
Qed.

(** *** Float totals *)

Lemma round53_exact (z : Z) : - 2 ^ 53 <= z <= 2 ^ 53 -> PyNum.round53 z = z.
Proof.
  intros Hz. unfold PyNum.round53.
  destruct (Z.abs z <? 2 ^ 53) eqn:E; [reflexivity|].
  apply Z.ltb_ge in E.
  assert (z = 2 ^ 53 \/ z = - 2 ^ 53) as [-> | ->] by lia; reflexivity.
Qed.

Lemma add_exact (a : Z) (y : PyNum.t) :
  0 <= a -> 0 <= PyNum.value y -> a + PyNum.value y <= 2 ^ 53 ->
  PyNum.add (PyNum.PyFloat a) y = PyNum.PyFloat (a + PyNum.value y).
Proof.
  intros Ha Hy Hs. destruct y as [b|b]; simpl in *.
  - rewrite (round53_exact b) by lia. now rewrite round53_exact by lia.
  - now rewrite round53_exact by lia.
Qed.

Example round53_above_2p53 :
  PyNum.round53 (2 ^ 53 + 1) = 2 ^ 53
  /\ PyNum.round53 (2 ^ 53 + 2) = 2 ^ 53 + 2
  /\ PyNum.round53 (2 ^ 53 + 3) = 2 ^ 53 + 4
  /\ PyNum.add (PyNum.PyFloat (2 ^ 53)) (PyNum.PyInt 1) = PyNum.PyFloat (2 ^ 53).
Proof. repeat split. Qed.

(** *** The walk of [copy_local_s3] *)

Lemma node_induction (Q : FS.node -> Prop) :
  (forall c, Q (FS.File c)) ->
  (forall es, List.Forall (fun e => Q (snd e)) es -> Q (FS.Dir es)) ->
  forall n, Q n.
Proof.
  intros HF HD. fix IH 1. intros [c|es]; [apply HF|].
  apply HD. induction es as [|[x n] es IHes]; constructor; [apply IH | apply IHes].
Qed.

Lemma tree_bytes_cons x n es :
  tree_bytes (FS.Dir ((x, n) :: es)) = tree_bytes n + tree_bytes (FS.Dir es).
Proof. reflexivity. Qed.

Lemma tree_bytes_nonneg n : 0 <= tree_bytes n.
Proof.
  induction n as [c|es IH] using node_induction; [simpl; lia|].
  induction es as [|[x n] es IHes]; [simpl; lia|].
  rewrite tree_bytes_cons. inversion IH; subst. simpl in *.
  specialize (IHes ltac:(assumption)). lia.
Qed.

Lemma add_float (acc : Z) (y : PyNum.t) :
  exists b, PyNum.add (PyNum.PyFloat acc) y = PyNum.PyFloat b.
Proof. destruct y; simpl; eauto. Qed.

Lemma walks_children s3 es :
  List.Forall (fun e => walks s3 (snd e)) es ->
  forall path dst_key acc ops w,
  exists ups t ops',
    _copy_children (_copy s3) path dst_key es (PyNum.PyFloat acc) ops w
      = (mkWorld (w_fs w) (w_trace w ++ ups), Val (t, ops ++ ops'))
    /\ only is_upload ups
    /\ (0 <= acc -> acc + tree_bytes (FS.Dir es) <= 2 ^ 53 ->
        t = PyNum.PyFloat (acc + tree_bytes (FS.Dir es))).
Proof.
  induction 1 as [|[x n] es Hn Hes IH]; intros path dst_key acc ops w.
  - exists [], (PyNum.PyFloat acc), []. simpl. rewrite !app_nil_r, Z.add_0_r.
    destruct w. repeat split; auto. apply only_nil.
  - simpl in Hn.
    destruct (Hn (Pathlib.mkPath (Pathlib.root path) (Pathlib.parts path ++ [x]))
                 (Pathlib.os_path_join dst_key x) ops w)
      as (ups1 & t1 & ops1 & E1 & Hu1 & Ht1).
    pose proof (tree_bytes_nonneg n) as Hnn.
    pose proof (tree_bytes_nonneg (FS.Dir es)) as Hne.
    cbn [_copy_children]. unfold bind at 1. rewrite E1. cbn [fst snd].
    destruct (add_float acc t1) as (b & Eb). rewrite Eb.
    destruct (IH path dst_key b (ops ++ ops1) (mkWorld (w_fs w) (w_trace w ++ ups1)))
      as (ups2 & t2 & ops2 & E2 & Hu2 & Ht2).
    exists (ups1 ++ ups2), t2, (ops1 ++ ops2). rewrite E2. cbn [w_fs w_trace].
    rewrite !app_assoc. repeat split; auto.
    + now apply only_app.
    + intros Hacc Hle. rewrite tree_bytes_cons in Hle |- *.
      rewrite add_exact in Eb by (rewrite ?Ht1; lia).
      injection Eb as <-. rewrite Ht1 in * by lia.
      rewrite Ht2 by lia. f_equal. lia.
Qed.

Lemma walks_all s3 n : walks s3 n.
Proof.
  induction n as [c|es IH] using node_induction; intros path dst_key ops w.
  - exists [EvUpload path dst_key], (PyNum.PyInt (Z.of_nat (String.length c))),
      [mkOp (length ops) (upload_error s3 path dst_key) (Z.of_nat (String.length c))].
    repeat split; auto. now repeat constructor.
  - destruct (walks_children s3 es IH path dst_key 0 ops w) as (ups & t & ops' & E & Hu & Ht).
    exists ups, t, ops'. cbn [_copy]. rewrite E. repeat split; auto.
    intros Hle. rewrite Ht by lia. reflexivity.
Qed.

(** *** The listing loop of [copy_s3_local] *)

Lemma os_mkdir_returns fs p : snd (FS.os_mkdir fs p) <> OutOfFuel.
Proof.
  unfold FS.os_mkdir. destruct (FS.resolve fs p) as [k|e]; [|discriminate].
  destruct (FS.lookup (FS.tree fs) k); [discriminate|].
  destruct (FS.put (FS.tree fs) k (FS.Dir [])); discriminate.
Qed.

Lemma mkdir_rec_returns root rps :
  forall parents exist_ok fs,
    snd (FS.mkdir_rec root rps parents exist_ok fs) <> OutOfFuel.
Proof.
  induction rps as [|x rps IH]; intros parents exist_ok fs; cbn [FS.mkdir_rec].
  - pose proof (os_mkdir_returns fs (Pathlib.mkPath root (rev []))) as H.
    destruct (FS.os_mkdir fs (Pathlib.mkPath root (rev []))) as [fs' [[]|e|]];
      [discriminate | | now contradiction H].
    destruct e; try discriminate;
      destruct (negb exist_ok || negb (FS.is_dir fs _)); discriminate.
  - pose proof (os_mkdir_returns fs (Pathlib.mkPath root (rev (x :: rps)))) as H.
    destruct (FS.os_mkdir fs (Pathlib.mkPath root (rev (x :: rps)))) as [fs' [[]|e|]];
      [discriminate | | now contradiction H].
    destruct e;
      try (destruct (negb exist_ok || negb (FS.is_dir fs _)); discriminate).
    destruct (negb parents); [discriminate|].
    specialize (IH true true fs).
    destruct (FS.mkdir_rec root rps true true fs) as [fs1 [[]|e1|]];
      [| discriminate | now contradiction IH].
    pose proof (os_mkdir_returns fs1 (Pathlib.mkPath root (rev (x :: rps)))) as H1.
    destruct (FS.os_mkdir fs1 (Pathlib.mkPath root (rev (x :: rps)))) as [fs2 [[]|e2|]];
      [discriminate | | now contradiction H1].
    destruct e2; try discriminate;
      destruct (negb exist_ok || negb (FS.is_dir fs1 _)); discriminate.
Qed.

Lemma mkdir_returns parents exist_ok fs p :
  snd (FS.mkdir parents exist_ok fs p) <> OutOfFuel.
Proof. apply mkdir_rec_returns. Qed.

(** one round of the listing loop *)
Lemma listing_loop_cons s3 src_key dst obj objs total ops w :
  copy_s3_local_loop s3 src_key dst (obj :: objs) total ops w =
    let dest := dest_path src_key dst obj in
    let made := FS.mkdir true true (w_fs w) (Pathlib.parent dest) in
    match snd made with
    | Val _ =>
        copy_s3_local_loop s3 src_key dst objs
          (PyNum.add total (PyNum.PyInt (size obj)))
          (ops ++ [mkOp (length ops) (download_error s3 (key obj) dest) (size obj)])
          (mkWorld (fst made)
                   (w_trace w ++ [EvMkdir (Pathlib.parent dest) true;
                                  EvDownload (key obj) dest]))
    | Raise e =>
        (mkWorld (fst made) (w_trace w ++ [EvMkdir (Pathlib.parent dest) true]), Raise e)
    | OutOfFuel =>
        (mkWorld (fst made) (w_trace w ++ [EvMkdir (Pathlib.parent dest) true]), OutOfFuel)
    end.
Proof.
  cbn [copy_s3_local_loop]. unfold bind at 1. rewrite mkdir_run. cbn zeta.
  destruct (snd (FS.mkdir true true (w_fs w) _)) as [[]| |]; try reflexivity.
  unfold bind, emit. cbn [w_fs w_trace]. now rewrite <- app_assoc.
Qed.

Lemma listing_bytes_nonneg objs :
  List.Forall (fun o => 0 <= size o) objs -> 0 <= listing_bytes objs.
Proof. induction 1; unfold listing_bytes in *; simpl; lia. Qed.

Lemma listing_loop s3 src_key dst objs :
  forall acc ops w,
  exists evs,
    w_trace (fst (copy_s3_local_loop s3 src_key dst objs (PyNum.PyFloat acc) ops w))
      = w_trace w ++ evs
    /\ only is_enumeration evs
    /\ (forall k p, In (EvDownload k p) evs ->
          exists o, In o objs /\ k = key o /\ p = dest_path src_key dst o)
    /\ (forall r, snd (copy_s3_local_loop s3 src_key dst objs (PyNum.PyFloat acc) ops w) = Val r ->
          0 <= acc -> List.Forall (fun o => 0 <= size o) objs ->
          acc + listing_bytes objs <= 2 ^ 53 ->
          fst r = PyNum.PyFloat (acc + listing_bytes objs))
    /\ snd (copy_s3_local_loop s3 src_key dst objs (PyNum.PyFloat acc) ops w) <> OutOfFuel.
Proof.
  induction objs as [|obj objs IH]; intros acc ops w.
  - exists []. simpl. rewrite app_nil_r, Z.add_0_r.
    split; [reflexivity|]. split; [apply only_nil|]. split; [intros k p []|].
    split; [intros r [= <-]; reflexivity | discriminate].
  - rewrite listing_loop_cons. cbn zeta.
    set (dest := dest_path src_key dst obj).
    pose proof (mkdir_returns true true (w_fs w) (Pathlib.parent dest)) as Hm.
    destruct (snd (FS.mkdir true true (w_fs w) (Pathlib.parent dest))) as [[]|e|];
      [| | now contradiction Hm].
    + destruct (add_float acc (PyNum.PyInt (size obj))) as (b & Eb). rewrite Eb.
      match goal with
      | |- context [copy_s3_local_loop _ _ _ _ _ ?ops1 ?w1] =>
          destruct (IH b ops1 w1) as (evs & E & Ho & Hd & Ht & Hf)
      end.
      exists ([EvMkdir (Pathlib.parent dest) true; EvDownload (key obj) dest] ++ evs).
      rewrite E. cbn [w_trace]. rewrite <- !app_assoc.
      split; [reflexivity|].
      split; [apply only_app; [now repeat constructor | assumption]|].
      split; [|split; [|assumption]].
      * intros k p [Hin|[Hin|Hin]]; [discriminate | |].
        -- injection Hin as <- <-. exists obj. repeat split; auto. now left.
        -- destruct (Hd k p Hin) as (o & Ho' & Hk & Hp). exists o. repeat split; auto.
           now right.
      * intros r Hr Hacc Hnn Hle. inversion Hnn as [|? ? Hs Hrest]; subst.
        pose proof (listing_bytes_nonneg _ Hrest).
        change (listing_bytes (obj :: objs)) with (size obj + listing_bytes objs) in *.
        rewrite add_exact in Eb by (simpl; lia). injection Eb as <-. simpl in *.
        rewrite (Ht r Hr) by (auto; lia). f_equal. lia.
    + exists [EvMkdir (Pathlib.parent dest) true]. cbn [fst snd w_trace].
      split; [reflexivity|]. split; [now repeat constructor|].
      split; [intros k p [Hin|[]]; discriminate|].
      split; discriminate.
Qed.

Lemma total_of_skip (p : event -> bool) evs rest :
  (forall e, p e = true -> is_total e = false) ->
  only p evs -> total_of (evs ++ rest) = total_of rest.
Proof.
  intros Hp. induction 1 as [|e evs He Hevs IH]; [reflexivity|].
  simpl. specialize (Hp e He). destruct e; try discriminate; exact IH.
Qed.

Lemma total_of_none (p : event -> bool) evs :
  (forall e, p e = true -> is_total e = false) ->
  only p evs -> total_of evs = None.
Proof.
  intros Hp Ho. rewrite <- (app_nil_r evs). now rewrite (total_of_skip p).
Qed.

Lemma upload_not_total e : is_upload e = true -> is_total e = false.
Proof. now destruct e. Qed.

Lemma enumeration_not_total e : is_enumeration e = true -> is_total e = false.
Proof. now destruct e. Qed.

(** the shape of a run of [copy_local_s3] on an existing source *)
Lemma copy_local_s3_run s3 sched src dst_key w n :
  FS.stat (w_fs w) src = inl n ->
  exists ups t waits,
    w_trace (fst (copy_local_s3 s3 sched src dst_key w))
      = w_trace w ++ ups ++ EvTotal t :: waits
    /\ only is_upload ups /\ only is_wait waits
    /\ (tree_bytes n <= 2 ^ 53 -> PyNum.value t = tree_bytes n).
Proof.
  intros Hs. unfold copy_local_s3. rewrite Hs.
  destruct (walks_all s3 n src dst_key [] w) as (ups & t & ops & E & Hu & Ht).
  unfold bind at 1. rewrite E. cbn [fst snd].
  unfold bind at 1. cbn [emit w_fs w_trace].
  match goal with
  | |- context [wait_all sched ?o ?w1] =>
      destruct (emits_wait_all sched o w1) as (waits & Ew & Hw)
  end.
  exists ups, t, waits. rewrite Ew. cbn [w_trace].
  rewrite <- !app_assoc. auto.
Qed.

Lemma slice_from_append (a b : string) :
  PyStr.slice_from (String.length a) (String.append a b) = b.
Proof. induction a as [|c a IH]; simpl; auto. Qed.

(** the shape of a run of [copy_s3_local] *)
Lemma copy_s3_local_run s3 sched src_key dst w :
  exists evs,
    w_trace (fst (copy_s3_local s3 sched src_key dst w)) = w_trace w ++ evs
    /\ (forall k p, In (EvDownload k p) evs ->
          exists o, In o (list_objects s3 src_key)
                    /\ k = key o /\ p = dest_path src_key dst o)
    /\ match total_of evs with
       | Some t =>
           List.Forall (fun o => 0 <= size o) (list_objects s3 src_key) ->
           listing_bytes (list_objects s3 src_key) <= 2 ^ 53 ->
           PyNum.value t = listing_bytes (list_objects s3 src_key)
       | None => exists e, snd (copy_s3_local s3 sched src_key dst w) = Raise e
       end.
Proof.
  unfold copy_s3_local.
  destruct (listing_loop s3 src_key dst (list_objects s3 src_key) 0 [] w)
    as (evs & E & Ho & Hd & Ht & Hf).
  unfold bind at 1.
  destruct (copy_s3_local_loop s3 src_key dst (list_objects s3 src_key)
                               (PyNum.PyFloat 0) [] w) as [w1 [r|e|]] eqn:El;
    cbn [fst snd] in *; [| | now contradiction Hf].
  - unfold bind at 1. cbn [emit w_fs w_trace].
    match goal with
    | |- context [wait_all sched ?o ?w2] =>
        destruct (emits_wait_all sched o w2) as (waits & Ew & Hw)
    end.
    exists (evs ++ EvTotal (fst r) :: waits). rewrite Ew. cbn [w_trace].
    rewrite E, <- !app_assoc. split; [reflexivity|]. split.
    + intros k p Hin. apply in_app_or in Hin as [Hin|[Hin|Hin]]; [eauto | discriminate |].
      unfold only in Hw. rewrite List.Forall_forall in Hw. specialize (Hw _ Hin). discriminate.
    + rewrite (total_of_skip is_enumeration) by (auto using enumeration_not_total).
      simpl. intros Hnn Hle. rewrite (Ht r eq_refl) by (auto; lia). reflexivity.
  - exists evs. split; [exact E|]. split; [exact Hd|].
    rewrite (total_of_none is_enumeration) by (auto using enumeration_not_total).
    exists e. unfold bind. now rewrite El.
Qed.

End Transfers.

(** C3, as stated, fails: [copy_local_s3] hands the uploads over while it
    walks the tree, and the total is known only when the walk is over; here
    both uploads come before the total. *)
Lemma copy_local_s3_uploads_before_total :
  CliHelper.w_trace
    (fst (CliHelper.copy_local_s3 (Examples.store []) [] (Pathlib.of_string "data") "k"
                                  Examples.home))
  = [CliHelper.EvUpload (Pathlib.of_string "data/a") "k/a";
     CliHelper.EvUpload (Pathlib.of_string "data/b/c") "k/b/c";
     CliHelper.EvTotal (PyNum.PyFloat 30);
     CliHelper.EvResult 0; CliHelper.EvProgress 10;
     CliHelper.EvResult 1; CliHelper.EvProgress 20]
  /\ Trace.occurs_after CliHelper.is_total CliHelper.is_upload
       (CliHelper.w_trace
          (fst (CliHelper.copy_local_s3 (Examples.store []) [] (Pathlib.of_string "data") "k"
                                        Examples.home)))
     = true.
Proof. split; reflexivity. Qed.

(** C3 (as the code has it): on an existing source the calls of
    [copy_local_s3] come in three stretches: first every [upload_object],
    made during the walk; then the total, bound once and handed to the
    progress bar; then the waiting for the futures. So the total is known
    before any completion is awaited or reported, and after every upload
    has been handed over. *)
Theorem copy_local_s3_total_before_waiting
        (s3 : CliHelper.S3Interface) (sched : list nat) (src : Path) (dst_key : string)
        (w : CliHelper.world) (n : FS.node)
        (Hsrc : FS.stat (CliHelper.w_fs w) src = inl n) :
  exists ups t waits,
    CliHelper.w_trace (fst (CliHelper.copy_local_s3 s3 sched src dst_key w))
      = CliHelper.w_trace w ++ ups ++ CliHelper.EvTotal t :: waits
    /\ List.Forall (fun e => CliHelper.is_upload e = true) ups
    /\ List.Forall (fun e => CliHelper.is_wait e = true) waits.
Proof.
  destruct (copy_local_s3_run s3 sched src dst_key w n Hsrc)
    as (ups & t & waits & E & Hu & Hw & _).
  exists ups, t, waits. auto.
Qed.

Lemma copy_local_s3_total_before_waiting_witness :
  exists ups t waits,
    CliHelper.w_trace
      (fst (CliHelper.copy_local_s3 (Examples.store []) [1%nat] (Pathlib.of_string "data") "k"
                                    Examples.home))
      = [] ++ ups ++ CliHelper.EvTotal t :: waits
    /\ List.Forall (fun e => CliHelper.is_upload e = true) ups
    /\ List.Forall (fun e => CliHelper.is_wait e = true) waits.
Proof.
  eapply (copy_local_s3_total_before_waiting
            (Examples.store []) [1%nat] (Pathlib.of_string "data") "k" Examples.home).
  reflexivity.
Defined.

(** C5, as stated, fails: the totals are accumulated in a float. For a
    listing of 1639 objects of 5 TiB followed by an object of one byte the
    sum of the sizes is odd and above [2^53], and the accumulated total is
    one byte short. *)
Lemma copy_s3_local_total_drops_a_byte :
  CliHelper.total_of
    (CliHelper.w_trace
       (fst (CliHelper.copy_s3_local (Examples.store Examples.big_listing) []
                                     "lake" (Pathlib.of_string "dl") Examples.home)))
  = Some (PyNum.PyFloat (1639 * (5 * 2 ^ 40)))
  /\ CliHelper.listing_bytes Examples.big_listing = 1639 * (5 * 2 ^ 40) + 1
  /\ forallb (fun o => (1 <=? CliHelper.size o) && (CliHelper.size o <=? 5 * 2 ^ 40))
             Examples.big_listing = true.
Proof. split; [|split]; vm_compute; reflexivity. Qed.

(** C5 (as the code has it): as long as the sum of the sizes does not
    exceed [2^53], the total handed to the progress bar is that sum: for
    [copy_local_s3] the sum of the sizes of the files under the source, for
    [copy_s3_local] the sum of the [size] fields of the listing (when the
    enumeration is not cut short by a failing [mkdir], in which case the
    call raises and no total is computed). *)
Theorem total_bytes_exact_below_2p53
        (s3 : CliHelper.S3Interface) (sched : list nat) (fs : FS.t) :
  (forall src dst_key n,
      FS.stat fs src = inl n ->
      CliHelper.tree_bytes n <= 2 ^ 53 ->
      exists t,
        CliHelper.total_of
          (CliHelper.w_trace
             (fst (CliHelper.copy_local_s3 s3 sched src dst_key (CliHelper.mkWorld fs []))))
        = Some t
        /\ PyNum.value t = CliHelper.tree_bytes n)
  /\ (forall src_key dst,
        List.Forall (fun o => 0 <= CliHelper.size o) (CliHelper.list_objects s3 src_key) ->
        CliHelper.listing_bytes (CliHelper.list_objects s3 src_key) <= 2 ^ 53 ->
        match CliHelper.total_of
                (CliHelper.w_trace
                   (fst (CliHelper.copy_s3_local s3 sched src_key dst
                                                 (CliHelper.mkWorld fs []))))
        with
        | Some t => PyNum.value t = CliHelper.listing_bytes (CliHelper.list_objects s3 src_key)
        | None =>
            exists e, snd (CliHelper.copy_s3_local s3 sched src_key dst
                                                   (CliHelper.mkWorld fs [])) = Raise e
        end).
Proof.
  split.
  - intros src dst_key n Hs Hle.
    destruct (copy_local_s3_run s3 sched src dst_key (CliHelper.mkWorld fs []) n Hs)
      as (ups & t & waits & E & Hu & Hw & Ht).
    exists t. rewrite E. simpl.
    rewrite (total_of_skip CliHelper.is_upload) by (auto using upload_not_total).
    simpl. auto.
  - intros src_key dst Hnn Hle.
    destruct (copy_s3_local_run s3 sched src_key dst (CliHelper.mkWorld fs []))
      as (evs & E & _ & Ht).
    rewrite E. simpl. destruct (CliHelper.total_of evs); auto.
Qed.

Lemma total_bytes_exact_below_2p53_witness :
  (exists t,
      CliHelper.total_of
        (CliHelper.w_trace
           (fst (CliHelper.copy_local_s3 (Examples.store Examples.small_listing) []
                                         (Pathlib.of_string "data") "k"
                                         (CliHelper.mkWorld Examples.home_fs []))))
      = Some t
      /\ PyNum.value t = 30)
  /\ match CliHelper.total_of
             (CliHelper.w_trace
                (fst (CliHelper.copy_s3_local (Examples.store Examples.small_listing) []
                                              "pre" (Pathlib.of_string "dl")
                                              (CliHelper.mkWorld Examples.home_fs []))))
     with
     | Some t => PyNum.value t = 30
     | None =>
         exists e, snd (CliHelper.copy_s3_local (Examples.store Examples.small_listing) []
                                                "pre" (Pathlib.of_string "dl")
                                                (CliHelper.mkWorld Examples.home_fs []))
                   = Raise e
     end.
Proof.
  pose proof (total_bytes_exact_below_2p53
                (Examples.store Examples.small_listing) [] Examples.home_fs) as [Hup Hdown].
  split.
  - refine (Hup (Pathlib.of_string "data") "k" _ eq_refl _). vm_compute. discriminate.
  - apply (Hdown "pre" (Pathlib.of_string "dl")).
    + repeat constructor; simpl; lia.
    + vm_compute. discriminate.
Defined.

(** C9: a local source that does not exist makes [copy_local_local] and
    [ls_local] raise [FileNotFoundError]; a prefix whose listing is empty
    makes [copy_s3_local] return normally with a total of zero bytes and no
    other call; and every download is sent to the destination joined with
    the key of its object, cut by the length of the prefix and stripped of
    leading slashes, which for a key that starts with the prefix is the key
    without the prefix. *)
Theorem enumeration_failure_cases
        (fuel : nat) (w : CliHelper.world) (src dst : Path)
        (s3 : CliHelper.S3Interface) (sched : list nat) (src_key : string) :
  (FS.exists_ (CliHelper.w_fs w) src = false ->
   CliHelper.copy_local_local (S fuel) src dst w = (w, Raise (FileNotFoundError src))
   /\ CliHelper.ls_local (CliHelper.w_fs w) src = Raise (FileNotFoundError src))
  /\ (CliHelper.list_objects s3 src_key = [] ->
      CliHelper.copy_s3_local s3 sched src_key dst w =
        (CliHelper.mkWorld (CliHelper.w_fs w)
                           (CliHelper.w_trace w ++ [CliHelper.EvTotal (PyNum.PyFloat 0)]),
         Val tt))
  /\ (forall obj rest,
        CliHelper.key obj = String.append src_key rest ->
        CliHelper.dest_path src_key dst obj = dst // PyStr.lstrip "/" rest)
  /\ (exists evs,
        CliHelper.w_trace (fst (CliHelper.copy_s3_local s3 sched src_key dst w))
          = CliHelper.w_trace w ++ evs
        /\ forall k p,
            In (CliHelper.EvDownload k p) evs ->
            exists obj, In obj (CliHelper.list_objects s3 src_key)
                        /\ k = CliHelper.key obj
                        /\ p = CliHelper.dest_path src_key dst obj).
Proof.
  split; [|split; [|split]].
  - intros He. split.
    + simpl. now rewrite He.
    + unfold CliHelper.ls_local. now rewrite He.
  - intros Hl. unfold CliHelper.copy_s3_local. rewrite Hl. reflexivity.
  - intros obj rest Hk. unfold CliHelper.dest_path. rewrite Hk.
    now rewrite slice_from_append.
  - destruct (copy_s3_local_run s3 sched src_key dst w) as (evs & E & Hd & _).
    exists evs. auto.
Qed.

Lemma enumeration_failure_cases_witness :
  (CliHelper.copy_local_local 1 (Pathlib.of_string "nodata") (Pathlib.of_string "out")
                              Examples.home
   = (Examples.home, Raise (FileNotFoundError (Pathlib.of_string "nodata")))
   /\ CliHelper.ls_local Examples.home_fs (Pathlib.of_string "nodata")
      = Raise (FileNotFoundError (Pathlib.of_string "nodata")))
  /\ CliHelper.copy_s3_local (Examples.store []) [] "pre" (Pathlib.of_string "out")
                             Examples.home
     = (CliHelper.mkWorld Examples.home_fs [CliHelper.EvTotal (PyNum.PyFloat 0)], Val tt)
  /\ CliHelper.dest_path "pre" (Pathlib.of_string "out") (CliHelper.mkObj "pre/b/c" 20)
     = Pathlib.of_string "out/b/c".
Proof.
  pose proof (enumeration_failure_cases
                0 Examples.home (Pathlib.of_string "nodata") (Pathlib.of_string "out")
                (Examples.store []) [] "pre") as (Hlocal & Hempty & Hdest & _).
  split; [exact (Hlocal eq_refl)|]. split; [exact (Hempty eq_refl)|].
  exact (Hdest (CliHelper.mkObj "pre/b/c" 20) "/b/c" eq_refl).
Defined.

(** ** The thread pool of [do_parallel] *)

Section PoolFacts.

Import Utils.
Context {A R : Type}.
Variable func : A -> R + exn.
Variable n : nat.

Variable args_list : list A.

Implicit Types (s : pool (A:=A) (R:=R)) (a : action).

Local Abbreviation accounted := (Utils.accounted args_list).
Local Abbreviation sound := (Utils.sound func args_list).
Local Abbreviation tracked := (Utils.tracked args_list).
Local Abbreviation pool_inv := (Utils.pool_inv func args_list).

Lemma extract_some {X} (k : nat) (l : list X) :
  (k < length l)%nat -> exists x rest, CliHelper.extract k l = Some (x, rest).
Proof.
  revert k; induction l as [|y l IH]; intros k Hk; simpl in *; [lia|].
  destruct k as [|k]; simpl; [eauto|].
  destruct (IH k) as (x & rest & E); [lia|]. rewrite E. eauto.
Qed.

Lemma extract_perm {X} (k : nat) (l : list X) x rest :
  CliHelper.extract k l = Some (x, rest) -> Permutation l (x :: rest).
Proof.
  revert k x rest; induction l as [|y l IH]; intros k x rest E; simpl in E; [discriminate|].
  destruct k as [|k]; simpl in E.
  - injection E as <- <-. reflexivity.
  - destruct (CliHelper.extract k l) as [[z r]|] eqn:E'; [|discriminate].
    injection E as <- <-. rewrite (IH _ _ _ E'). apply perm_swap.
Qed.

Lemma extract_length {X} (k : nat) (l : list X) x rest :
  CliHelper.extract k l = Some (x, rest) -> length l = S (length rest).
Proof. intros E. apply extract_perm in E. now rewrite (Permutation_length E). Qed.

Lemma enabled_can a s : In a (enabled n s) -> can n a s = true.
Proof. unfold enabled. rewrite filter_In. tauto. Qed.

Lemma nonnil_length {X} (l : list X) : is_nil l = false -> (0 < length l)%nat.
Proof. destruct l; simpl; [discriminate | lia]. Qed.

Lemma in_candidates a s :
  match a with
  | AFinish k => (k < length (running s))%nat
  | ACollect k => (k < length (done_ s))%nat
  | _ => True
  end -> In a (candidates s).
Proof.
  unfold candidates. intros H. destruct a; simpl.
  - auto.
  - auto.
  - right; right. apply in_or_app; left. apply in_map, in_seq. lia.
  - right; right. apply in_or_app; right. apply in_or_app; left.
    apply in_map, in_seq. lia.
  - right; right. apply in_or_app; right. apply in_or_app; right. simpl; auto.
Qed.

Lemma enabled_intro a s :
  can n a s = true -> In a (enabled n s).
Proof.
  intros Hc. unfold enabled. apply filter_In. split; [|exact Hc].
  apply in_candidates. destruct a; simpl in *; auto.
  - now apply Nat.ltb_lt.
  - apply andb_prop in Hc as [_ Hc]. now apply Nat.ltb_lt.
Qed.

(** Some move is always possible: the machine has no deadlock. *)
Lemma enabled_nonempty s : (1 <= n)%nat -> enabled n s <> [].
Proof.
  intros Hn.
  assert (exists a, can n a s = true) as [a Ha].
  { destruct (is_nil (queue s)) eqn:Eq.
    - destruct (is_nil (running s)) eqn:Er.
      + destruct (failure s) eqn:Ef.
        * exists AExit. simpl. unfold no_failure. now rewrite Ef, Eq, Er.
        * destruct (is_nil (to_submit s)) eqn:Et.
          -- destruct (is_nil (done_ s)) eqn:Ed.
             ++ exists AExit. simpl. unfold no_failure. now rewrite Ef, Eq, Er, Et, Ed.
             ++ exists (ACollect 0). simpl. unfold no_failure. rewrite Ef, Et. simpl.
                apply Nat.ltb_lt. now apply nonnil_length.
          -- exists ASubmit. simpl. unfold no_failure. now rewrite Ef, Et.
      + exists (AFinish 0). simpl. apply Nat.ltb_lt. now apply nonnil_length.
    - destruct (Nat.ltb (length (running s)) n) eqn:El.
      + exists AStart. simpl. now rewrite Eq, El.
      + exists (AFinish 0). simpl. apply Nat.ltb_lt. apply Nat.ltb_ge in El. lia. }
  intros E. apply enabled_intro in Ha. rewrite E in Ha. contradiction.
Qed.

Lemma step_work a s :
  can n a s = true -> a <> AExit -> (work (step func a s) < work s)%nat.
Proof.
  intros Hc Hne. destruct a; simpl in Hc; try congruence; unfold work, step.
  - apply andb_prop in Hc as [_ Hc].
    destruct (to_submit s) as [|x rest]; [discriminate|]. simpl.
    rewrite length_app. simpl. lia.
  - apply andb_prop in Hc as [Hc _].
    destruct (queue s) as [|x rest]; [discriminate|]. simpl.
    rewrite length_app. simpl. lia.
  - apply Nat.ltb_lt in Hc. destruct (extract_some _ _ Hc) as (x & rest & E).
    rewrite E. simpl. rewrite length_app, (extract_length _ _ _ _ E). simpl. lia.
  - apply andb_prop in Hc as [_ Hc]. apply Nat.ltb_lt in Hc.
    destruct (extract_some _ _ Hc) as ([[i x] [r|e]] & rest & E);
      rewrite E; simpl; rewrite (extract_length _ _ _ _ E); lia.
Qed.

Lemma run_pick s (sched : list nat) :
  (1 <= n)%nat ->
  exists a, nth_error (enabled n s) (Nat.modulo (hd O sched) (length (enabled n s))) = Some a
            /\ can n a s = true.
Proof.
  intros Hn. pose proof (enabled_nonempty s Hn) as Hne.
  destruct (nth_error (enabled n s) (Nat.modulo (hd O sched) (length (enabled n s)))) as [a|] eqn:E.
  - exists a. split; [reflexivity|]. apply enabled_can. eapply nth_error_In; eauto.
  - apply nth_error_None in E.
    assert (length (enabled n s) <> 0)%nat by (destruct (enabled n s); simpl; congruence).
    pose proof (Nat.mod_upper_bound (hd O sched) (length (enabled n s)) H). lia.
Qed.

Lemma run_total fuel sched s :
  (1 <= n)%nat -> (work s <= fuel)%nat -> snd (run func n fuel sched s) <> OutOfFuel.
Proof.
  intros Hn. revert sched s. induction fuel as [|fuel IH]; intros sched s Hw.
  - unfold work in Hw. lia.
  - simpl. destruct (run_pick s sched Hn) as (a & -> & Hc).
    destruct a; try (apply IH; pose proof (step_work _ s Hc); 
                     match goal with H : _ -> (_ < _)%nat |- _ => specialize (H ltac:(discriminate)) end; lia).
    simpl. unfold outcome. destruct (failure s); discriminate.
Qed.

(** A property kept by every move holds when the call is over, and the
    call is over in a state in which the [with] block can be left. *)
Lemma run_invariant (Inv : pool -> Prop) :
  (forall a s, Inv s -> can n a s = true -> Inv (step func a s)) ->
  forall fuel sched s, Inv s ->
    Inv (fst (run func n fuel sched s))
    /\ (snd (run func n fuel sched s) = OutOfFuel
        \/ (can n AExit (fst (run func n fuel sched s)) = true
            /\ snd (run func n fuel sched s) = outcome (fst (run func n fuel sched s)))).
Proof.
  intros Hstep. induction fuel as [|fuel IH]; intros sched s HI.
  - simpl. auto.
  - simpl.
    destruct (nth_error (enabled n s) (Nat.modulo (hd O sched) (length (enabled n s)))) as [a|] eqn:E;
      [|simpl; auto].
    assert (Hc : can n a s = true) by (apply enabled_can; eapply nth_error_In; eauto).
    destruct a; try (apply IH; apply Hstep; assumption).
    simpl fst; simpl snd. auto.
Qed.

(** *** What the machine keeps true *)

Lemma step_failure a s :
  failure (step func a s) = None -> failure s = None.
Proof.
  destruct a; simpl; auto.
  - destruct (to_submit s); auto.
  - destruct (queue s); auto.
  - destruct (CliHelper.extract k (running s)) as [[x rest]|]; auto.
  - destruct (CliHelper.extract k (done_ s)) as [[[[i x] [r|e]] rest]|]; simpl; auto.
    discriminate.
Qed.

Lemma step_items a s :
  can n a s = true -> failure (step func a s) = None ->
  Permutation (items_of (step func a s)) (items_of s).
Proof.
  intros Hc Hf. destruct a; simpl in *; unfold items_of.
  - destruct (to_submit s) as [|x rest] eqn:E; [now rewrite E|]. simpl.
    rewrite map_app. simpl. solve_Permutation.
  - destruct (queue s) as [|x rest] eqn:E; [now rewrite E|]. simpl.
    rewrite map_app. simpl. solve_Permutation.
  - destruct (CliHelper.extract k (running s)) as [[x rest]|] eqn:E; [|reflexivity].
    simpl. rewrite (extract_perm _ _ _ _ E), map_app. simpl. solve_Permutation.
  - destruct (CliHelper.extract k (done_ s)) as [[[[i x] [r|e]] rest]|] eqn:E;
      [| simpl in Hf; discriminate | reflexivity].
    simpl. rewrite (extract_perm _ _ _ _ E), map_app. simpl. solve_Permutation.
  - reflexivity.
Qed.

Lemma accounted_step a s :
  accounted s -> can n a s = true -> accounted (step func a s).
Proof.
  intros HI Hc Hf. rewrite (step_items a s Hc Hf). apply HI.
  now apply (step_failure a).
Qed.

Lemma sound_step a s :
  accounted s -> sound s -> can n a s = true -> sound (step func a s).
Proof.
  intros Hacc (Hd & Hr & He) Hc. destruct a; simpl in *.
  - destruct (to_submit s); repeat split; auto.
  - destruct (queue s); repeat split; auto.
  - destruct (CliHelper.extract k (running s)) as [[x rest]|] eqn:E;
      repeat split; auto. simpl.
    apply Forall_app. split; [assumption|]. constructor; [reflexivity|constructor].
  - apply andb_prop in Hc as [Hc _]. apply andb_prop in Hc as [Hnf _].
    unfold no_failure in Hnf. destruct (failure s) eqn:Ef; [discriminate|].
    destruct (CliHelper.extract k (done_ s)) as [[[[i x] [r|e]] rest]|] eqn:E;
      [| | repeat split; auto; now rewrite Ef].
    + pose proof (extract_perm _ _ _ _ E) as HP.
      rewrite HP in Hd. apply Forall_cons_iff in Hd as [Hx Hd]. simpl in Hx.
      repeat split; simpl; auto.
      apply Forall_app. split; [assumption|]. constructor; [now simpl|constructor].
    + pose proof (extract_perm _ _ _ _ E) as HP.
      rewrite HP in Hd. apply Forall_cons_iff in Hd as [Hx Hd]. simpl in Hx.
      repeat split; simpl; auto.
      intros e' [= <-]. exists x. split; [|now symmetry].
      specialize (Hacc Ef). eapply Permutation_in; [exact Hacc|].
      unfold items_of. rewrite HP. simpl.
      rewrite !in_app_iff. right; right; right. now left.
  - repeat split; auto.
Qed.

Lemma in_extract {X} (k : nat) (l : list X) x rest y :
  CliHelper.extract k l = Some (x, rest) -> In y l <-> y = x \/ In y rest.
Proof.
  intros E. pose proof (extract_perm _ _ _ _ E) as HP. split.
  - intros Hy. apply (Permutation_in _ HP) in Hy. destruct Hy; auto.
  - intros Hy. apply (Permutation_in _ (Permutation_sym HP)). destruct Hy; [left|right]; auto.
Qed.

Ltac split_in :=
  repeat first
    [ match goal with
      | H : context [In _ (_ ++ _)] |- _ => rewrite in_app_iff in H
      | |- context [In _ (_ ++ _)] => rewrite in_app_iff
      end
    | progress simpl in * ].

Lemma tracked_step a s :
  tracked s -> can n a s = true -> tracked (step func a s).
Proof.
  intros HT Hc y Hy. specialize (HT y Hy). destruct a; simpl.
  - destruct (to_submit s) as [|x rest] eqn:E; [now rewrite E|]. simpl in *.
    split_in. intuition auto.
  - destruct (queue s) as [|x rest] eqn:E; [now rewrite E|]. simpl in *.
    split_in. intuition (subst; auto).
  - destruct (CliHelper.extract k (running s)) as [[x rest]|] eqn:E; [|assumption].
    simpl. split_in. rewrite (in_extract _ _ _ _ y E) in HT.
    intuition (subst; auto).
  - destruct (CliHelper.extract k (done_ s)) as [[[[i x] [r|e]] rest]|] eqn:E;
      [| |assumption]; simpl; split_in; intuition auto.
  - assumption.
Qed.

Lemma occurs_after_snoc {E} (p q : E -> bool) tr e :
  Trace.occurs_after p q (tr ++ [e])
  = Trace.occurs_after p q tr || (existsb q tr && p e).
Proof.
  induction tr as [|e' tr IH]; simpl.
  - now rewrite andb_false_r.
  - rewrite IH, existsb_app. simpl. rewrite orb_false_r.
    destruct (q e'), (existsb p tr), (Trace.occurs_after p q tr), (existsb q tr), (p e);
      reflexivity.
Qed.

(** a move that adds an event other than an observation and leaves the
    failure as it is *)
Lemma submit_first_extend s s' e :
  failure s' = failure s -> ptrace s' = ptrace s ++ [e] ->
  is_observed e = false ->
  (is_submitted e = true -> failure s = None) ->
  (to_submit s = [] -> to_submit s' = []) ->
  submit_first s -> submit_first s'.
Proof.
  intros Hf Htr He Hsub Hts (Ho & Hn & Ht & Hob). unfold submit_first.
  rewrite Hf, Htr, occurs_after_snoc, existsb_app, Ho. simpl.
  rewrite He, orb_false_r. repeat split; auto.
  destruct (is_submitted e) eqn:Es; [|now rewrite andb_false_r].
  rewrite (Hn (Hsub eq_refl)). reflexivity.
Qed.

Lemma submit_first_step a s :
  submit_first s -> can n a s = true -> submit_first (step func a s).
Proof.
  intros HI Hc. destruct a; simpl in *.
  - apply andb_prop in Hc as [Hnf _]. unfold no_failure in Hnf.
    destruct (failure s) eqn:Ef; [discriminate|].
    destruct (to_submit s) as [|x rest] eqn:E; [exact HI|].
    apply (submit_first_extend s _ (Submitted (fst x))); simpl; auto; try discriminate; congruence.
  - destruct (queue s) as [|x rest] eqn:E; [exact HI|].
    apply (submit_first_extend s _ (Started (fst x))); simpl; auto; try discriminate; congruence.
  - destruct (CliHelper.extract k (running s)) as [[x rest]|] eqn:E; [|exact HI].
    apply (submit_first_extend s _ (Finished (fst x))); simpl; auto; try discriminate; congruence.
  - apply andb_prop in Hc as [Hc _]. apply andb_prop in Hc as [_ Hnil].
    destruct (to_submit s) eqn:Et; [|discriminate].
    destruct (CliHelper.extract k (done_ s)) as [[[[i x] [r|e]] rest]|] eqn:E;
      [| | exact HI].
    + apply (submit_first_extend s _ (Yielded i)); simpl; auto; try discriminate; congruence.
    + destruct HI as (Ho & Hn & Ht & Hob). unfold submit_first. simpl.
      rewrite occurs_after_snoc, existsb_app, Ho. simpl.
      rewrite andb_false_r, orb_true_r. repeat split; auto. discriminate.
  - exact HI.
Qed.

Lemma map_snd_combine_seq {X} (l : list X) (i : nat) :
  List.map snd (combine (List.seq i (length l)) l) = l.
Proof.
  revert i; induction l as [|x l IH]; intros i; simpl; [reflexivity|].
  now rewrite IH.
Qed.

Lemma length_indexed (l : list A) : length (indexed l) = length l.
Proof. unfold indexed. rewrite length_combine, length_seq. lia. Qed.

Lemma in_combine_seq (b : nat) (l : list A) (j : nat) :
  (j < length l)%nat ->
  exists x, In ((b + j)%nat, x) (combine (List.seq b (length l)) l).
Proof.
  revert b j. induction l as [|y l IH]; intros b j Hj; simpl in *; [lia|].
  destruct j as [|j].
  - exists y. left. f_equal. lia.
  - destruct (IH (S b) j) as (x & Hx); [lia|]. exists x. right.
    replace (b + S j)%nat with (S b + j)%nat by lia. exact Hx.
Qed.

Lemma in_indexed (l : list A) (i : nat) :
  (i < length l)%nat -> exists x, In (i, x) (indexed l).
Proof. intros Hi. exact (in_combine_seq 0 l i Hi). Qed.

(** *** The whole call *)

Lemma pool_inv_init : pool_inv (init n args_list).
Proof.
  repeat split; simpl; auto; try discriminate.
  - intros _. unfold items_of. simpl. unfold indexed.
    rewrite map_snd_combine_seq. now rewrite !app_nil_r.
  - left. now rewrite app_nil_r.
  - left. now rewrite app_nil_r.
  - intros H; now contradiction H.
Qed.

Lemma pool_inv_step a s :
  pool_inv s -> can n a s = true -> pool_inv (step func a s).
Proof.
  intros (Ha & Hs & Ht & Hf) Hc. repeat split.
  - now apply accounted_step.
  - now apply sound_step.
  - now apply sound_step.
  - now apply sound_step.
  - now apply tracked_step.
  - now apply tracked_step.
  - now apply submit_first_step.
  - now apply submit_first_step.
  - now apply submit_first_step.
  - now apply submit_first_step.
Qed.

(** With a pool of at least one worker the call always comes to an end,
    in a state where the [with] block is left, whatever the schedule. *)
Lemma run_final (sched : list nat) :
  (1 <= n)%nat ->
  exists s,
    run func n (4 * length args_list + 1) sched (init n args_list) = (s, outcome s)
    /\ pool_inv s /\ can n AExit s = true.
Proof.
  intros Hn.
  pose proof (run_invariant pool_inv pool_inv_step (4 * length args_list + 1) sched
                (init n args_list) pool_inv_init) as (HI & Hr).
  pose proof (run_total (4 * length args_list + 1) sched (init n args_list) Hn) as Ht.
  destruct (run func n (4 * length args_list + 1) sched (init n args_list)) as [s r].
  simpl in *. exists s.
  destruct Hr as [Hr | (Hc & Hr)].
  - exfalso. apply Ht; [|exact Hr]. unfold work, init. simpl.
    rewrite length_indexed. lia.
  - subst r. auto.
Qed.

(** When the call ends without a failure, [results] holds every item. *)
Lemma exit_results s :
  pool_inv s -> can n AExit s = true -> failure s = None ->
  Permutation (List.map fst (results s)) args_list.
Proof.
  intros (Ha & _) Hc Hf. specialize (Ha Hf). simpl in Hc.
  unfold no_failure in Hc. rewrite Hf in Hc.
  apply andb_prop in Hc as [Hc Hd]. apply andb_prop in Hc as [Hc Hr].
  apply andb_prop in Hc as [Ht Hq].
  unfold items_of in Ha.
  destruct (to_submit s), (queue s), (running s), (done_ s); try discriminate.
  exact Ha.
Qed.

(** When the call ends, every invocation has started and finished. *)
Lemma exit_drained s i :
  pool_inv s -> can n AExit s = true -> (i < length args_list)%nat ->
  In (Started i) (ptrace s) /\ In (Finished i) (ptrace s).
Proof.
  intros (_ & _ & Ht & (_ & _ & Hts & _)) Hc Hi.
  destruct (in_indexed args_list i Hi) as (x & Hx).
  destruct (Ht _ Hx) as [H1 H2]. simpl in *.
  assert (to_submit s = [] /\ queue s = [] /\ running s = []) as (E1 & E2 & E3).
  { unfold no_failure in Hc. destruct (failure s) eqn:Ef.
    - apply andb_prop in Hc as [Hq Hr].
      destruct (queue s), (running s); try discriminate.
      split; [apply Hts; discriminate | auto].
    - apply andb_prop in Hc as [Hc Hd]. apply andb_prop in Hc as [Hc Hr].
      apply andb_prop in Hc as [Hts' Hq].
      destruct (to_submit s), (queue s), (running s); try discriminate. auto. }
  rewrite E1, E2 in H1. rewrite E1, E2, E3 in H2. simpl in *.
  destruct H1 as [[]|H1], H2 as [[]|H2]. auto.
Qed.

(** When some item fails, the call cannot end without a failure on
    record: the failing future has to be picked up first. *)
Lemma exit_failed s :
  pool_inv s -> can n AExit s = true ->
  (exists x e, In x args_list /\ func x = inr e) ->
  exists e, failure s = Some e.
Proof.
  intros HI Hc (x & e & Hx & Hfx).
  destruct (failure s) as [e'|] eqn:Ef; [eauto|]. exfalso.
  pose proof (exit_results s HI Hc Ef) as HP.
  apply (Permutation_in _ (Permutation_sym HP)) in Hx.
  apply in_map_iff in Hx as ([y r] & <- & Hyr).
  destruct HI as (_ & (_ & Hr & _) & _).
  rewrite List.Forall_forall in Hr. specialize (Hr _ Hyr). simpl in *. congruence.
Qed.

End PoolFacts.

(** what [max_workers] is once the default is resolved *)
Lemma workers_positive (n : Z) (len : nat) :
  (len <> 0)%nat -> n = -1 \/ 1 <= n ->
  ((if n =? -1 then Z.of_nat len else n) <=? 0) = false
  /\ (1 <= Z.to_nat (if (n =? -1)%Z then Z.of_nat len else n))%nat.
Proof.
  intros Hlen [-> | Hn]; simpl.
  - split; [apply Z.leb_gt|]; lia.
  - destruct (n =? -1) eqn:E; [apply Z.eqb_eq in E; lia|].
    split; [apply Z.leb_gt|]; lia.
Qed.

(** the call, once the pool is known to be well-formed *)
Lemma do_parallel_run {A R} (func : A -> R + exn) (args_list : list A) (n : Z)
      (sched : list nat) :
  args_list <> [] -> n = -1 \/ 1 <= n ->
  exists m s,
    (1 <= m)%nat
    /\ Utils.do_parallel func args_list n sched = (Utils.ptrace s, Utils.outcome s)
    /\ Utils.pool_inv func args_list s /\ Utils.can m Utils.AExit s = true.
Proof.
  intros Hne Hn. unfold Utils.do_parallel.
  assert (Hlen : length args_list <> 0%nat) by (destruct args_list; simpl; congruence).
  apply Nat.eqb_neq in Hlen as Hlen'. rewrite Hlen'.
  destruct (workers_positive n _ Hlen Hn) as [-> Hm].
  set (m := Z.to_nat _) in *.
  destruct (run_final func m args_list sched Hm) as (s & Hrun & HI & Hc).
  exists m, s. rewrite Hrun. auto.
Qed.

(** C1: with a valid width (the default, or any [n >= 1], which covers
    [1 <= n <= N]) and a job that never raises, [do_parallel] returns, under
    every schedule, exactly one pair per input item: the returned items are
    a permutation of the input, and each pair holds the result of [func] on
    its item. On the empty list it returns the empty list and the pool is
    never created (the pool trace is empty). *)
Theorem do_parallel_returns_every_item {A R} (func : A -> R + exn)
        (args_list : list A) (n : Z) (sched : list nat)
        (Hok : forall a, In a args_list -> exists r, func a = inl r)
        (Hn : n = -1 \/ 1 <= n) :
  (exists tr rs,
      Utils.do_parallel func args_list n sched = (tr, Val rs)
      /\ length rs = length args_list
      /\ Permutation (List.map fst rs) args_list
      /\ Forall (fun p => func (fst p) = inl (snd p)) rs)
  /\ Utils.do_parallel func [] n sched = ([], Val []).
Proof.
  split; [|reflexivity].
  destruct args_list as [|a0 l] eqn:El.
  { exists [], []. repeat split; auto. }
  rewrite <- El in *.
  destruct (do_parallel_run func args_list n sched) as (m & s & Hm & Hrun & HI & Hc);
    [subst; discriminate | assumption |].
  assert (Hf : Utils.failure s = None).
  { destruct (Utils.failure s) as [e|] eqn:Ef; [|reflexivity].
    destruct HI as (_ & (_ & _ & He) & _).
    destruct (He e Ef) as (x & Hx & Hfx). destruct (Hok x Hx) as (r & Hr). congruence. }
  pose proof (exit_results func m args_list s HI Hc Hf) as HP.
  exists (Utils.ptrace s), (Utils.results s). rewrite Hrun. unfold Utils.outcome. rewrite Hf.
  repeat split.
  - rewrite <- (Permutation_length HP). now rewrite length_map.
  - exact HP.
  - apply HI.
Qed.

Lemma do_parallel_returns_every_item_witness :
  (exists tr rs,
      Utils.do_parallel Examples.square [1; 2; 3]%nat 2 [2; 1; 0; 3]%nat = (tr, Val rs)
      /\ length rs = length [1; 2; 3]%nat
      /\ Permutation (List.map fst rs) [1; 2; 3]%nat
      /\ Forall (fun p => Examples.square (fst p) = inl (snd p)) rs)
  /\ Utils.do_parallel Examples.square [] 2 [2; 1; 0; 3]%nat = ([], Val []).
Proof.
  apply (do_parallel_returns_every_item Examples.square [1; 2; 3]%nat 2 [2; 1; 0; 3]%nat).
  - intros a _. eexists. reflexivity.
  - right. lia.
Defined.

Example do_parallel_default_width :
  Utils.do_parallel Examples.square [1; 2; 3]%nat (-1) [2; 1; 0; 3; 1; 1; 1; 1; 1; 0; 0; 1]%nat
  = ([Utils.PoolCreated 3; Utils.Submitted 0; Utils.Started 0; Utils.Submitted 1;
      Utils.Submitted 2; Utils.Finished 0; Utils.Yielded 0; Utils.Started 1;
      Utils.Finished 1; Utils.Yielded 1; Utils.Started 2; Utils.Finished 2;
      Utils.Yielded 2],
     Val [(1, 1); (2, 4); (3, 9)]%nat).
Proof. reflexivity. Qed.

Example do_parallel_completion_order :
  snd (Utils.do_parallel Examples.square [1; 2; 3]%nat 3 [0; 0; 0; 0; 0; 0; 2; 1; 0; 1]%nat)
  = Val [(2, 4); (3, 9); (1, 1)]%nat.
Proof. reflexivity. Qed.

Example do_parallel_no_workers :
  Utils.do_parallel Examples.square [1; 2]%nat 0 []
  = ([], Raise (ValueError "max_workers must be greater than 0")).
Proof. reflexivity. Qed.

(** C2, as stated, fails: item 1 does not fail, yet its result never
    reaches the caller, because the call ends in the exception of item 7. *)
Lemma do_parallel_failure_drops_results :
  Utils.do_parallel Examples.flaky [1; 7]%nat (-1) []
  = ([Utils.PoolCreated 2; Utils.Submitted 0; Utils.Submitted 1;
      Utils.Started 0; Utils.Started 1; Utils.Finished 0; Utils.Finished 1;
      Utils.Yielded 0; Utils.Observed 1],
     Raise (RemoteError "boom"))
  /\ ~ (exists rs,
          snd (Utils.do_parallel Examples.flaky [1; 7]%nat (-1) []) = Val rs
          /\ In (1, 1)%nat rs).
Proof.
  split; [reflexivity|]. intros (rs & Hrs & _). discriminate Hrs.
Qed.

(** C2 (as the code has it): when some invocation raises, [do_parallel]
    raises too, under every schedule: the exception is the failure of one
    of the items (the first one the main thread comes across), it leaves
    the call only after every invocation, queued ones included, has been
    started and has finished, and no result list reaches the caller. *)
Theorem do_parallel_raises_after_drain {A R} (func : A -> R + exn)
        (args_list : list A) (n : Z) (sched : list nat)
        (Hn : n = -1 \/ 1 <= n)
        (Hbad : exists a e, In a args_list /\ func a = inr e) :
  exists tr e,
    Utils.do_parallel func args_list n sched = (tr, Raise e)
    /\ (exists a, In a args_list /\ func a = inr e)
    /\ (forall i, (i < length args_list)%nat -> In (Utils.Finished i) tr).
Proof.
  assert (Hne : args_list <> []) by (destruct Hbad as (a & _ & Ha & _); now intros ->).
  destruct (do_parallel_run func args_list n sched Hne Hn) as (m & s & Hm & Hrun & HI & Hc).
  destruct (exit_failed func m args_list s HI Hc Hbad) as (e' & Ef).
  exists (Utils.ptrace s), e'. rewrite Hrun. unfold Utils.outcome. rewrite Ef.
  repeat split.
  - destruct HI as (_ & (_ & _ & He) & _). exact (He e' Ef).
  - intros i Hi. now apply (exit_drained func m args_list s i HI Hc Hi).
Qed.

Lemma do_parallel_raises_after_drain_witness :
  exists tr e,
    Utils.do_parallel Examples.flaky [1; 7; 2]%nat 1 [0; 0; 1]%nat = (tr, Raise e)
    /\ (exists a, In a [1; 7; 2]%nat /\ Examples.flaky a = inr e)
    /\ (forall i, (i < length [1; 7; 2]%nat)%nat -> In (Utils.Finished i) tr).
Proof.
  apply (do_parallel_raises_after_drain Examples.flaky [1; 7; 2]%nat 1 [0; 0; 1]%nat).
  - right. lia.
  - exists 7%nat, (RemoteError "boom"). split; [simpl; auto | reflexivity].
Defined.

(** C4, as stated, fails: with one worker and two items, the first of which
    fails, the main thread can observe the failure while the second item is
    still queued; the worker starts it afterwards. *)
Lemma do_parallel_starts_after_failure :
  fst (Utils.do_parallel Examples.flaky [7; 2]%nat 1 [0; 0; 0; 0; 1]%nat)
  = [Utils.PoolCreated 1; Utils.Submitted 0; Utils.Submitted 1;
     Utils.Started 0; Utils.Finished 0; Utils.Observed 0;
     Utils.Started 1; Utils.Finished 1]
  /\ Trace.occurs_after Utils.is_started Utils.is_observed
       (fst (Utils.do_parallel Examples.flaky [7; 2]%nat 1 [0; 0; 0; 0; 1]%nat))
     = true.
Proof. split; reflexivity. Qed.

(** C4 (as the code has it): when some invocation raises, the main thread
    does observe a failure; every item was handed to the pool before the
    main thread collected anything, so no submission follows that
    observation; yet the work items still queued at that moment are started
    by the workers all the same: when the call ends every invocation has
    been started and has finished. *)
Theorem do_parallel_submits_before_observing {A R} (func : A -> R + exn)
        (args_list : list A) (n : Z) (sched : list nat)
        (Hn : n = -1 \/ 1 <= n)
        (Hbad : exists a e, In a args_list /\ func a = inr e) :
  let tr := fst (Utils.do_parallel func args_list n sched) in
  existsb Utils.is_observed tr = true
  /\ Trace.occurs_after Utils.is_submitted Utils.is_observed tr = false
  /\ (forall i, (i < length args_list)%nat ->
        In (Utils.Started i) tr /\ In (Utils.Finished i) tr).
Proof.
  assert (Hne : args_list <> []) by (destruct Hbad as (a & _ & Ha & _); now intros ->).
  destruct (do_parallel_run func args_list n sched Hne Hn) as (m & s & Hm & Hrun & HI & Hc).
  destruct (exit_failed func m args_list s HI Hc Hbad) as (e' & Ef).
  rewrite Hrun. simpl. split; [|split].
  - destruct HI as (_ & _ & _ & (_ & _ & _ & Hob)). apply Hob. congruence.
  - apply HI.
  - intros i Hi. now apply (exit_drained func m args_list s i HI Hc Hi).
Qed.

Lemma do_parallel_submits_before_observing_witness :
  let tr := fst (Utils.do_parallel Examples.flaky [7; 2]%nat 1 [0; 0; 0; 0; 1]%nat) in
  existsb Utils.is_observed tr = true
  /\ Trace.occurs_after Utils.is_submitted Utils.is_observed tr = false
  /\ (forall i, (i < length [7; 2]%nat)%nat ->
        In (Utils.Started i) tr /\ In (Utils.Finished i) tr).
Proof.
  apply (do_parallel_submits_before_observing Examples.flaky [7; 2]%nat 1
                                              [0; 0; 0; 0; 1]%nat).
  - right. lia.
  - exists 7%nat, (RemoteError "boom"). split; [simpl; auto | reflexivity].
Defined.

(** * Further properties *)

(** ** [do_parallel]: order and number of the invocations *)

Section PoolOrder.

Import Utils PoolTrace.
Context {A R : Type}.
Variable func : A -> R + exn.
Variable m : nat.
Variable args_list : list A.

Implicit Types (s : pool (A:=A) (R:=R)) (a : action).

Local Abbreviation in_order := (PoolTrace.in_order (R:=R) args_list).
Local Abbreviation in_flight := (PoolTrace.in_flight (A:=A) (R:=R) m).
Local Abbreviation blamed := (PoolTrace.blamed func args_list).
Local Abbreviation result_at := (PoolTrace.result_at func args_list).

Lemma firstn_snoc {X} (k : nat) (l : list X) (e : X) :
  firstn k (l ++ [e]) = firstn k l \/ firstn k (l ++ [e]) = l ++ [e].
Proof.
  destruct (Nat.le_gt_cases k (length l)) as [Hk|Hk].
  - left. rewrite firstn_app. replace (k - length l)%nat with 0%nat by lia.
    simpl. now rewrite app_nil_r.
  - right. apply firstn_all2. rewrite length_app. simpl. lia.
Qed.

Lemma map_fst_combine_seq {X} (l : list X) (i : nat) :
  List.map fst (combine (List.seq i (length l)) l) = List.seq i (length l).
Proof.
  revert i; induction l as [|x l IH]; intros i; simpl; [reflexivity|].
  now rewrite IH.
Qed.

Lemma nth_error_indexed (l : list A) (x : nat * A) :
  In x (indexed l) -> nth_error l (fst x) = Some (snd x).
Proof.
  unfold indexed. intros H.
  assert (G : forall b (l' : list A) y,
             In y (combine (List.seq b (length l')) l') ->
             (b <= fst y)%nat /\ nth_error l' (fst y - b) = Some (snd y)).
  { intros b l'. revert b. induction l' as [|z l' IH]; intros b y Hy; simpl in Hy; [easy|].
    destruct Hy as [<-|Hy]; simpl.
    - split; [lia|]. now rewrite Nat.sub_diag.
    - destruct (IH (S b) y Hy) as [Hb Hn]. split; [lia|].
      replace (fst y - b)%nat with (S (fst y - S b)) by lia. exact Hn. }
  destruct (G 0%nat l x H) as [_ Hn]. now rewrite Nat.sub_0_r in Hn.
Qed.

Lemma step_trace a s : ptrace (step func a s) = ptrace s ++ added a s.
Proof.
  destruct a; simpl.
  - destruct (to_submit s); simpl; now rewrite ?app_nil_r.
  - destruct (queue s); simpl; now rewrite ?app_nil_r.
  - destruct (CliHelper.extract k (running s)) as [[x rest]|]; simpl; now rewrite ?app_nil_r.
  - destruct (CliHelper.extract k (done_ s)) as [[[[i x] [r|e]] rest]|]; simpl;
      now rewrite ?app_nil_r.
  - now rewrite app_nil_r.
Qed.

Lemma in_order_init : in_order (init m args_list).
Proof.
  unfold in_order, init, indexed. simpl.
  now rewrite map_fst_combine_seq.
Qed.

Lemma in_order_step a s :
  in_order s -> can m a s = true -> in_order (step func a s).
Proof.
  intros [Hs Hb] Hc. unfold PoolTrace.in_order, started, submitted in *.
  rewrite step_trace, !flat_map_app. destruct a; simpl in *.
  - destruct (to_submit s) as [|x rest] eqn:E; simpl in *.
    + rewrite andb_false_r in Hc. discriminate.
    + rewrite map_app, <- !app_assoc. simpl. auto.
  - destruct (queue s) as [|x rest] eqn:E; simpl in *; [discriminate|].
    rewrite <- ?app_assoc. simpl. rewrite ?app_nil_r. auto.
  - destruct (CliHelper.extract k (running s)) as [[x rest]|]; simpl;
      rewrite !app_nil_r; auto.
  - destruct (CliHelper.extract k (done_ s)) as [[[[i x] [r|e]] rest]|]; simpl;
      rewrite !app_nil_r; auto.
  - rewrite !app_nil_r. auto.
Qed.

Lemma in_flight_init : in_flight (init m args_list).
Proof.
  unfold in_flight, init. simpl. repeat split; try lia.
  intros [|k]; simpl; [lia|]. rewrite firstn_nil. simpl. lia.
Qed.

Lemma in_flight_extend s s' e :
  ptrace s' = ptrace s ++ [e] ->
  (length (running s') <= m)%nat ->
  length (started (ptrace s ++ [e]))
  = (length (finished (ptrace s ++ [e])) + length (running s'))%nat ->
  in_flight s -> in_flight s'.
Proof.
  intros Htr Hrun Hcount (_ & _ & Hall). unfold in_flight. rewrite Htr.
  repeat split; auto.
  intros k. destruct (firstn_snoc k (ptrace s) e) as [-> | ->]; [apply Hall | lia].
Qed.

Lemma in_flight_step a s :
  in_flight s -> can m a s = true -> in_flight (step func a s).
Proof.
  intros HI Hc. pose proof HI as (Hrun & Hcount & _).
  unfold started, finished in *. destruct a; simpl in *.
  - destruct (to_submit s) as [|x rest] eqn:E; [exact HI|].
    apply (in_flight_extend s _ (Submitted (fst x))); simpl; auto.
    unfold started, finished. rewrite !flat_map_app, !length_app. simpl. lia.
  - apply andb_prop in Hc as [_ Hlt]. apply Nat.ltb_lt in Hlt.
    destruct (queue s) as [|x rest] eqn:E; [exact HI|].
    apply (in_flight_extend s _ (Started (fst x))); simpl; auto.
    + rewrite length_app. simpl. lia.
    + unfold started, finished. rewrite !flat_map_app, !length_app. simpl. lia.
  - destruct (CliHelper.extract k (running s)) as [[x rest]|] eqn:E; [|exact HI].
    pose proof (extract_length _ _ _ _ E) as HL.
    apply (in_flight_extend s _ (Finished (fst x))); simpl; auto.
    + lia.
    + unfold started, finished. rewrite !flat_map_app, !length_app. simpl. lia.
  - destruct (CliHelper.extract k (done_ s)) as [[[[i x] [r|e]] rest]|] eqn:E;
      [| | exact HI].
    + apply (in_flight_extend s _ (Yielded i)); simpl; auto.
      unfold started, finished. rewrite !flat_map_app, !length_app. simpl. lia.
    + apply (in_flight_extend s _ (Observed i)); simpl; auto.
      unfold started, finished. rewrite !flat_map_app, !length_app. simpl. lia.
  - exact HI.
Qed.

Lemma blamed_init : blamed (init m args_list).
Proof.
  unfold PoolTrace.blamed, init. simpl. split; [|split; [|auto]].
  - intros x Hx. rewrite !app_nil_r in Hx. now apply nth_error_indexed.
  - intros fut [].
Qed.

Ltac members :=
  repeat first
    [ match goal with
      | H : context [In _ (_ ++ _)] |- _ => rewrite in_app_iff in H
      | |- context [In _ (_ ++ _)] => rewrite in_app_iff
      end
    | progress simpl in * ].

Lemma blamed_step a s :
  blamed s -> can m a s = true -> blamed (step func a s).
Proof.
  intros (Hw & Hd & Hr & Hf) Hc. unfold PoolTrace.blamed, yielded, observed in *.
  rewrite step_trace, !flat_map_app. destruct a; simpl in *.
  - destruct (to_submit s) as [|x rest] eqn:E; simpl in *.
    + rewrite andb_false_r in Hc. discriminate.
    + rewrite !app_nil_r. split; [|auto].
      intros y Hy. apply Hw. members. tauto.
  - destruct (queue s) as [|x rest] eqn:E; simpl in *; [discriminate|].
    rewrite !app_nil_r. split; [|auto].
    intros y Hy. apply Hw. members. tauto.
  - destruct (CliHelper.extract k (running s)) as [[x rest]|] eqn:E; simpl;
      rewrite !app_nil_r; [|auto].
    assert (Hx : forall y, In y (running s) <-> y = x \/ In y rest)
      by (intros y; apply (in_extract _ _ _ _ y E)).
    split; [|split; [|auto]].
    + intros y Hy. apply Hw. members. rewrite Hx. tauto.
    + intros fut Hin. apply in_app_or in Hin as [Hin|[<-|[]]]; [now apply Hd|].
      simpl. split; [|reflexivity]. apply (Hw x). members. rewrite Hx. auto.
  - apply andb_prop in Hc as [Hc _]. apply andb_prop in Hc as [Hnf _].
    unfold no_failure in Hnf. destruct (failure s) eqn:Ef; [discriminate|].
    destruct (CliHelper.extract k (done_ s)) as [[[[i x] [r|e]] rest]|] eqn:E; simpl;
      rewrite ?app_nil_r; [| | rewrite ?Ef; auto].
    + assert (Hx : forall y, In y (done_ s) <-> y = (i, x, inl r) \/ In y rest)
        by (intros y; apply (in_extract _ _ _ _ y E)).
      destruct (Hd (i, x, inl r)) as [Hn Ho]; [apply Hx; auto|]. simpl in *.
      split; [auto|]. split; [intros fut Hin; apply Hd, Hx; auto|].
      split; [|rewrite ?Ef; auto].
      rewrite Hr. f_equal. unfold PoolTrace.result_at. now rewrite Hn, <- Ho.
    + assert (Hx : forall y, In y (done_ s) <-> y = (i, x, inr e) \/ In y rest)
        by (intros y; apply (in_extract _ _ _ _ y E)).
      destruct (Hd (i, x, inr e)) as [Hn Ho]; [apply Hx; auto|]. simpl in *.
      split; [auto|]. split; [intros fut Hin; apply Hd, Hx; auto|].
      split; [now rewrite ?app_nil_r|].
      rewrite ?Hf. simpl. exists i, x. auto.
  - rewrite !app_nil_r. auto.
Qed.

Lemma each_once_init : PoolTrace.each_once args_list (init (R:=R) m args_list).
Proof.
  unfold PoolTrace.each_once, init, indexed. simpl.
  rewrite map_fst_combine_seq, !app_nil_r. reflexivity.
Qed.

Lemma each_once_step a s :
  PoolTrace.each_once args_list s -> can m a s = true ->
  PoolTrace.each_once args_list (step func a s).
Proof.
  intros HI Hc. unfold PoolTrace.each_once, yielded, observed in *.
  rewrite <- HI, step_trace, !flat_map_app. destruct a; simpl in *.
  - destruct (to_submit s) as [|x rest] eqn:E; simpl in *.
    + rewrite andb_false_r in Hc. discriminate.
    + rewrite map_app, !app_nil_r. simpl. solve_Permutation.
  - destruct (queue s) as [|x rest] eqn:E; simpl in *; [discriminate|].
    rewrite map_app, !app_nil_r. simpl. solve_Permutation.
  - destruct (CliHelper.extract k (running s)) as [[x rest]|] eqn:E; simpl;
      rewrite !app_nil_r; [|reflexivity].
    rewrite (extract_perm _ _ _ _ E), map_app. simpl. solve_Permutation.
  - destruct (CliHelper.extract k (done_ s)) as [[[[i x] [r|e]] rest]|] eqn:E; simpl;
      rewrite ?app_nil_r; [| |reflexivity];
      rewrite (extract_perm _ _ _ _ E); simpl; solve_Permutation.
  - rewrite !app_nil_r. reflexivity.
Qed.

(** what is left when the [with] block is left: nothing *)
Lemma exit_empty s :
  pool_inv func args_list s -> can m AExit s = true ->
  to_submit s = [] /\ queue s = [] /\ running s = []
  /\ (failure s = None -> done_ s = []).
Proof.
  intros (_ & _ & _ & (_ & _ & Hts & _)) Hc. simpl in Hc.
  unfold no_failure in Hc. destruct (failure s) eqn:Ef.
  - apply andb_prop in Hc as [Hq Hr].
    destruct (queue s), (running s); try discriminate.
    split; [apply Hts; discriminate | split; [reflexivity | split; [reflexivity | discriminate]]].
  - apply andb_prop in Hc as [Hc Hd]. apply andb_prop in Hc as [Hc Hr].
    apply andb_prop in Hc as [Hts' Hq].
    destruct (to_submit s), (queue s), (running s), (done_ s); try discriminate. auto.
Qed.

End PoolOrder.

(** the call once more, with the further invariants *)
Lemma do_parallel_scheduled {A R} (func : A -> R + exn) (args_list : list A) (n : Z)
      (sched : list nat) :
  args_list <> [] -> n = -1 \/ 1 <= n ->
  exists s,
    Utils.do_parallel func args_list n sched = (Utils.ptrace s, Utils.outcome s)
    /\ PoolTrace.scheduled func (PoolTrace.width n (length args_list)) args_list s
    /\ Utils.pool_inv func args_list s
    /\ Utils.can (PoolTrace.width n (length args_list)) Utils.AExit s = true.
Proof.
  intros Hne Hn. unfold Utils.do_parallel, PoolTrace.width.
  assert (Hlen : length args_list <> 0%nat) by (destruct args_list; simpl; congruence).
  apply Nat.eqb_neq in Hlen as Hlen'. rewrite Hlen'.
  destruct (workers_positive n _ Hlen Hn) as [-> Hm].
  set (m := Z.to_nat _) in *.
  set (Inv := fun s => PoolTrace.scheduled func m args_list s /\ Utils.pool_inv func args_list s).
  assert (Hstep : forall a s, Inv s -> Utils.can m a s = true -> Inv (Utils.step func a s)).
  { intros a s [(H1 & H2 & H3) H4] Hc.
    split; [split; [|split; [|split]]|].
    - now apply (in_order_step func m).
    - now apply (in_flight_step func m).
    - now apply (blamed_step func m).
    - now apply (each_once_step func m).
    - now apply (pool_inv_step func m). }
  assert (Hinit : Inv (Utils.init m args_list)).
  { split; [|apply pool_inv_init].
    split; [apply in_order_init |
            split; [apply in_flight_init | split; [apply blamed_init | apply each_once_init]]]. }
  pose proof (run_invariant func m Inv Hstep (4 * length args_list + 1) sched
                (Utils.init m args_list) Hinit) as (HI & Hr).
  pose proof (run_total func m (4 * length args_list + 1) sched
                (Utils.init m args_list) Hm) as Ht.
  destruct (Utils.run func m (4 * length args_list + 1) sched (Utils.init m args_list))
    as [s r].
  simpl in *. exists s. destruct Hr as [Hr | (Hc & Hr)].
  - exfalso. apply Ht; [|exact Hr]. unfold Utils.work, Utils.init. simpl.
    rewrite length_indexed. lia.
  - subst r. destruct HI. auto.
Qed.



(** X2: the items are handed to the pool in the order of the input, each
    exactly once. *)
Theorem do_parallel_submits_in_input_order {A R} (func : A -> R + exn)
        (args_list : list A) (n : Z) (sched : list nat)
        (Hn : n = -1 \/ 1 <= n) :
  PoolTrace.submitted (fst (Utils.do_parallel func args_list n sched))
  = List.seq 0 (length args_list).
Proof.
  destruct args_list as [|a0 l] eqn:El; [reflexivity|]. rewrite <- El in *.
  destruct (do_parallel_scheduled func args_list n sched) as (s & Hrun & HS & HI & Hc);
    [subst; discriminate | assumption |].
  rewrite Hrun. simpl.
  destruct (exit_empty func _ args_list s HI Hc) as (E1 & _).
  destruct HS as ((_ & Hs) & _). rewrite E1 in Hs. simpl in Hs.
  now rewrite !app_nil_r in Hs.
Qed.

Lemma do_parallel_submits_in_input_order_witness :
  PoolTrace.submitted
    (fst (Utils.do_parallel Examples.square [4; 5; 6]%nat (-1) [1; 1; 0; 2]%nat))
  = [0; 1; 2]%nat.
Proof.
  apply (do_parallel_submits_in_input_order Examples.square [4; 5; 6]%nat (-1)
                                            [1; 1; 0; 2]%nat).
  left. reflexivity.
Defined.

(** X3: at no moment of a run are more than [max_workers] invocations in
    flight: in every prefix of the trace the invocations started exceed the
    invocations finished by at most the width of the pool. *)
Theorem do_parallel_bounded_concurrency {A R} (func : A -> R + exn)
        (args_list : list A) (n : Z) (sched : list nat) (k : nat)
        (Hn : n = -1 \/ 1 <= n) :
  (length (PoolTrace.started (firstn k (fst (Utils.do_parallel func args_list n sched))))
   <= length (PoolTrace.finished
                (firstn k (fst (Utils.do_parallel func args_list n sched))))
      + PoolTrace.width n (length args_list))%nat.
Proof.
  destruct args_list as [|a0 l] eqn:El.
  { simpl. rewrite firstn_nil. simpl. lia. }
  rewrite <- El in *.
  destruct (do_parallel_scheduled func args_list n sched) as (s & Hrun & HS & HI & Hc);
    [subst; discriminate | assumption |].
  rewrite Hrun. simpl. destruct HS as (_ & (_ & _ & Hall) & _). apply Hall.
Qed.

Lemma do_parallel_bounded_concurrency_witness :
  (length (PoolTrace.started
             (firstn 6 (fst (Utils.do_parallel Examples.square [1; 2; 3; 4]%nat 2
                                               [1; 1; 1; 0]%nat))))
   <= length (PoolTrace.finished
                (firstn 6 (fst (Utils.do_parallel Examples.square [1; 2; 3; 4]%nat 2
                                                  [1; 1; 1; 0]%nat))))
      + PoolTrace.width 2 (length [1; 2; 3; 4]%nat))%nat.
Proof.
  apply (do_parallel_bounded_concurrency Examples.square [1; 2; 3; 4]%nat 2
                                         [1; 1; 1; 0]%nat 6).
  right. lia.
Defined.

(** X4: when some invocation raises, exactly one failing future is
    observed by the main thread, and the exception that leaves the call is
    the one [func] raised on the item of that future. *)
Theorem do_parallel_raises_the_observed_failure {A R} (func : A -> R + exn)
        (args_list : list A) (n : Z) (sched : list nat)
        (Hn : n = -1 \/ 1 <= n)
        (Hbad : exists a e, In a args_list /\ func a = inr e) :
  exists i x e,
    snd (Utils.do_parallel func args_list n sched) = Raise e
    /\ PoolTrace.observed (fst (Utils.do_parallel func args_list n sched)) = [i]
    /\ nth_error args_list i = Some x
    /\ func x = inr e.
Proof.
  assert (Hne : args_list <> []) by (destruct Hbad as (a & _ & Ha & _); now intros ->).
  destruct (do_parallel_scheduled func args_list n sched Hne Hn)
    as (s & Hrun & HS & HI & Hc).
  destruct (exit_failed func _ args_list s HI Hc Hbad) as (e & Ef).
  destruct HS as (_ & _ & (_ & _ & _ & Hf) & _). rewrite Ef in Hf.
  destruct Hf as (i & x & Ho & Hx & Hfx).
  exists i, x, e. rewrite Hrun. simpl. unfold Utils.outcome. rewrite Ef. auto.
Qed.

Lemma do_parallel_raises_the_observed_failure_witness :
  exists i x e,
    snd (Utils.do_parallel Examples.flaky [1; 7; 2]%nat 2 [0; 1; 1]%nat) = Raise e
    /\ PoolTrace.observed
         (fst (Utils.do_parallel Examples.flaky [1; 7; 2]%nat 2 [0; 1; 1]%nat)) = [i]
    /\ nth_error [1; 7; 2]%nat i = Some x
    /\ Examples.flaky x = inr e.
Proof.
  apply (do_parallel_raises_the_observed_failure Examples.flaky [1; 7; 2]%nat 2
                                                 [0; 1; 1]%nat).
  - right. lia.
  - exists 7%nat, (RemoteError "boom"). split; [simpl; auto | reflexivity].
Defined.

(** X5: when no invocation raises, the returned list follows the order in
    which the main thread picked up the futures (not the input order):
    the indices picked up are a permutation of all indices, and the list
    holds, index by index, the item at that index with the result of
    [func] on it. *)
Theorem do_parallel_results_in_collection_order {A R} (func : A -> R + exn)
        (args_list : list A) (n : Z) (sched : list nat)
        (Hn : n = -1 \/ 1 <= n)
        (Hok : forall a, In a args_list -> exists r, func a = inl r) :
  let picked := PoolTrace.yielded (fst (Utils.do_parallel func args_list n sched)) in
  Permutation picked (List.seq 0 (length args_list))
  /\ snd (Utils.do_parallel func args_list n sched)
     = Val (flat_map (PoolTrace.result_at func args_list) picked).
Proof.
  destruct args_list as [|a0 l] eqn:El; [split; reflexivity|]. rewrite <- El in *.
  destruct (do_parallel_scheduled func args_list n sched) as (s & Hrun & HS & HI & Hc);
    [subst; discriminate | assumption |].
  assert (Hf : Utils.failure s = None).
  { destruct (Utils.failure s) as [e|] eqn:Ef; [|reflexivity].
    destruct HI as (_ & (_ & _ & He) & _).
    destruct (He e Ef) as (x & Hx & Hfx). destruct (Hok x Hx) as (r & Hr). congruence. }
  destruct (exit_empty func _ args_list s HI Hc) as (E1 & E2 & E3 & E4).
  destruct HS as (_ & _ & (_ & _ & Hr & Hob) & Hperm).
  rewrite Hf in Hob. unfold PoolTrace.each_once in Hperm.
  rewrite E1, E2, E3, (E4 Hf), Hob in Hperm. simpl in Hperm.
  rewrite app_nil_r in Hperm.
  rewrite Hrun. simpl. unfold Utils.outcome. rewrite Hf, Hr. auto.
Qed.

Lemma do_parallel_results_in_collection_order_witness :
  let picked :=
    PoolTrace.yielded
      (fst (Utils.do_parallel Examples.square [1; 2; 3]%nat 3
                              [0; 0; 0; 0; 0; 0; 2; 1; 0; 1]%nat)) in
  Permutation picked (List.seq 0 (length [1; 2; 3]%nat))
  /\ snd (Utils.do_parallel Examples.square [1; 2; 3]%nat 3
                            [0; 0; 0; 0; 0; 0; 2; 1; 0; 1]%nat)
     = Val (flat_map (PoolTrace.result_at Examples.square [1; 2; 3]%nat) picked).
Proof.
  apply (do_parallel_results_in_collection_order Examples.square [1; 2; 3]%nat 3
                                                 [0; 0; 0; 0; 0; 0; 2; 1; 0; 1]%nat).
  - right. lia.
  - intros a _. eexists. reflexivity.
Defined.

(** ** [ConcurrentCounter] *)

Section CounterFacts.

Import Counter.

Lemma wrap32_id z : int32 z -> wrap32 z = z.
Proof. unfold int32, wrap32. intros H. rewrite Z.mod_small; lia. Qed.

Lemma wrap32_add z n : wrap32 (wrap32 z + n) = wrap32 (z + n).
Proof.
  unfold wrap32.
  replace ((z + 2 ^ 31) mod 2 ^ 32 - 2 ^ 31 + n + 2 ^ 31)
    with ((z + 2 ^ 31) mod 2 ^ 32 + n) by lia.
  rewrite Zplus_mod_idemp_l. f_equal. f_equal. lia.
Qed.

Lemma increment_clamped c n m M :
  min_value c = Some m -> max_value c = Some M ->
  int32 m -> int32 M -> m <= M ->
  m <= val (increment c n) <= M.
Proof.
  intros Hmin Hmax Hm HM Hle. unfold increment. rewrite Hmin, Hmax. cbn [val].
  rewrite wrap32_id; unfold int32 in *; lia.
Qed.

Lemma increments_clamped ns : forall c m M,
  min_value c = Some m -> max_value c = Some M ->
  int32 m -> int32 M -> m <= M ->
  m <= val c <= M ->
  m <= val (increments c ns) <= M.
Proof.
  induction ns as [|n ns IH]; intros c m M Hmin Hmax Hm HM Hle Hc; [exact Hc|].
  apply IH; auto. now apply increment_clamped.
Qed.

Lemma increments_unbounded ns : forall v,
  val (increments (mk (wrap32 v) None None) ns) = wrap32 (v + fold_right Z.add 0 ns).
Proof.
  induction ns as [|n ns IH]; intros v; cbn [increments fold_left fold_right val].
  - now rewrite Z.add_0_r.
  - change (increment (mk (wrap32 v) None None) n)
      with (mk (wrap32 (wrap32 v + n)) None None).
    rewrite wrap32_add. fold (increments (mk (wrap32 (v + n)) None None) ns).
    rewrite IH. f_equal. lia.
Qed.

Lemma sum_permutation (l l' : list Z) :
  Permutation l l' -> fold_right Z.add 0 l = fold_right Z.add 0 l'.
Proof. induction 1; simpl; lia. Qed.

End CounterFacts.

(** X6: a counter made with a minimum and a maximum that fit in 32 bits,
    the minimum not above the maximum, holds a value between the two after
    every run of one or more increments, however large they are (the
    initial value 0 is not clamped). *)
Theorem counter_stays_within_bounds (m M : Z) (ns : list Z)
        (Hm : Counter.int32 m) (HM : Counter.int32 M) (Hle : m <= M)
        (Hns : ns <> []) :
  m <= Counter.value (Counter.increments (Counter.init (Some m) (Some M)) ns) <= M.
Proof.
  destruct ns as [|n ns]; [congruence|]. unfold Counter.value. simpl.
  apply increments_clamped; auto. now apply increment_clamped.
Qed.

Lemma counter_stays_within_bounds_witness :
  5 <= Counter.value (Counter.increments (Counter.init (Some 5) (Some 10))
                                         [1; 2 ^ 40; - 3]) <= 10.
Proof.
  apply (counter_stays_within_bounds 5 10 [1; 2 ^ 40; - 3]).
  - unfold Counter.int32. lia.
  - unfold Counter.int32. lia.
  - lia.
  - discriminate.
Defined.

(** X7: a counter without bounds holds the sum of its increments, reduced
    to 32 bits; so the order in which concurrent increments take the lock
    does not change the final value. *)
Theorem counter_unbounded_is_sum (ns ns' : list Z) (Hperm : Permutation ns ns') :
  Counter.value (Counter.increments (Counter.init None None) ns)
  = Counter.wrap32 (fold_right Z.add 0 ns)
  /\ Counter.value (Counter.increments (Counter.init None None) ns')
     = Counter.value (Counter.increments (Counter.init None None) ns).
Proof.
  assert (H : forall l, Counter.value (Counter.increments (Counter.init None None) l)
                        = Counter.wrap32 (fold_right Z.add 0 l)).
  { intros l. unfold Counter.value, Counter.init.
    change 0 with (Counter.wrap32 0) at 1. now rewrite increments_unbounded. }
  split; [apply H|]. rewrite !H. f_equal. symmetry.
  now apply sum_permutation.
Qed.

Lemma counter_unbounded_is_sum_witness :
  Counter.value (Counter.increments (Counter.init None None) [2 ^ 31 - 1; 5; - 7])
  = Counter.wrap32 (fold_right Z.add 0 [2 ^ 31 - 1; 5; - 7])
  /\ Counter.value (Counter.increments (Counter.init None None) [5; 2 ^ 31 - 1; - 7])
     = Counter.value (Counter.increments (Counter.init None None) [2 ^ 31 - 1; 5; - 7]).
Proof.
  apply (counter_unbounded_is_sum [2 ^ 31 - 1; 5; - 7] [5; 2 ^ 31 - 1; - 7]).
  apply perm_swap.
Defined.

(** X8: without a maximum the minimum is no invariant: an increment that
    takes the value past [2^31 - 1] wraps around to a negative number,
    which is stored as it is, below the minimum. *)
Theorem counter_minimum_lost_on_overflow (c : Counter.t) (m n : Z)
        (Hmin : Counter.min_value c = Some m)
        (Hmax : Counter.max_value c = None)
        (Hm : Counter.int32 m)
        (Hover : 2 ^ 31 <= Counter.val c + n < 2 ^ 32 + m) :
  Counter.value (Counter.increment c n) = Counter.val c + n - 2 ^ 32
  /\ Counter.value (Counter.increment c n) < m.
Proof.
  unfold Counter.value, Counter.increment, Counter.int32 in *.
  rewrite Hmin, Hmax. cbn [Counter.val].
  rewrite Z.max_l by lia.
  assert (E : Counter.wrap32 (Counter.val c + n) = Counter.val c + n - 2 ^ 32).
  { unfold Counter.wrap32.
    replace (Counter.val c + n + 2 ^ 31)
      with (Counter.val c + n - 2 ^ 31 + 1 * 2 ^ 32) by lia.
    rewrite Z_mod_plus_full, Z.mod_small; lia. }
  rewrite E. lia.
Qed.

Lemma counter_minimum_lost_on_overflow_witness :
  Counter.value (Counter.increment (Counter.mk (2 ^ 31 - 1) (Some 0) None) 1)
  = 2 ^ 31 - 1 + 1 - 2 ^ 32
  /\ Counter.value (Counter.increment (Counter.mk (2 ^ 31 - 1) (Some 0) None) 1) < 0.
Proof.
  apply (counter_minimum_lost_on_overflow (Counter.mk (2 ^ 31 - 1) (Some 0) None) 0 1).
  - reflexivity.
  - reflexivity.
  - unfold Counter.int32. lia.
  - simpl. lia.
Defined.

(** ** [wait_for] *)

Section WaitForFacts.

Import WaitFor.

Variable fn : nat -> bool.
Variable timeout : Q.
Variable clock : nat -> Q.





End WaitForFacts.




(** ** [deprovision_skylark_instances] *)

Section DefaultPool.

Context {A R : Type}.
Variable func : A -> R + exn.

Local Abbreviation returned := (PoolTrace.returned func).

Lemma result_at_seq (pre l : list A) :
  flat_map (PoolTrace.result_at func (pre ++ l)) (List.seq (length pre) (length l))
  = returned l.
Proof.
  revert pre. induction l as [|x l IH]; intros pre; [reflexivity|].
  unfold PoolTrace.returned. cbn [length List.seq flat_map]. f_equal.
  - unfold PoolTrace.result_at.
    rewrite nth_error_app2, Nat.sub_diag by lia. reflexivity.
  - specialize (IH (pre ++ [x])). rewrite <- app_assoc, length_app in IH. simpl in IH.
    rewrite Nat.add_1_r in IH. exact IH.
Qed.

Lemma either_all_or_one (l : list A) :
  (forall a, In a l -> exists r, func a = inl r)
  \/ (exists a e, In a l /\ func a = inr e).
Proof.
  induction l as [|x l [IH|(a & e & Ha & He)]].
  - left. intros a [].
  - destruct (func x) as [r|e] eqn:E.
    + left. intros a [<-|Ha]; eauto.
    + right. exists x, e. split; [now left | exact E].
  - right. exists a, e. split; [now right | exact He].
Qed.

Variable sched : list nat.

Lemma default_started (args_list : list A) :
  PoolTrace.started (fst (Utils.do_parallel func args_list (-1) sched))
  = List.seq 0 (length args_list).
Proof.
  destruct args_list as [|a0 l] eqn:El; [reflexivity|]. rewrite <- El in *.
  destruct (do_parallel_scheduled func args_list (-1) sched) as (s & Hrun & HS & HI & Hc);
    [subst; discriminate | now left |].
  rewrite Hrun. simpl.
  destruct (exit_empty func _ args_list s HI Hc) as (E1 & E2 & _).
  destruct HS as ((Hs & _) & _). rewrite E1, E2 in Hs. simpl in Hs.
  now rewrite !app_nil_r in Hs.
Qed.

Lemma default_returns (args_list : list A) :
  snd (Utils.do_parallel func args_list (-1) sched) <> OutOfFuel.
Proof.
  destruct args_list as [|a0 l] eqn:El; [discriminate|]. rewrite <- El in *.
  destruct (do_parallel_scheduled func args_list (-1) sched) as (s & Hrun & _);
    [subst; discriminate | now left |].
  rewrite Hrun. simpl. unfold Utils.outcome. destruct (Utils.failure s); discriminate.
Qed.

Lemma default_collected (args_list : list A) :
  (forall a, In a args_list -> exists r, func a = inl r) ->
  exists rs, snd (Utils.do_parallel func args_list (-1) sched) = Val rs
             /\ Permutation rs (returned args_list).
Proof.
  intros Hok. destruct args_list as [|a0 l] eqn:El; [exists []; split; reflexivity|].
  rewrite <- El in *.
  destruct (do_parallel_scheduled func args_list (-1) sched) as (s & Hrun & HS & HI & Hc);
    [subst; discriminate | now left |].
  assert (Hf : Utils.failure s = None).
  { destruct (Utils.failure s) as [e|] eqn:Ef; [|reflexivity].
    destruct HI as (_ & (_ & _ & He) & _).
    destruct (He e Ef) as (x & Hx & Hfx). destruct (Hok x Hx) as (r & Hr). congruence. }
  destruct (exit_empty func _ args_list s HI Hc) as (E1 & E2 & E3 & E4).
  destruct HS as (_ & _ & (_ & _ & Hr & Hob) & Hperm).
  rewrite Hf in Hob. unfold PoolTrace.each_once in Hperm.
  rewrite E1, E2, E3, (E4 Hf), Hob in Hperm. simpl in Hperm.
  rewrite app_nil_r in Hperm.
  exists (Utils.results s). rewrite Hrun. simpl. unfold Utils.outcome. rewrite Hf.
  split; [reflexivity|]. rewrite Hr, <- (result_at_seq [] args_list). simpl.
  now apply Permutation_flat_map.
Qed.

Lemma default_raises (args_list : list A) :
  (exists a e, In a args_list /\ func a = inr e) ->
  exists a e, In a args_list /\ func a = inr e
              /\ snd (Utils.do_parallel func args_list (-1) sched) = Raise e.
Proof.
  intros Hbad.
  assert (Hne : args_list <> []) by (destruct Hbad as (a & _ & Ha & _); now intros ->).
  destruct (do_parallel_scheduled func args_list (-1) sched Hne) as (s & Hrun & HS & HI & Hc);
    [now left|].
  destruct (exit_failed func _ args_list s HI Hc Hbad) as (e & Ef).
  destruct HS as (_ & _ & (_ & _ & _ & Hf) & _). rewrite Ef in Hf.
  destruct Hf as (i & x & Ho & Hx & Hfx).
  exists x, e. split; [now apply nth_error_In with i|]. split; [exact Hfx|].
  rewrite Hrun. simpl. unfold Utils.outcome. now rewrite Ef.
Qed.

End DefaultPool.

Section DeprovisionFacts.

Import Deprovision.

Context {I : Type}.
Variable p : providers I.
Variables azure_subscription gcp_project_id : option string.
Variables sched_list sched_terminate : list nat.

Lemma nth_error_seq (pre l : list I) :
  flat_map (fun i => match nth_error (pre ++ l) i with Some x => [x] | None => [] end)
           (List.seq (length pre) (length l))
  = l.
Proof.
  revert pre. induction l as [|x l IH]; intros pre; [reflexivity|].
  cbn [length List.seq flat_map].
  rewrite nth_error_app2, Nat.sub_diag by lia. simpl. f_equal.
  specialize (IH (pre ++ [x])). rewrite <- app_assoc, length_app in IH. simpl in IH.
  rewrite Nat.add_1_r in IH. exact IH.
Qed.

Lemma attempted_all (instances : list I) :
  attempted instances
            (fst (Utils.do_parallel (terminate_instance p) instances (-1) sched_terminate))
  = instances.
Proof. unfold attempted. rewrite default_started. apply (nth_error_seq []). Qed.

Lemma terminated_app (a b : list (event I)) :
  terminated (a ++ b) = terminated a ++ terminated b.
Proof.
  induction a as [|[?|?|? ?] a IH]; simpl; auto. now rewrite IH, app_assoc.
Qed.

Lemma optional_quiet id matching warning :
  terminated (fst (optional_provider (I:=I) id matching warning)) = [].
Proof. unfold optional_provider. now destruct (given id). Qed.

Lemma snd_returned (f : string -> list I + exn) (l : list string) :
  flat_map snd (PoolTrace.returned f l) = flat_map (fun x => found (f x)) l.
Proof.
  induction l as [|x l IH]; [reflexivity|]. unfold PoolTrace.returned in *. simpl.
  rewrite flat_map_app, IH. destruct (f x); simpl; now rewrite ?app_nil_r.
Qed.

Lemma optional_found id matching warning l :
  snd (optional_provider (I:=I) id matching warning) = inl l ->
  l = match given id with Some x => found (matching x) | None => [] end.
Proof.
  unfold optional_provider. destruct (given id); simpl.
  - now intros ->.
  - now intros [= <-].
Qed.

Lemma optional_failed id matching warning x e :
  given id = Some x -> matching x = inr e ->
  snd (optional_provider (I:=I) id matching warning) = inr e.
Proof. unfold optional_provider. now intros -> ->. Qed.

End DeprovisionFacts.

(** X11: when every listing succeeds, [terminate_instance] is started on
    every instance the listings found, each exactly once, also when some
    of these calls raise. The call returns when all of them return, and
    raises the exception of one of them otherwise. *)
Theorem deprovision_terminates_every_instance {I} (p : Deprovision.providers I)
        (azure_subscription gcp_project_id : option string)
        (sched_list sched_terminate : list nat)
        (Haws : forall region, In region (Deprovision.region_list p) ->
                  exists l, Deprovision.aws_matching p region = inl l)
        (Hazure : forall x, Deprovision.given azure_subscription = Some x ->
                    exists l, Deprovision.azure_matching p x = inl l)
        (Hgcp : forall x, Deprovision.given gcp_project_id = Some x ->
                  exists l, Deprovision.gcp_matching p x = inl l) :
  let run := Deprovision.deprovision_skylark_instances
               p azure_subscription gcp_project_id sched_list sched_terminate in
  let all := Deprovision.all_instances p azure_subscription gcp_project_id in
  Permutation (Deprovision.terminated (fst run)) all
  /\ ((forall i, In i all -> exists u, Deprovision.terminate_instance p i = inl u) ->
      snd run = Val tt)
  /\ ((exists i e, In i all /\ Deprovision.terminate_instance p i = inr e) ->
      exists i e, In i all /\ Deprovision.terminate_instance p i = inr e
                  /\ snd run = Raise e).
Proof.
  cbn zeta. unfold Deprovision.deprovision_skylark_instances, Deprovision.all_instances.
  destruct (default_collected (Deprovision.aws_matching p) sched_list
                              (Deprovision.region_list p) Haws) as (rs & -> & Hrs).
  assert (Hlisted : Permutation (flat_map snd rs)
                      (flat_map (fun region => Deprovision.found (Deprovision.aws_matching p region))
                                (Deprovision.region_list p))).
  { rewrite <- snd_returned. now apply Permutation_flat_map. }
  cbn zeta.
  set (azure := Deprovision.optional_provider azure_subscription _ _).
  set (gcp := Deprovision.optional_provider gcp_project_id _ _).
  assert (Ea : exists l, snd azure = inl l).
  { subst azure. unfold Deprovision.optional_provider.
    destruct (Deprovision.given azure_subscription) as [x|] eqn:E; simpl; eauto. }
  assert (Eg : exists l, snd gcp = inl l).
  { subst gcp. unfold Deprovision.optional_provider.
    destruct (Deprovision.given gcp_project_id) as [x|] eqn:E; simpl; eauto. }
  destruct Ea as (la & Ea), Eg as (lg & Eg). rewrite Ea, Eg.
  pose proof (optional_found _ _ _ _ Ea) as Hla.
  pose proof (optional_found _ _ _ _ Eg) as Hlg.
  rewrite <- Hla, <- Hlg.
  assert (Hall : Permutation ((flat_map snd rs ++ la) ++ lg)
                   (flat_map (fun region => Deprovision.found (Deprovision.aws_matching p region))
                             (Deprovision.region_list p) ++ la ++ lg)).
  { rewrite <- app_assoc. now apply Permutation_app_tail. }
  destruct ((flat_map snd rs ++ la) ++ lg) as [|i0 rest] eqn:Ei.
  - cbn [fst snd]. rewrite !terminated_app. subst azure gcp. rewrite !optional_quiet.
    simpl. split; [exact Hall|]. split; [reflexivity|].
    intros (i & e & Hi & _). exfalso.
    apply (Permutation_in _ (Permutation_sym Hall)) in Hi. destruct Hi.
  - rewrite <- Ei in *. cbn [fst snd].
    split; [|split].
    + rewrite !terminated_app. subst azure gcp. rewrite !optional_quiet. simpl.
      rewrite app_nil_r, attempted_all. exact Hall.
    + intros Hok.
      destruct (default_collected (Deprovision.terminate_instance p) sched_terminate
                                  ((flat_map snd rs ++ la) ++ lg)) as (ds & -> & _);
        [|reflexivity].
      intros a Ha. apply Hok. now apply (Permutation_in _ Hall).
    + intros (i & e & Hi & He).
      destruct (default_raises (Deprovision.terminate_instance p) sched_terminate
                               ((flat_map snd rs ++ la) ++ lg)) as (a & e' & Ha & He' & ->).
      { exists i, e. split; [|exact He]. now apply (Permutation_in _ (Permutation_sym Hall)). }
      exists a, e'. split; [now apply (Permutation_in _ Hall)|]. auto.
Qed.

Lemma deprovision_terminates_every_instance_witness :
  let run := Deprovision.deprovision_skylark_instances
               Clouds.clouds (Some "sub") None [1; 0]%nat [3; 0; 2; 1]%nat in
  let all := Deprovision.all_instances Clouds.clouds (Some "sub") None in
  Permutation (Deprovision.terminated (fst run)) all
  /\ ((forall i, In i all ->
        exists u, Deprovision.terminate_instance Clouds.clouds i = inl u) ->
      snd run = Val tt)
  /\ ((exists i e, In i all /\ Deprovision.terminate_instance Clouds.clouds i = inr e) ->
      exists i e, In i all /\ Deprovision.terminate_instance Clouds.clouds i = inr e
                  /\ snd run = Raise e).
Proof.
  apply (deprovision_terminates_every_instance Clouds.clouds (Some "sub") None
                                               [1; 0]%nat [3; 0; 2; 1]%nat).
  - intros region _. eexists. reflexivity.
  - intros x _. eexists. reflexivity.
  - intros x Hx. discriminate Hx.
Defined.

(** X12: when a listing raises (of a region, or of one of the optional
    providers that is asked), the call raises and [terminate_instance] is
    not started on any instance, also not on those that other listings
    found. *)
Theorem deprovision_listing_failure_terminates_nothing {I}
        (p : Deprovision.providers I)
        (azure_subscription gcp_project_id : option string)
        (sched_list sched_terminate : list nat)
        (Hfail :
           (exists region e, In region (Deprovision.region_list p)
                             /\ Deprovision.aws_matching p region = inr e)
           \/ (exists x e, Deprovision.given azure_subscription = Some x
                           /\ Deprovision.azure_matching p x = inr e)
           \/ (exists x e, Deprovision.given gcp_project_id = Some x
                           /\ Deprovision.gcp_matching p x = inr e)) :
  let run := Deprovision.deprovision_skylark_instances
               p azure_subscription gcp_project_id sched_list sched_terminate in
  Deprovision.terminated (fst run) = [] /\ exists e, snd run = Raise e.
Proof.
  cbn zeta. unfold Deprovision.deprovision_skylark_instances.
  pose proof (default_returns (Deprovision.aws_matching p) sched_list
                              (Deprovision.region_list p)) as Hret.
  destruct (snd (Utils.do_parallel (Deprovision.aws_matching p)
                                   (Deprovision.region_list p) (-1) sched_list))
    as [rs|e|] eqn:El; [| simpl; eauto | contradiction].
  cbn zeta.
  assert (Haws : forall region, In region (Deprovision.region_list p) ->
                   exists l, Deprovision.aws_matching p region = inl l).
  { destruct (either_all_or_one (Deprovision.aws_matching p) (Deprovision.region_list p))
      as [H|H]; [exact H|].
    destruct (default_raises _ sched_list _ H) as (a & e & _ & _ & Hr). congruence. }
  destruct Hfail as [(region & e & Hin & He) | Hfail].
  { destruct (Haws region Hin) as (l & Hl). congruence. }
  set (azure := Deprovision.optional_provider azure_subscription _ _).
  set (gcp := Deprovision.optional_provider gcp_project_id _ _).
  assert (Hquiet : forall l : list (Deprovision.event I),
             Deprovision.terminated l = [] ->
             Deprovision.terminated (([Deprovision.Listing
                (fst (Utils.do_parallel (Deprovision.aws_matching p)
                                        (Deprovision.region_list p) (-1) sched_list))]
                ++ fst azure) ++ l) = []).
  { intros l Hl. rewrite !terminated_app, Hl. subst azure.
    now rewrite optional_quiet. }
  destruct (snd azure) as [la|e] eqn:Ea.
  - destruct (snd gcp) as [lg|e] eqn:Eg.
    + exfalso. destruct Hfail as [(x & e & Hx & He) | (x & e & Hx & He)].
      * subst azure. rewrite (optional_failed _ _ _ _ _ Hx He) in Ea. discriminate.
      * subst gcp. rewrite (optional_failed _ _ _ _ _ Hx He) in Eg. discriminate.
    + cbn [fst snd]. split; [|eauto]. apply Hquiet. subst gcp. apply optional_quiet.
  - cbn [fst snd]. split; [|eauto]. rewrite <- (app_nil_r (_ ++ fst azure)).
    now apply Hquiet.
Qed.

Lemma deprovision_listing_failure_terminates_nothing_witness :
  let run := Deprovision.deprovision_skylark_instances
               Clouds.clouds (Some "sub") (Some "proj") [0; 0]%nat [] in
  Deprovision.terminated (fst run) = [] /\ exists e, snd run = Raise e.
Proof.
  apply (deprovision_listing_failure_terminates_nothing
           Clouds.clouds (Some "sub") (Some "proj") [0; 0]%nat []).
  right. right. exists "proj", (RemoteError "no credentials"). split; reflexivity.
Defined.

(** ** More on [parse_path], [ls_local] and the destination of a download *)

Section Paths.

Import CliHelper.

Lemma startswith_append (p s : string) :
  PyStr.startswith p s = true -> s = String.append p (PyStr.slice_from (String.length p) s).
Proof.
  revert s. induction p as [|a p IH]; intros s; [reflexivity|].
  destruct s as [|b s]; [discriminate|]. cbn [PyStr.startswith].
  destruct (Ascii.eqb a b) eqn:E; [|discriminate].
  apply Ascii.eqb_eq in E. subst b. intros H. simpl. f_equal. now apply IH.
Qed.

Lemma contains_slash_cons (c : ascii) (s : string) :
  PyStr.contains "/" (String c s) = (Ascii.eqb c "/" || PyStr.contains "/" s)%bool.
Proof.
  cbn [PyStr.contains PyStr.startswith]. rewrite (Ascii.eqb_sym "/" c).
  now destruct (Ascii.eqb c "/").
Qed.

(** [s.split("/", 1)] gives two pieces exactly when [s] is the first, a
    slash and the second, the first without a slash *)
Lemma split_once_two (s a b : string) :
  PyStr.split_once "/" s = [a; b] <->
  s = String.append a (String "/" b) /\ PyStr.contains "/" a = false.
Proof.
  revert a. induction s as [|c s IH]; intros a.
  - split; [discriminate|]. intros [H _]. destruct a; discriminate.
  - cbn [PyStr.split_once]. destruct (Ascii.eqb c "/") eqn:E.
    + apply Ascii.eqb_eq in E. subst c. split.
      * intros [= <- <-]. auto.
      * intros [H Ha]. destruct a as [|c a].
        -- simpl in H. now injection H as <-.
        -- simpl in H. injection H as <- _. rewrite contains_slash_cons in Ha. discriminate.
    + split.
      * intros H. destruct (PyStr.split_once "/" s) as [|a' [|b' [|? ?]]] eqn:Es;
          try discriminate.
        injection H as <- <-. destruct (proj1 (IH a') eq_refl) as [-> Ha].
        split; [reflexivity|]. rewrite contains_slash_cons, E, Ha. reflexivity.
      * intros [H Ha]. destruct a as [|c' a].
        -- simpl in H. injection H as -> _. discriminate.
        -- simpl in H. injection H as <- ->. rewrite contains_slash_cons, E in Ha.
           simpl in Ha. rewrite (proj2 (IH a) (conj eq_refl Ha)). reflexivity.
Qed.

Lemma unpack2_val (l : list string) (a b : string) :
  unpack2 l = Val (a, b) <-> l = [a; b].
Proof.
  split; [|now intros ->].
  destruct l as [|x [|y [|? ?]]]; try discriminate. now intros [= <- <-].
Qed.

(** what the two bucket branches of [parse_path] return *)
Lemma bucket_branch (tag path bucket key : string) :
  match unpack2 (PyStr.split_once "/" path) with
  | Val (bucket_name, key_name) => Val (PTuple [PStr tag; PStr bucket_name; PStr key_name])
  | Raise e => Raise e
  | OutOfFuel => OutOfFuel
  end = Val (PTuple [PStr tag; PStr bucket; PStr key])
  <-> path = String.append bucket (String "/" key) /\ PyStr.contains "/" bucket = false.
Proof.
  rewrite <- split_once_two, <- unpack2_val.
  destruct (unpack2 (PyStr.split_once "/" path)) as [[x y]| |].
  - split; [now intros [= <- <-] | now intros [= <- <-]].
  - split; discriminate.
  - split; discriminate.
Qed.

Lemma last_snoc {X} (l : list X) (x d : X) : List.last (l ++ [x]) d = x.
Proof.
  induction l as [|y l IH]; [reflexivity|]. simpl.
  destruct (l ++ [x]) eqn:E; [now destruct l | exact IH].
Qed.

Lemma lstrip_relative (s : string) : PyStr.startswith "/" (PyStr.lstrip "/" s) = false.
Proof.
  induction s as [|c s IH]; [reflexivity|]. cbn [PyStr.lstrip].
  destruct (Ascii.eqb c "/") eqn:E; [exact IH|].
  cbn [PyStr.startswith]. now rewrite (Ascii.eqb_sym "/" c), E.
Qed.

End Paths.

(** X13: the bucket forms round-trip. For the scheme [s3] or [gs],
    [parse_path] returns the triple of the scheme, a bucket and a key
    exactly on the string made of the scheme, [://], the bucket, a slash
    and the key, the bucket being free of slashes (it may be empty); the
    file system plays no part. *)
Theorem parse_path_bucket_round_trip (fs : FS.t) (scheme path bucket key : string)
        (Hscheme : scheme = "s3" \/ scheme = "gs") :
  CliHelper.parse_path fs path = Val (PTuple [PStr scheme; PStr bucket; PStr key])
  <-> path = String.append scheme (String.append "://" (String.append bucket (String "/" key)))
      /\ PyStr.contains "/" bucket = false.
Proof.
  split.
  - unfold CliHelper.parse_path.
    destruct (PyStr.startswith "s3://" path) eqn:Es3.
    { intros H. assert (scheme = "s3") as ->.
      { destruct (CliHelper.unpack2 _) as [[x y]| |]; now inversion H. }
      apply bucket_branch in H as [H Hb]. split; [|exact Hb].
      rewrite (startswith_append _ _ Es3). cbn [String.length]. rewrite H. reflexivity. }
    destruct (PyStr.startswith "gs://" path) eqn:Egs.
    { intros H. assert (scheme = "gs") as ->.
      { destruct (CliHelper.unpack2 _) as [[x y]| |]; now inversion H. }
      apply bucket_branch in H as [H Hb]. split; [|exact Hb].
      rewrite (startswith_append _ _ Egs). cbn [String.length]. rewrite H. reflexivity. }
    destruct ((PyStr.startswith "https://" path || PyStr.startswith "http://" path)
              && PyStr.contains "blob.core.windows.net" path).
    { destruct (Re.match_groups CliHelper.azure_regex path) as [[|a [|b [|c [|d l]]]]|];
        discriminate. }
    destruct (CliHelper.is_plausible_local_path fs path); discriminate.
  - intros [-> Hb]. unfold CliHelper.parse_path.
    destruct Hscheme as [-> | ->].
    + change (PyStr.startswith "s3://" _) with true. cbv iota.
      change (PyStr.slice_from 5 _) with (String.append bucket (String "/" key)).
      now apply bucket_branch.
    + change (PyStr.startswith "s3://" _) with false.
      change (PyStr.startswith "gs://" _) with true. cbv iota.
      change (PyStr.slice_from 5 _) with (String.append bucket (String "/" key)).
      now apply bucket_branch.
Qed.

Lemma parse_path_bucket_round_trip_witness :
  CliHelper.parse_path Examples.home_fs "gs://logs/2021/run.txt"
  = Val (PTuple [PStr "gs"; PStr "logs"; PStr "2021/run.txt"])
  <-> "gs://logs/2021/run.txt"
      = String.append "gs" (String.append "://" (String.append "logs" (String "/" "2021/run.txt")))
      /\ PyStr.contains "/" "logs" = false.
Proof.
  apply (parse_path_bucket_round_trip Examples.home_fs "gs" "gs://logs/2021/run.txt"
                                      "logs" "2021/run.txt").
  right. reflexivity.
Defined.

(** X14: a string is taken for a local path exactly when the path exists
    or its parent does; the [is_dir()] test of the source never decides. *)
Theorem is_plausible_local_path_exists_or_parent (fs : FS.t) (path : string) :
  CliHelper.is_plausible_local_path fs path
  = (FS.exists_ fs (Pathlib.of_string path)
     || FS.exists_ fs (Pathlib.parent (Pathlib.of_string path)))%bool.
Proof.
  unfold CliHelper.is_plausible_local_path, FS.exists_, FS.is_dir.
  destruct (FS.stat fs (Pathlib.of_string path)) as [[c|es]|e]; simpl; try reflexivity;
    now destruct (FS.stat fs (Pathlib.parent (Pathlib.of_string path))).
Qed.

(** X15: [ls_local] yields the names of the entries of a directory, in
    the order of the listing, the name of the path itself for anything
    else that exists, and raises [FileNotFoundError] for a path that cannot
    be looked up (also when a component of it is a regular file). *)
Theorem ls_local_by_kind (fs : FS.t) (path : Pathlib.Path) :
  CliHelper.ls_local fs path =
    match FS.stat fs path with
    | inl (FS.Dir es) => Val (List.map fst es)
    | inl (FS.File _) => Val [Pathlib.name path]
    | inr _ => Raise (FileNotFoundError path)
    end.
Proof.
  unfold CliHelper.ls_local, FS.exists_, FS.is_dir, FS.iterdir.
  destruct (FS.stat fs path) as [[c|es]|e]; simpl; try reflexivity.
  f_equal. rewrite List.map_map. apply List.map_ext. intros [x n].
  unfold Pathlib.name. simpl. apply last_snoc.
Qed.

(** X16: the destination of a download keeps the root of [dst] and
    extends its components: the leading slashes of the rest of the key are
    stripped, so a key cannot replace [dst] by an absolute path. *)
Theorem dest_path_extends_dst (src_key : string) (dst : Pathlib.Path)
        (obj : CliHelper.ObjectStoreObject) :
  exists more,
    CliHelper.dest_path src_key dst obj
    = Pathlib.mkPath (Pathlib.root dst) (Pathlib.parts dst ++ more).
Proof.
  unfold CliHelper.dest_path, Pathlib.joinpath, Pathlib.of_string. cbn [Pathlib.root].
  unfold Pathlib.splitroot. rewrite lstrip_relative. cbn [String.eqb]. eauto.
Qed.

(** ** Writing a file into the tree *)

Section TreeFacts.

Import FS.

Lemma find_set_same x new es : find_entry x (set_entry x new es) = Some new.
Proof.
  induction es as [|[y n] es IH]; simpl.
  - now rewrite String.eqb_refl.
  - destruct (String.eqb x y) eqn:E; simpl; now rewrite E.
Qed.

Lemma find_set_other x y new es :
  x <> y -> find_entry y (set_entry x new es) = find_entry y es.
Proof.
  intros Hxy. induction es as [|[z n] es IH]; simpl.
  - destruct (String.eqb y x) eqn:E; [|reflexivity].
    apply String.eqb_eq in E. congruence.
  - destruct (String.eqb x z) eqn:E; simpl.
    + apply String.eqb_eq in E. subst z.
      destruct (String.eqb y x) eqn:E'; [|reflexivity].
      apply String.eqb_eq in E'. congruence.
    + now rewrite IH.
Qed.

Local Abbreviation is_dir_node := CopyTrace.is_dir_node.

Lemma lookup_file c k n : lookup (File c) k = Some n -> k = [] /\ n = File c.
Proof. destruct k; simpl; [now intros [= <-] | discriminate]. Qed.

(** the node written is found where it was put *)
Lemma put_lookup new : forall k tr tr',
  put tr k new = Some tr' -> lookup tr' k = Some new.
Proof.
  induction k as [|x rest IH]; intros tr tr'; simpl.
  - now intros [= <-].
  - destruct tr as [c|es]; [discriminate|].
    destruct rest as [|y rest].
    + intros [= <-]. simpl. now rewrite find_set_same.
    + destruct (find_entry x es) as [ch|] eqn:Ef; [|discriminate].
      destruct (put ch (y :: rest) new) as [ch'|] eqn:Ep; [|discriminate].
      intros [= <-]. cbn [lookup]. rewrite find_set_same. now apply IH with ch.
Qed.

(** a file elsewhere is left as it is *)
Lemma put_keeps_file new c : forall kd tr tr' ks,
  put tr kd new = Some tr' ->
  is_dir_node (lookup tr kd) = false ->
  ks <> kd ->
  lookup tr ks = Some (File c) ->
  lookup tr' ks = Some (File c).
Proof.
  induction kd as [|x rest IH]; intros tr tr' ks Hput Hnd Hne Hks.
  - simpl in Hnd. destruct tr as [c'|es]; [|discriminate].
    apply lookup_file in Hks as [-> _]. congruence.
  - simpl in Hput. destruct tr as [c'|es]; [discriminate|].
    destruct ks as [|y ks]; [discriminate|].
    cbn [lookup] in Hks |- *.
    destruct (String.eqb x y) eqn:Exy.
    + apply String.eqb_eq in Exy. subst y.
      destruct rest as [|z rest].
      * injection Hput as <-. exfalso. cbn [lookup] in Hnd.
        destruct (find_entry x es) as [[c1|es1]|]; try discriminate.
        -- apply lookup_file in Hks as [-> _]. congruence.
      * destruct (find_entry x es) as [ch|] eqn:Ef; [|discriminate].
        destruct (put ch (z :: rest) new) as [ch'|] eqn:Ep; [|discriminate].
        injection Hput as <-. cbn [lookup]. rewrite find_set_same.
        apply (IH ch ch' ks Ep); [| congruence | exact Hks].
        cbn [lookup] in Hnd. now rewrite Ef in Hnd.
    + assert (Hxy : x <> y) by (intros ->; now rewrite String.eqb_refl in Exy).
      destruct rest as [|z rest].
      * injection Hput as <-. cbn [lookup]. now rewrite find_set_other.
      * destruct (find_entry x es) as [ch|] eqn:Ef; [|discriminate].
        destruct (put ch (z :: rest) new) as [ch'|] eqn:Ep; [|discriminate].
        injection Hput as <-. cbn [lookup]. now rewrite find_set_other.
Qed.

(** directories stay directories *)
Lemma put_keeps_dirs c : forall kd tr tr' k,
  put tr kd (File c) = Some tr' ->
  is_dir_node (lookup tr kd) = false ->
  is_dir_node (lookup tr k) = true ->
  is_dir_node (lookup tr' k) = true.
Proof.
  induction kd as [|x rest IH]; intros tr tr' k Hput Hnd Hk.
  - simpl in Hnd. destruct tr as [c'|es]; [|discriminate].
    destruct k; discriminate.
  - simpl in Hput. destruct tr as [c'|es]; [discriminate|].
    destruct k as [|y k].
    { destruct rest as [|z rest].
      - now injection Hput as <-.
      - destruct (find_entry x es) as [ch|]; [|discriminate].
        destruct (put ch (z :: rest) (File c)) as [ch'|]; [|discriminate].
        now injection Hput as <-. }
    cbn [lookup] in Hk |- *.
    destruct (String.eqb x y) eqn:Exy.
    + apply String.eqb_eq in Exy. subst y.
      destruct rest as [|z rest].
      * exfalso. cbn [lookup] in Hnd.
        destruct (find_entry x es) as [[c1|es1]|]; try discriminate.
        destruct k; discriminate.
      * destruct (find_entry x es) as [ch|] eqn:Ef; [|discriminate].
        destruct (put ch (z :: rest) (File c)) as [ch'|] eqn:Ep; [|discriminate].
        injection Hput as <-. cbn [lookup]. rewrite find_set_same.
        apply (IH ch ch' k Ep); [|exact Hk].
        cbn [lookup] in Hnd. now rewrite Ef in Hnd.
    + assert (Hxy : x <> y) by (intros ->; now rewrite String.eqb_refl in Exy).
      destruct rest as [|z rest].
      * injection Hput as <-. cbn [lookup]. now rewrite find_set_other.
      * destruct (find_entry x es) as [ch|] eqn:Ef; [|discriminate].
        destruct (put ch (z :: rest) (File c)) as [ch'|] eqn:Ep; [|discriminate].
        injection Hput as <-. cbn [lookup]. now rewrite find_set_other.
Qed.

(** so a path that resolved before the write resolves to the same key *)
Lemma put_keeps_locate c kd tr tr' :
  put tr kd (File c) = Some tr' ->
  is_dir_node (lookup tr kd) = false ->
  forall ps cur k, locate tr cur ps = inl k -> locate tr' cur ps = inl k.
Proof.
  intros Hput Hnd. induction ps as [|x ps IH]; intros cur k; simpl; [auto|].
  destruct (lookup tr cur) as [[c1|es1]|] eqn:El; try discriminate.
  pose proof (put_keeps_dirs c kd tr tr' cur Hput Hnd) as Hd.
  rewrite El in Hd. specialize (Hd eq_refl).
  destruct (lookup tr' cur) as [[c2|es2]|]; try discriminate. apply IH.
Qed.

Lemma parts_eqb_eq k1 k2 : Pathlib.parts_eqb k1 k2 = true <-> k1 = k2.
Proof.
  revert k2. induction k1 as [|a k1 IH]; intros [|b k2]; simpl; split;
    try discriminate; auto.
  - intros H. apply andb_prop in H as [Ha Hk]. apply String.eqb_eq in Ha.
    apply IH in Hk. congruence.
  - intros [= <- <-]. rewrite String.eqb_refl. simpl. now apply IH.
Qed.

(** [copyfile] on a regular file: when it returns, the destination holds
    the content and the source still does *)
Lemma copyfile_copies fs src dst c fs' :
  stat fs src = inl (File c) ->
  copyfile fs src dst = (fs', Val tt) ->
  stat fs' dst = inl (File c) /\ stat fs' src = inl (File c).
Proof.
  unfold copyfile, stat, resolve. intros Hs.
  set (cs := if String.eqb (Pathlib.root src) EmptyString then cwd fs else []) in *.
  set (cd := if String.eqb (Pathlib.root dst) EmptyString then cwd fs else []) in *.
  destruct (locate (tree fs) cs (Pathlib.parts src)) as [ks|e] eqn:Els; [|discriminate].
  destruct (lookup (tree fs) ks) as [ns|] eqn:Eks; [|discriminate].
  injection Hs as ->.
  destruct (locate (tree fs) cd (Pathlib.parts dst)) as [kd|e] eqn:Eld.
  2:{ destruct e; discriminate. }
  destruct (lookup (tree fs) kd) as [nd|] eqn:Ekd.
  - destruct (Pathlib.parts_eqb ks kd) eqn:Eq; [discriminate|].
    destruct nd as [cd'|esd]; [|discriminate].
    destruct (put (tree fs) kd (File c)) as [tr'|] eqn:Ep; [|discriminate].
    intros [= <-]. cbn [tree cwd]. fold cs cd.
    assert (Hnd : is_dir_node (lookup (tree fs) kd) = false) by now rewrite Ekd.
    rewrite (put_keeps_locate c kd _ _ Ep Hnd _ _ _ Eld).
    rewrite (put_keeps_locate c kd _ _ Ep Hnd _ _ _ Els).
    rewrite (put_lookup _ _ _ _ Ep).
    assert (Hne : ks <> kd).
    { intros ->. rewrite (proj2 (parts_eqb_eq kd kd) eq_refl) in Eq. discriminate. }
    rewrite (put_keeps_file (File c) c kd (tree fs) tr' ks Ep Hnd Hne Eks). auto.
  - destruct (put (tree fs) kd (File c)) as [tr'|] eqn:Ep; [|discriminate].
    intros [= <-]. cbn [tree cwd]. fold cs cd.
    assert (Hnd : is_dir_node (lookup (tree fs) kd) = false) by now rewrite Ekd.
    rewrite (put_keeps_locate c kd _ _ Ep Hnd _ _ _ Eld).
    rewrite (put_keeps_locate c kd _ _ Ep Hnd _ _ _ Els).
    rewrite (put_lookup _ _ _ _ Ep).
    assert (Hne : ks <> kd) by (intros ->; congruence).
    rewrite (put_keeps_file (File c) c kd (tree fs) tr' ks Ep Hnd Hne Eks). auto.
Qed.

End TreeFacts.

(** X17: copying a regular file: when [copy_local_local] returns, the
    destination is a regular file with the content of the source, and the
    source is still there with its content. *)
Theorem copy_local_local_copies_a_file (fuel : nat) (src dst : Pathlib.Path)
        (w : CliHelper.world) (c : string)
        (Hsrc : FS.stat (CliHelper.w_fs w) src = inl (FS.File c))
        (Hdone : snd (CliHelper.copy_local_local (S fuel) src dst w) = Val tt) :
  let after := CliHelper.w_fs (fst (CliHelper.copy_local_local (S fuel) src dst w)) in
  FS.stat after dst = inl (FS.File c) /\ FS.stat after src = inl (FS.File c).
Proof.
  cbn zeta. cbn [CliHelper.copy_local_local] in *.
  assert (Hex : FS.exists_ (CliHelper.w_fs w) src = true)
    by (unfold FS.exists_; now rewrite Hsrc).
  assert (Hnd : FS.is_dir (CliHelper.w_fs w) src = false)
    by (unfold FS.is_dir; now rewrite Hsrc).
  rewrite Hex, Hnd in *. cbn [negb] in *.
  destruct (FS.exists_ (CliHelper.w_fs w) (Pathlib.parent dst)) eqn:Ep;
    cbn [negb] in *; [|discriminate].
  unfold CliHelper.bind in *. rewrite mkdir_run, (mkdir_existing _ _ _ Ep) in *.
  cbn [fst snd] in *.
  destruct (FS.is_dir (CliHelper.w_fs w) (Pathlib.parent dst)); [|discriminate].
  rewrite copyfile_run in *. cbn [fst snd CliHelper.w_fs] in *.
  destruct (FS.copyfile (CliHelper.w_fs w) src dst) as [fs' r] eqn:Ec.
  cbn [fst snd] in *. subst r. now apply (copyfile_copies (CliHelper.w_fs w)).
Qed.

Lemma copy_local_local_copies_a_file_witness :
  let after :=
    CliHelper.w_fs (fst (CliHelper.copy_local_local 1 (Pathlib.of_string "data/a")
                                                    (Pathlib.of_string "data/copy")
                                                    Examples.home)) in
  FS.stat after (Pathlib.of_string "data/copy") = inl (FS.File "0123456789")
  /\ FS.stat after (Pathlib.of_string "data/a") = inl (FS.File "0123456789").
Proof.
  apply (copy_local_local_copies_a_file 0 (Pathlib.of_string "data/a")
                                        (Pathlib.of_string "data/copy")
                                        Examples.home "0123456789").
  - reflexivity.
  - reflexivity.
Defined.

(** ** Transfers: what is handed over and what is waited for *)

Section Waiting.

Import CliHelper CopyTrace.

Lemma as_completed_n_perm {X} (n : nat) : forall (sched : list nat) (ops : list X),
  length ops = n -> Permutation (as_completed_n n sched ops) ops.
Proof.
  induction n as [|n IH]; intros sched ops Hl.
  - destruct ops; [reflexivity | discriminate].
  - cbn [as_completed_n].
    destruct (extract_some (Nat.modulo (hd O sched) (length ops)) ops) as (x & rest & E).
    { apply Nat.mod_upper_bound. lia. }
    rewrite E. rewrite (extract_perm _ _ _ _ E). constructor. apply IH.
    apply extract_length in E. lia.
Qed.

Lemma as_completed_perm {X} (sched : list nat) (ops : list X) :
  Permutation (as_completed sched ops) ops.
Proof. now apply as_completed_n_perm. Qed.

(** the waiting loop, run *)
Lemma wait_all_run sched ops w :
  wait_all sched ops w
  = (mkWorld (w_fs w) (w_trace w ++ fst (waited (as_completed sched ops))),
     snd (waited (as_completed sched ops))).
Proof.
  unfold wait_all. generalize (as_completed sched ops). intros l. revert w.
  induction l as [|o l IH]; intros w.
  - simpl. rewrite app_nil_r. now destruct w.
  - cbn [for_each waited]. unfold bind at 1. unfold bind at 1. cbn [emit].
    destruct (op_error o) as [e|].
    + reflexivity.
    + cbn [emit w_fs w_trace fst snd]. rewrite IH. cbn [w_fs w_trace fst snd].
      now rewrite <- !app_assoc.
Qed.

Lemma waited_val l :
  snd (waited l) = Val tt ->
  progress (fst (waited l)) = List.map op_bytes l
  /\ awaited (fst (waited l)) = List.map op_index l
  /\ List.Forall (fun o => op_error o = None) l.
Proof.
  induction l as [|o l IH]; simpl; [auto|].
  destruct (op_error o) eqn:E; [discriminate|]. simpl. intros H.
  destruct (IH H) as (-> & -> & HF). auto.
Qed.

Lemma waited_ok l :
  List.Forall (fun o => op_error o = None) l -> snd (waited l) = Val tt.
Proof. induction 1 as [|o l Ho _ IH]; simpl; [reflexivity|]. now rewrite Ho. Qed.


Lemma waited_quiet l :
  uploads (fst (waited l)) = [] /\ downloads (fst (waited l)) = [].
Proof.
  induction l as [|o l [IH1 IH2]]; simpl; [auto|]. destruct (op_error o); simpl; auto.
Qed.

Lemma sum_app a b : sum (a ++ b) = sum a + sum b.
Proof. unfold sum. induction a; simpl; lia. Qed.

Lemma sum_perm a b : Permutation a b -> sum a = sum b.
Proof. unfold sum. induction 1; simpl; lia. Qed.

Lemma only_uploads ups :
  only is_upload ups ->
  length (uploads ups) = length ups /\ progress ups = [] /\ awaited ups = [].
Proof.
  induction 1 as [|e ups He _ (IH1 & IH2 & IH3)]; [auto|].
  destruct e; try discriminate. simpl. rewrite IH1. auto.
Qed.

Lemma uploads_app a b : uploads (a ++ b) = uploads a ++ uploads b.
Proof. apply flat_map_app. Qed.
Lemma downloads_app a b : downloads (a ++ b) = downloads a ++ downloads b.
Proof. apply flat_map_app. Qed.
Lemma progress_app a b : progress (a ++ b) = progress a ++ progress b.
Proof. apply flat_map_app. Qed.
Lemma awaited_app a b : awaited (a ++ b) = awaited a ++ awaited b.
Proof. apply flat_map_app. Qed.

Lemma file_count_cons x n es :
  file_count (FS.Dir ((x, n) :: es)) = (file_count n + file_count (FS.Dir es))%nat.
Proof. reflexivity. Qed.

Lemma hands_over_children s3 es :
  List.Forall (fun e => hands_over s3 (snd e)) es ->
  forall path dst_key total ops w,
  exists ups t ops',
    _copy_children (_copy s3) path dst_key es total ops w
      = (mkWorld (w_fs w) (w_trace w ++ ups), Val (t, ops ++ ops'))
    /\ only is_upload ups
    /\ length ups = file_count (FS.Dir es)
    /\ List.map op_index ops' = List.seq (length ops) (file_count (FS.Dir es))
    /\ sum (List.map op_bytes ops') = tree_bytes (FS.Dir es)
    /\ List.map op_error ops'
       = List.map (fun u => upload_error s3 (fst u) (snd u)) (uploads ups).
Proof.
  induction 1 as [|[x n] es Hn Hes IH]; intros path dst_key total ops w.
  - exists [], total, []. simpl. rewrite !app_nil_r. destruct w.
    repeat split; auto. apply only_nil.
  - simpl in Hn.
    destruct (Hn (Pathlib.mkPath (Pathlib.root path) (Pathlib.parts path ++ [x]))
                 (Pathlib.os_path_join dst_key x) ops w)
      as (ups1 & t1 & ops1 & E1 & Hu1 & Hl1 & Hi1 & Hb1 & He1).
    cbn [_copy_children]. unfold bind at 1. rewrite E1. cbn [fst snd].
    destruct (IH path dst_key (PyNum.add total t1) (ops ++ ops1)
                 (mkWorld (w_fs w) (w_trace w ++ ups1)))
      as (ups2 & t2 & ops2 & E2 & Hu2 & Hl2 & Hi2 & Hb2 & He2).
    exists (ups1 ++ ups2), t2, (ops1 ++ ops2). rewrite E2. cbn [w_fs w_trace].
    rewrite !app_assoc. split; [reflexivity|].
    split; [now apply only_app|].
    rewrite file_count_cons, tree_bytes_cons, !map_app, length_app, sum_app, uploads_app,
      map_app, seq_app.
    split; [lia|]. split; [|split; [lia | congruence]].
    rewrite Hi1, Hi2, length_app, <- Hl1.
    assert (Hlen : length ops1 = length ups1).
    { rewrite <- (length_map op_index), Hi1, length_seq. lia. }
    now rewrite Hlen.
Qed.

Lemma hands_over_all s3 n : hands_over s3 n.
Proof.
  induction n as [c|es IH] using node_induction; intros path dst_key ops w.
  - exists [EvUpload path dst_key], (PyNum.PyInt (Z.of_nat (String.length c))),
      [mkOp (length ops) (upload_error s3 path dst_key) (Z.of_nat (String.length c))].
    split; [reflexivity|]. split; [now repeat constructor|].
    split; [reflexivity|]. split; [reflexivity|]. split; [simpl; lia | reflexivity].
  - destruct (hands_over_children s3 es IH path dst_key (PyNum.PyFloat 0) ops w)
      as (ups & t & ops' & E & H).
    exists ups, t, ops'. cbn [_copy]. rewrite E. auto.
Qed.

(** a run of [copy_local_s3] on something that exists *)
Lemma copy_local_s3_handed s3 sched src dst_key fs n :
  FS.stat fs src = inl n ->
  exists ups t ops,
    copy_local_s3 s3 sched src dst_key (mkWorld fs [])
    = (mkWorld fs (ups ++ EvTotal t :: fst (waited (as_completed sched ops))),
       snd (waited (as_completed sched ops)))
    /\ only is_upload ups
    /\ length ups = file_count n
    /\ List.map op_index ops = List.seq 0 (file_count n)
    /\ sum (List.map op_bytes ops) = tree_bytes n
    /\ List.map op_error ops
       = List.map (fun u => upload_error s3 (fst u) (snd u)) (uploads ups).
Proof.
  intros Hs. unfold copy_local_s3. cbn [w_fs]. rewrite Hs.
  destruct (hands_over_all s3 n src dst_key [] (mkWorld fs []))
    as (ups & t & ops & E & H).
  exists ups, t, ops. unfold bind at 1. rewrite E. cbn [fst snd].
  unfold bind at 1. cbn [emit w_fs w_trace]. rewrite wait_all_run.
  cbn [w_fs w_trace app]. rewrite <- app_assoc. split; [reflexivity | exact H].
Qed.

End Waiting.



(** X19: when no upload fails, [copy_local_s3] returns, every future is
    waited for exactly once, and the updates of the progress bar add up to
    the sum of the file sizes, exactly and in whatever order the uploads
    complete. *)
Theorem copy_local_s3_progress_adds_up (s3 : CliHelper.S3Interface)
        (sched : list nat) (src : Pathlib.Path) (dst_key : string) (fs : FS.t)
        (n : FS.node)
        (Hsrc : FS.stat fs src = inl n)
        (Hok : forall p k, CliHelper.upload_error s3 p k = None) :
  let r := CliHelper.copy_local_s3 s3 sched src dst_key (CliHelper.mkWorld fs []) in
  snd r = Val tt
  /\ CopyTrace.sum (CopyTrace.progress (CliHelper.w_trace (fst r))) = CliHelper.tree_bytes n
  /\ Permutation (CopyTrace.awaited (CliHelper.w_trace (fst r)))
                 (List.seq 0 (CopyTrace.file_count n)).
Proof.
  cbn zeta.
  destruct (copy_local_s3_handed s3 sched src dst_key fs n Hsrc)
    as (ups & t & ops & -> & Hu & Hl & Hi & Hb & He).
  cbn [fst snd CliHelper.w_trace].
  destruct (only_uploads ups Hu) as (_ & Hp & Ha).
  assert (Hall : List.Forall (fun o => CliHelper.op_error o = None)
                             (CliHelper.as_completed sched ops)).
  { apply List.Forall_forall. intros o Hin.
    apply (Permutation_in _ (as_completed_perm sched ops)) in Hin.
    assert (Hine : In (CliHelper.op_error o) (List.map CliHelper.op_error ops))
      by now apply in_map.
    rewrite He in Hine. apply in_map_iff in Hine as (u & Hu' & _).
    now rewrite <- Hu', Hok. }
  pose proof (waited_ok _ Hall) as Hv.
  destruct (waited_val _ Hv) as (Hpr & Haw & _).
  split; [exact Hv|].
  rewrite progress_app, awaited_app, Hp, Ha. simpl. rewrite Hpr, Haw.
  split.
  - rewrite <- Hb. apply sum_perm, Permutation_map, as_completed_perm.
  - rewrite <- Hi. apply Permutation_map, as_completed_perm.
Qed.

Lemma copy_local_s3_progress_adds_up_witness :
  let r := CliHelper.copy_local_s3 (Examples.store []) [1; 0]%nat
             (Pathlib.of_string "data") "backup" (CliHelper.mkWorld Examples.home_fs []) in
  snd r = Val tt
  /\ CopyTrace.sum (CopyTrace.progress (CliHelper.w_trace (fst r)))
     = CliHelper.tree_bytes
         (FS.Dir [("a", FS.File "0123456789");
                  ("b", FS.Dir [("c", FS.File "01234567890123456789")])])
  /\ Permutation (CopyTrace.awaited (CliHelper.w_trace (fst r)))
                 (List.seq 0 (CopyTrace.file_count
                    (FS.Dir [("a", FS.File "0123456789");
                             ("b", FS.Dir [("c", FS.File "01234567890123456789")])]))).
Proof.
  apply (copy_local_s3_progress_adds_up (Examples.store []) [1; 0]%nat
           (Pathlib.of_string "data") "backup" Examples.home_fs).
  - reflexivity.
  - intros p k. reflexivity.
Defined.

Section Downloads.

Import CliHelper CopyTrace.

Lemma prepared_app a b : prepared a -> prepared b -> prepared (a ++ b).
Proof. induction 1; simpl; auto using prepared. Qed.

Lemma waited_prepared l : prepared (fst (waited l)).
Proof.
  induction l as [|o l IH]; simpl; [constructor|].
  destruct (op_error o); simpl; repeat (constructor; [discriminate|]); auto.
  constructor.
Qed.

Lemma listing_bytes_sum objs : listing_bytes objs = sum (List.map size objs).
Proof. unfold listing_bytes, sum. induction objs; simpl; lia. Qed.

(** the listing loop: the downloads it asks for, in order, up to the first
    [mkdir] that fails, and the futures it collects when none does *)
Lemma listing_ops s3 src_key dst objs :
  forall total ops w,
  exists k evs,
    w_trace (fst (copy_s3_local_loop s3 src_key dst objs total ops w)) = w_trace w ++ evs
    /\ prepared evs
    /\ downloads evs = List.map (download_of src_key dst) (firstn k objs)
    /\ progress evs = [] /\ awaited evs = []
    /\ match snd (copy_s3_local_loop s3 src_key dst objs total ops w) with
       | Val r =>
           k = length objs
           /\ exists ops',
                snd r = ops ++ ops'
                /\ List.map op_bytes ops' = List.map size objs
                /\ List.map op_index ops' = List.seq (length ops) (length objs)
       | Raise _ => (k < length objs)%nat
       | OutOfFuel => False
       end.
Proof.
  induction objs as [|obj objs IH]; intros total ops w.
  - exists O, []. simpl. rewrite app_nil_r.
    split; [reflexivity|]. split; [constructor|]. repeat split; auto.
    exists []. now rewrite app_nil_r.
  - rewrite listing_loop_cons. cbn zeta.
    set (dest := dest_path src_key dst obj).
    pose proof (mkdir_returns true true (w_fs w) (Pathlib.parent dest)) as Hm.
    destruct (snd (FS.mkdir true true (w_fs w) (Pathlib.parent dest))) as [[]|e|];
      [| | now contradiction Hm].
    + match goal with
      | |- context [copy_s3_local_loop _ _ _ _ ?t1 ?ops1 ?w1] =>
          destruct (IH t1 ops1 w1) as (k & evs & E & Hp & Hd & Hpr & Haw & Hr)
      end.
      exists (S k), ([EvMkdir (Pathlib.parent dest) true; EvDownload (key obj) dest] ++ evs).
      rewrite E. cbn [w_trace]. rewrite <- !app_assoc.
      split; [reflexivity|].
      split; [simpl; now constructor|].
      split; [simpl; now rewrite Hd|].
      split; [exact Hpr|]. split; [exact Haw|].
      match goal with
      | |- match snd ?run with _ => _ end => destruct (snd run) as [r|e|]
      end; [| simpl; lia | exact Hr].
      destruct Hr as (-> & ops' & Eo & Hb & Hi). split; [reflexivity|].
      exists (mkOp (length ops) (download_error s3 (key obj) dest) (size obj) :: ops').
      rewrite Eo, <- app_assoc. split; [reflexivity|]. simpl. rewrite Hb.
      split; [reflexivity|]. rewrite Hi, length_app. simpl.
      now rewrite Nat.add_1_r.
    + exists O, [EvMkdir (Pathlib.parent dest) true]. cbn [fst snd w_trace].
      split; [reflexivity|].
      split; [constructor; [discriminate | constructor]|].
      repeat split; auto. simpl. lia.
Qed.

Lemma copy_s3_local_unfold s3 sched src_key dst w :
  copy_s3_local s3 sched src_key dst w
  = match copy_s3_local_loop s3 src_key dst (list_objects s3 src_key)
                             (PyNum.PyFloat 0) [] w with
    | (w1, Val r) =>
        (mkWorld (w_fs w1)
                 (w_trace w1
                    ++ EvTotal (fst r) :: fst (waited (as_completed sched (snd r)))),
         snd (waited (as_completed sched (snd r))))
    | (w1, Raise e) => (w1, Raise e)
    | (w1, OutOfFuel) => (w1, OutOfFuel)
    end.
Proof.
  unfold copy_s3_local, bind.
  destruct (copy_s3_local_loop s3 src_key dst (list_objects s3 src_key)
                               (PyNum.PyFloat 0) [] w) as [w1 [r|e|]]; try reflexivity.
  cbn [emit w_fs w_trace]. rewrite wait_all_run. cbn [w_fs w_trace].
  now rewrite <- app_assoc.
Qed.

(** a run of [copy_s3_local] *)
Lemma copy_s3_local_asked s3 sched src_key dst fs :
  let r := copy_s3_local s3 sched src_key dst (mkWorld fs []) in
  exists k,
    prepared (w_trace (fst r))
    /\ downloads (w_trace (fst r))
       = List.map (download_of src_key dst) (firstn k (list_objects s3 src_key))
    /\ ((k < length (list_objects s3 src_key))%nat -> exists e, snd r = Raise e)
    /\ (snd r = Val tt ->
        k = length (list_objects s3 src_key)
        /\ sum (progress (w_trace (fst r))) = listing_bytes (list_objects s3 src_key)
        /\ Permutation (awaited (w_trace (fst r)))
                       (List.seq 0 (length (list_objects s3 src_key)))).
Proof.
  cbn zeta. rewrite copy_s3_local_unfold.
  destruct (listing_ops s3 src_key dst (list_objects s3 src_key) (PyNum.PyFloat 0) []
                        (mkWorld fs []))
    as (k & evs & E & Hp & Hd & Hpr & Haw & Hr).
  exists k.
  destruct (copy_s3_local_loop s3 src_key dst (list_objects s3 src_key)
                               (PyNum.PyFloat 0) [] (mkWorld fs [])) as [w1 [r|e|]] eqn:El;
    cbn [fst snd w_trace] in *; [| | contradiction].
  - rewrite E. cbn [app].
    destruct Hr as (-> & ops' & Eo & Hb & Hi). simpl in Eo. subst ops'.
    split.
    { apply prepared_app; [exact Hp|]. constructor; [discriminate|]. apply waited_prepared. }
    split.
    { rewrite downloads_app. simpl. rewrite (proj2 (waited_quiet _)), app_nil_r. exact Hd. }
    split; [lia|].
    intros Hv. split; [reflexivity|].
    destruct (waited_val _ Hv) as (Hpr' & Haw' & _).
    rewrite progress_app, awaited_app, Hpr, Haw. simpl. rewrite Hpr', Haw'. split.
    + rewrite listing_bytes_sum, <- Hb. apply sum_perm, Permutation_map, as_completed_perm.
    + change (List.seq 0 (length (list_objects s3 src_key)))
        with (List.seq (length (@nil op)) (length (list_objects s3 src_key))).
      rewrite <- Hi. apply Permutation_map, as_completed_perm.
  - rewrite E. cbn [app]. split; [exact Hp|]. split; [exact Hd|].
    split; [eauto | discriminate].
Qed.

End Downloads.

(** X20: [copy_s3_local] asks for the downloads in the order of the
    listing, each with the key of the object and the destination computed
    for it, and each right after the [mkdir] of the parent of that
    destination; unless a [mkdir] raises, which ends the call, every listed
    object is asked for. *)
Theorem copy_s3_local_downloads_in_listing_order (s3 : CliHelper.S3Interface)
        (sched : list nat) (src_key : string) (dst : Pathlib.Path) (fs : FS.t) :
  let r := CliHelper.copy_s3_local s3 sched src_key dst (CliHelper.mkWorld fs []) in
  let listing := CliHelper.list_objects s3 src_key in
  CopyTrace.prepared (CliHelper.w_trace (fst r))
  /\ exists k,
       CopyTrace.downloads (CliHelper.w_trace (fst r))
       = List.map (CopyTrace.download_of src_key dst) (firstn k listing)
       /\ ((k < length listing)%nat -> exists e, snd r = Raise e).
Proof.
  cbn zeta. destruct (copy_s3_local_asked s3 sched src_key dst fs) as (k & Hp & Hd & Hr & _).
  split; [exact Hp|]. exists k. auto.
Qed.

(** X21: when [copy_s3_local] returns, every listed object was asked for,
    every future was waited for exactly once, and the updates of the
    progress bar add up to the sum of the listed sizes exactly. *)
Theorem copy_s3_local_progress_adds_up (s3 : CliHelper.S3Interface)
        (sched : list nat) (src_key : string) (dst : Pathlib.Path) (fs : FS.t)
        (Hdone : snd (CliHelper.copy_s3_local s3 sched src_key dst (CliHelper.mkWorld fs []))
                 = Val tt) :
  let r := CliHelper.copy_s3_local s3 sched src_key dst (CliHelper.mkWorld fs []) in
  let listing := CliHelper.list_objects s3 src_key in
  CopyTrace.downloads (CliHelper.w_trace (fst r))
  = List.map (CopyTrace.download_of src_key dst) listing
  /\ CopyTrace.sum (CopyTrace.progress (CliHelper.w_trace (fst r)))
     = CliHelper.listing_bytes listing
  /\ Permutation (CopyTrace.awaited (CliHelper.w_trace (fst r)))
                 (List.seq 0 (length listing)).
Proof.
  cbn zeta. destruct (copy_s3_local_asked s3 sched src_key dst fs) as (k & _ & Hd & _ & Hv).
  destruct (Hv Hdone) as (-> & Hs & Ha). rewrite firstn_all in Hd. auto.
Qed.

Lemma copy_s3_local_progress_adds_up_witness :
  let r := CliHelper.copy_s3_local (Examples.store Examples.small_listing) [1; 0]%nat
             "logs" (Pathlib.of_string "data") (CliHelper.mkWorld Examples.home_fs []) in
  let listing := CliHelper.list_objects (Examples.store Examples.small_listing) "logs" in
  CopyTrace.downloads (CliHelper.w_trace (fst r))
  = List.map (CopyTrace.download_of "logs" (Pathlib.of_string "data")) listing
  /\ CopyTrace.sum (CopyTrace.progress (CliHelper.w_trace (fst r)))
     = CliHelper.listing_bytes listing
  /\ Permutation (CopyTrace.awaited (CliHelper.w_trace (fst r)))
                 (List.seq 0 (length listing)).
Proof.
  apply (copy_s3_local_progress_adds_up (Examples.store Examples.small_listing)
           [1; 0]%nat "logs" (Pathlib.of_string "data") Examples.home_fs).
  vm_compute. reflexivity.
Defined.
